(** * Matrix Construct: a shallow embedding of the event pipeline core

    The development follows the layout of the repository:
    - [Sv], [Json]      : string views and JSON values used by every module;
    - [Event]           : the event tuple of include/ircd/m/event/event.h;
    - [Auth]            : modules/m_room_auth.cc (rules, check, power events,
                          the selection of auth events, forward references,
                          auth chain);
    - [Id]              : the MXIDs of ircd/matrix.cc (generators, sigils,
                          validity, the constructor from a name and a host);
    - [Db]              : the column store paths of ircd/db.cc (seek with
                          offload, write batch, comparators, read options,
                          column cursors and reads, rows);
    - [Room]            : the room membership and event insertion paths of
                          ircd/matrix.cc.

    Definitions come first; the theorems about them follow in the second
    half of the file. *)

From Stdlib Require Import String Ascii ZArith NArith List Bool Lia DecimalString.
From stdpp Require Import base option list gmap sets strings sorting relations.
Import ListNotations.
Set Warnings "-clear-no-such-hyp".
Open Scope string_scope.
Open Scope list_scope.

(** ** Exceptions and fallible results

    C++ exceptions are values; a function that may throw returns a
    [result]. Only the exception types the modelled code throws or catches
    are distinguished. *)

Inductive exception : Type :=
| FAIL (what : string)            (* m::room::auth::FAIL *)
| not_found (what : string)       (* json::not_found, m::NOT_FOUND *)
| ALREADY_MEMBER (what : string)  (* m::ALREADY_MEMBER *)
| BAD_JSON (what : string)        (* m::BAD_JSON *)
| db_error (what : string)        (* db::error family, via throw_on_error *)
| null_deref                      (* dereference of a null pointer *)
| other_exception (what : string).

Inductive result (A : Type) : Type :=
| Ok (a : A)
| Throw (e : exception).
Arguments Ok {A} a.
Arguments Throw {A} e.

#[global] Instance result_ret : MRet result := fun A a => Ok a.
#[global] Instance result_bind : MBind result := fun A B k r =>
  match r with
  | Ok a => k a
  | Throw e => Throw e
  end.

(** ** ircd::string_view

    A view is a pointer and a length. [None] is the null view (an undefined
    JSON member), [Some s] a view of the bytes [s]. Comparison looks at the
    bytes only, so the null view equals the empty one; [operator!] tests for
    emptiness; [defined] tests the pointer. *)
Module Sv.

Definition string_view : Type := option string.

Definition str (s : string_view) : string := default "" s.

(* operator== *)
Definition eq (a b : string_view) : bool := String.eqb (str a) (str b).

(* operator== against a literal *)
Definition is_lit (a : string_view) (lit : string) : bool := String.eqb (str a) lit.

(* operator! *)
Definition empty (a : string_view) : bool := String.eqb (str a) "".

Definition defined (a : string_view) : bool :=
  match a with Some _ => true | None => false end.

(* startswith(view, char) *)
Definition startswith (a : string_view) (c : ascii) : bool :=
  match str a with
  | String c' _ => Ascii.eqb c' c
  | EmptyString => false
  end.

(** Modelled from the spec: json::at<name>(tuple) is declared outside src/.
    A required field that is absent is an error, not a value: the accessor
    yields the member, and throws json::not_found when it is undefined. *)
Definition at_ (name : string) (a : string_view) : result string :=
  match a with
  | Some s => Ok s
  | None => Throw (not_found name)
  end.

End Sv.

(** ** JSON values, as far as the modelled code looks into them *)
Module Json.

#[warnings="-register-all"] Inductive value : Type :=
| String_ (s : string)
| Number (n : Z)
| Object (members : list (string * value))
| Array (elems : list value).

(* an object is a list of members; lookup finds the first with that key *)
Definition object : Type := list (string * value).

Fixpoint get (o : object) (key : string) : option value :=
  match o with
  | [] => None
  | (k, v) :: o' => if String.eqb k key then Some v else get o' key
  end.

(* unquote(object[key]): the string behind a member, a null view otherwise *)
Definition get_string (o : object) (key : string) : Sv.string_view :=
  match get o key with
  | Some (String_ s) => Some s
  | _ => None
  end.

End Json.

(** ** m::event (include/ircd/m/event/event.h)

    The tuple members the modelled functions read. [auth_events] holds the
    referenced event ids in order ([event::prev::auth_event(i)]). *)
Module Event.

Record event : Type := {
  auth_events : list string;
  content : Json.object;
  event_id : Sv.string_view;
  room_id : Sv.string_view;
  sender : Sv.string_view;
  state_key : Sv.string_view;
  type : Sv.string_view;
}.

(* m::event{}: every member undefined *)
Definition empty_event : event :=
  {| auth_events := []; content := []; event_id := None; room_id := None;
     sender := None; state_key := None; type := None |}.

(** Modelled from the spec: m::membership(event) is declared outside src/.
    The membership of a member event (invite, join, leave, ban, knock) is the
    membership member of its content, read unquoted, as room::is_member of
    ircd/matrix.cc reads it. *)
Definition membership (e : event) : Sv.string_view :=
  Json.get_string (content e) "membership".

End Event.

(** ** modules/m_room_auth.cc *)
Module Auth.
Import Event.

(** room::auth::hookdata: the view of the auth events a check runs on, the
    selectors found in it by the constructor, and the verdict fields, which
    start out as "not allowed" and "no failure". *)
Record hookdata : Type := {
  auth_events : list event;
  auth_create : option event;
  auth_power : option event;
  auth_join_rules : option event;
  auth_member_target : option event;
  auth_member_sender : option event;
  allow : bool;
  fail : option exception;
}.

(* hookdata::find: the first auth event the closure accepts *)
Definition find (evs : list event) (closure : event -> bool) : option event :=
  List.find closure evs.

(* hookdata::hookdata(event, auth_events) *)
Definition make_hookdata (e : event) (evs : list event) : hookdata :=
  {| auth_events := evs;
     auth_create := find evs (fun a => Sv.is_lit (type a) "m.room.create");
     auth_power := find evs (fun a => Sv.is_lit (type a) "m.room.power_levels");
     auth_join_rules := find evs (fun a => Sv.is_lit (type a) "m.room.join_rules");
     auth_member_target :=
       find evs (fun a => Sv.is_lit (type a) "m.room.member"
                          && Sv.eq (state_key a) (state_key e));
     auth_member_sender :=
       find evs (fun a => Sv.is_lit (type a) "m.room.member"
                          && Sv.eq (state_key a) (sender e));
     allow := false;
     fail := None |}.

(** *** Rule 2 *)

(* inner loop over j, skipping j = i; [bs] is the view from index [j] on *)
Fixpoint rule_2_duplicate (a : event) (i j : nat) (bs : list event) : bool :=
  match bs with
  | [] => false
  | b :: bs' =>
      if negb (Nat.eqb i j) && Sv.eq (type a) (type b)
         && Sv.eq (state_key a) (state_key b)
      then true
      else rule_2_duplicate a i (S j) bs'
  end.

(* the selector test at the end of the loop body: [true] is `continue` *)
Definition rule_2_selector (e a : event) : bool :=
  if Sv.is_lit (type a) "m.room.create" then true
  else if Sv.is_lit (type a) "m.room.power_levels" then true
  else if Sv.is_lit (type a) "m.room.join_rules" then true
  else if Sv.is_lit (type a) "m.room.member" then
    if Sv.eq (sender e) (state_key a) then true
    else if Sv.eq (state_key e) (state_key a) then true
    else false
  else false.

(* outer loop over i; [rest] is the view from index [i] on *)
Fixpoint rule_2_loop (e : event) (all : list event) (i : nat)
         (rest : list event) : result unit :=
  match rest with
  | [] => Ok tt
  | a :: rest' =>
      if rule_2_duplicate a i 0 all
      then Throw (FAIL "Duplicate (type,state_key) in auth_events.")
      else
        ra ← Sv.at_ "room_id" (room_id a);
        re ← Sv.at_ "room_id" (room_id e);
        if negb (String.eqb ra re)
        then Throw (FAIL ("Auth event " +:+ Sv.str (event_id a) +:+ " in "
                          +:+ ra +:+ " cannot be used in " +:+ re))
        else if rule_2_selector e a
        then rule_2_loop e all (S i) rest'
        else Throw (FAIL "Reference in auth_events is not an auth_event.")
  end.

Definition check_room_auth_rule_2 (e : event) (d : hookdata) : result unit :=
  rule_2_loop e (auth_events d) 0 (auth_events d).

(** *** Rules 3, 6 and 9 *)

Definition check_room_auth_rule_3 (e : event) (d : hookdata) : result unit :=
  match auth_create d with
  | None => Throw (FAIL "Missing m.room.create in auth_events.")
  | Some _ => Ok tt
  end.

Definition check_room_auth_rule_6 (e : event) (d : hookdata) : result unit :=
  match auth_member_sender d with
  | Some m =>
      if negb (Sv.is_lit (membership m) "join")
      then Throw (FAIL "sender is not joined to room.")
      else Ok tt
  | None => Ok tt
  end.

Definition check_room_auth_rule_9 (e : event) (d : hookdata) : result unit :=
  if Sv.startswith (state_key e) "@"%char
  then
    sk ← Sv.at_ "state_key" (state_key e);
    sn ← Sv.at_ "sender" (sender e);
    if negb (String.eqb sk sn)
    then Throw (FAIL "sender cannot set another user's mxid in a state_key.")
    else Ok tt
  else Ok tt.

(** *** is_power_event *)

Definition is_power_event (e : event) : bool :=
  if Sv.empty (type e) then false
  else if Sv.is_lit (type e) "m.room.create" then true
  else if Sv.is_lit (type e) "m.room.power_levels" then true
  else if Sv.is_lit (type e) "m.room.join_rules" then true
  else if negb (Sv.is_lit (type e) "m.room.member") then false
  else if Sv.empty (sender e) || Sv.empty (state_key e) then false
  else if Sv.eq (sender e) (state_key e) then false
  else if Sv.is_lit (membership e) "leave" || Sv.is_lit (membership e) "ban" then true
  else false.

(** *** The check on an event and its hookdata

    [room_auth_hook] is the hook site: its handlers live in other modules,
    may update the hookdata they are handed and may throw. [power] is the
    query of room::power built from the power_levels event (or the empty
    event) and the create event: [power pl create sender "events" type
    state_key]. *)
Section check.

Variable room_auth_hook : event -> hookdata -> result hookdata.
Variable power :
  event -> event -> string -> string -> string -> Sv.string_view -> bool.

Definition check_room_auth_rule_8 (e : event) (d : hookdata) : result unit :=
  let pl := match auth_power d with Some p => p | None => empty_event end in
  match auth_create d with
  | None => Throw null_deref
  | Some create =>
      sn ← Sv.at_ "sender" (sender e);
      ty ← Sv.at_ "type" (type e);
      if negb (power pl create sn "events" ty (state_key e))
      then Throw (FAIL "sender has insufficient power for event type.")
      else Ok tt
  end.

Definition passfail : Type := bool * option exception.

(* {data.allow, data.fail} *)
Definition verdict (d : hookdata) : passfail := (allow d, fail d).

(* room_auth_hook(event, data); return {data.allow, data.fail}; *)
Definition dispatch (e : event) (d : hookdata) : result passfail :=
  d' ← room_auth_hook e d; Ok (verdict d').

(* the body of the function-try-block of check(nothrow, event, data) *)
Definition check_try (e : event) (d : hookdata) : result passfail :=
  if Sv.is_lit (type e) "m.room.create" then dispatch e d
  else
    check_room_auth_rule_2 e d;;
    check_room_auth_rule_3 e d;;
    if Sv.is_lit (type e) "m.room.aliases" then dispatch e d
    else if Sv.is_lit (type e) "m.room.member" then dispatch e d
    else
      check_room_auth_rule_6 e d;;
      if Sv.is_lit (type e) "m.room.third_party_invite" then dispatch e d
      else
        check_room_auth_rule_8 e d;;
        check_room_auth_rule_9 e d;;
        if Sv.is_lit (type e) "m.room.power_levels" then dispatch e d
        else if Sv.is_lit (type e) "m.room.redaction" then dispatch e d
        else
          d' ← room_auth_hook e d;
          Ok (true, fail d').

(* catch(const FAIL &e): any other exception leaves the function *)
Definition catch_FAIL (r : result passfail) : result passfail :=
  match r with
  | Throw (FAIL what) => Ok (false, Some (FAIL what))
  | _ => r
  end.

(* room::auth::check(std::nothrow, event, hookdata &) *)
Definition check (e : event) (d : hookdata) : result passfail :=
  catch_FAIL (check_try e d).

End check.

(** *** The check on an event alone: two passes

    The environment of the function: [index] is m::index(event_id), which
    throws when the id is unknown; [room_get room type state_key] is
    room.get(std::nothrow, type, state_key), the index of the state event of
    that cell or 0; [fetch] is seek(event::fetch, idx, std::nothrow), the
    event when the fetch is valid. *)
Inductive log_line : Type :=
| dwarning (what : string).

Definition decimal (n : nat) : string := NilZero.string_of_uint (Nat.to_uint n).

Section check_event.

Variable room_auth_hook : event -> hookdata -> result hookdata.
Variable power :
  event -> event -> string -> string -> string -> Sv.string_view -> bool.
Variable index : string -> result N.
Variable room_get : string -> string -> Sv.string_view -> N.
Variable fetch : N -> option event.

(* count > i ? m::index(refs.auth_event(i)) : 0UL *)
Definition auth_idx (refs : list string) (i : nat) : result N :=
  match refs !! i with
  | Some id => index id
  | None => Ok 0%N
  end.

(* the initialiser of idxs[9], left to right *)
Definition check_idxs (e : event) (room : string) : result (list N) :=
  let refs := Event.auth_events e in
  i0 ← auth_idx refs 0;
  i1 ← auth_idx refs 1;
  i2 ← auth_idx refs 2;
  i3 ← auth_idx refs 3;
  let create := room_get room "m.room.create" (Some "") in
  let power_levels := room_get room "m.room.power_levels" (Some "") in
  sn ← Sv.at_ "sender" (sender e);
  let member_sender := room_get room "m.room.member" (Some sn) in
  ty ← Sv.at_ "type" (type e);
  let join_rules :=
    if String.eqb ty "m.room.member"
       && (Sv.is_lit (membership e) "join" || Sv.is_lit (membership e) "invite")
    then room_get room "m.room.join_rules" (Some "")
    else 0%N in
  member_target ←
    (if String.eqb ty "m.room.member"
     then sk ← Sv.at_ "state_key" (state_key e);
          Ok (if negb (String.eqb sn sk)
              then room_get room "m.room.member" (Some sk)
              else 0%N)
     else Ok 0%N);
  Ok [i0; i1; i2; i3; create; power_levels; member_sender; join_rules;
      member_target].

(* if(idxs[i]) seek(auth[i], idxs[i], std::nothrow); then auth[i].valid *)
Definition fetch_idx (idx : N) : option event :=
  if N.eqb idx 0 then None else fetch idx.

(* for(...; i < n && j < 4; ++i) if(auth[i].valid) authv[j++] = &auth[i];
   [auth] is the range of slots still to visit *)
Fixpoint collect (auth : list (option event)) (j : nat) : list event :=
  match auth with
  | [] => []
  | slot :: auth' =>
      if Nat.leb 4 j then []
      else match slot with
           | Some a => a :: collect auth' (S j)
           | None => collect auth' j
           end
  end.

Definition authv_first (idxs : list N) : list event :=
  collect (take 4 (map fetch_idx idxs)) 0.

Definition authv_second (idxs : list N) : list event :=
  collect (drop 4 (map fetch_idx idxs)) 0.

(* room::auth::check(std::nothrow, event): the lines logged and the result *)
Definition check_event (e : event) : list log_line * result passfail :=
  match Sv.at_ "room_id" (room_id e) with
  | Throw ex => ([], Throw ex)
  | Ok room =>
      let count := length (Event.auth_events e) in
      ((if Nat.ltb 4 count
        then [dwarning ("Event " +:+ Sv.str (event_id e)
                        +:+ " has an unexpected " +:+ decimal count
                        +:+ " auth_events references")]
        else []),
       idxs ← check_idxs e room;
       ret ← check room_auth_hook power e (make_hookdata e (authv_first idxs));
       if negb (fst ret) || bool_decide (is_Some (snd ret))
       then Ok ret
       else check room_auth_hook power e (make_hookdata e (authv_second idxs)))
  end.

End check_event.

(* the event with its auth_events references replaced *)
Definition with_auth_events (e : event) (refs : list string) : event :=
  {| Event.auth_events := refs; content := content e; event_id := event_id e;
     room_id := room_id e; sender := sender e; state_key := state_key e;
     type := type e |}.

(** *** room::auth::chain

    The store the walk reads: [index] is m::index(event_id, std::nothrow),
    0 for an unknown id; [events] maps the index of every stored event to
    the event, so that seek(fetch, idx, std::nothrow) is valid exactly when
    [events !! idx] is. *)
Section chain.

Variable index : string -> N.
Variable events : gmap N event.

(* the for loop over the auth_events of the fetched event; [ids] are the
   references still to visit, [ae] the set, [aq] the queue *)
Fixpoint chain_refs (ids : list string) (ae : gset N) (aq : list N)
  : gset N * list N :=
  match ids with
  | [] => (ae, aq)
  | auth_event_id :: ids' =>
      let auth_event_idx := index auth_event_id in
      if N.eqb auth_event_idx 0 then chain_refs ids' ae aq
      else if bool_decide (auth_event_idx ∈ ae) then chain_refs ids' ae aq
      else chain_refs ids' ({[auth_event_idx]} ∪ ae)
             (match events !! auth_event_idx with
              | Some _ => aq ++ [auth_event_idx]
              | None => aq
              end)
  end.

(* one turn of the do-while body on the popped [idx] *)
Definition chain_body (idx : N) (ae : gset N) (aq : list N) : gset N * list N :=
  match events !! idx with
  | None => (ae, aq)
  | Some e => chain_refs (take 4 (Event.auth_events e)) ae aq
  end.

(* do { idx = aq.front(); aq.pop_front(); ... } while(!aq.empty());
   the loop has no bound of its own: [fuel] counts its turns *)
Fixpoint chain_loop (fuel : nat) (idx : N) (aq : list N) (ae : gset N)
  : option (gset N) :=
  match fuel with
  | O => None
  | S fuel' =>
      let '(ae', aq') := chain_body idx ae aq in
      match aq' with
      | [] => Some ae'
      | idx' :: aq'' => chain_loop fuel' idx' aq'' ae'
      end
  end.

(* for(const auto &idx : ae) if(!closure(idx)) return false; return true;
   the closure may carry state; the third component lists the calls made *)
Fixpoint chain_visit {S : Type} (closure : N -> S -> bool * S)
         (idxs : list N) (s : S) : bool * S * list N :=
  match idxs with
  | [] => (true, s, [])
  | idx :: idxs' =>
      let '(continue, s') := closure idx s in
      if continue
      then let '(ret, s'', calls) := chain_visit closure idxs' s' in
           (ret, s'', idx :: calls)
      else (false, s', [idx])
  end.

(* std::set iterates in ascending order *)
Definition ascending (ae : gset N) : list N := merge_sort N.le (elements ae).

(* room::auth::chain::for_each(chain, closure_bool) *)
Definition chain_for_each {S : Type} (fuel : nat) (c_idx : N)
           (closure : N -> S -> bool * S) (s : S)
  : option (bool * S * list N) :=
  match chain_loop fuel c_idx [] ∅ with
  | None => None
  | Some ae => Some (chain_visit closure (ascending ae) s)
  end.

(* the references of a stored event that the walk follows: the first four,
   as far as their ids are known *)
Definition followed_refs (x : N) : list N :=
  match events !! x with
  | None => []
  | Some e => filter (fun i => i <> 0%N) (index <$> take 4 (Event.auth_events e))
  end.

Definition followed (x y : N) : Prop := y ∈ followed_refs x.

(* every index some stored event refers to among its first four *)
Definition referenced : gset N :=
  ⋃ ((fun x => list_to_set (followed_refs x)) <$> elements (dom events)).

(* the invariant of the walk from [start]: [pending] is the popped index
   and the queue *)
Definition chain_inv (start : N) (pending : list N) (ae : gset N) : Prop :=
  (forall y, y ∈ ae -> tc followed start y) /\
  (forall x, x ∈ pending -> x = start \/ x ∈ ae) /\
  (forall y, y = start \/ y ∈ ae ->
             y ∈ pending \/ forall z, followed y z -> z ∈ ae).

(* the locally stored auth_events references of an event, all of them *)
Definition auth_refs (x : N) : list N :=
  match events !! x with
  | None => []
  | Some e => filter (fun i => i <> 0%N) (index <$> Event.auth_events e)
  end.

Definition auth_ref (x y : N) : Prop := y ∈ auth_refs x.

End chain.

(** *** The admission order, as a list of steps

    A second reading of the check: the numbered list of rules is data, and
    [run] walks it from the front, stopping at the first step that throws or
    returns. [admission_order] is the list as written in the source;
    [spec_admission_order] is the list of the specification, rules 1 to
    12. *)
Inductive step : Type :=
| per_type (ty : string)
| reject_if (rule : event -> hookdata -> result unit)
| other_types
| otherwise_allow.

Section admission.

Variable room_auth_hook : event -> hookdata -> result hookdata.
Variable power :
  event -> event -> string -> string -> string -> Sv.string_view -> bool.

Fixpoint run (steps : list step) (e : event) (d : hookdata) : result passfail :=
  match steps with
  | [] => Ok (verdict d)
  | per_type ty :: rest =>
      if Sv.is_lit (type e) ty then dispatch room_auth_hook e d
      else run rest e d
  | reject_if rule :: rest => rule e d;; run rest e d
  | other_types :: rest => d' ← room_auth_hook e d; run rest e d'
  | otherwise_allow :: _ => Ok (true, fail d)
  end.

Definition spec_admission_order : list step :=
  [ per_type "m.room.create";
    reject_if check_room_auth_rule_2;
    reject_if check_room_auth_rule_3;
    per_type "m.room.aliases";
    per_type "m.room.member";
    reject_if check_room_auth_rule_6;
    per_type "m.room.third_party_invite";
    reject_if (check_room_auth_rule_8 power);
    reject_if check_room_auth_rule_9;
    per_type "m.room.power_levels";
    per_type "m.room.redaction";
    otherwise_allow ].

Definition admission_order : list step :=
  [ per_type "m.room.create";
    reject_if check_room_auth_rule_2;
    reject_if check_room_auth_rule_3;
    per_type "m.room.aliases";
    per_type "m.room.member";
    reject_if check_room_auth_rule_6;
    per_type "m.room.third_party_invite";
    reject_if (check_room_auth_rule_8 power);
    reject_if check_room_auth_rule_9;
    per_type "m.room.power_levels";
    per_type "m.room.redaction";
    other_types;
    otherwise_allow ].

End admission.

(** *** Rule 2, as the specification words it *)

Definition rejects (r : result unit) : Prop := exists what, r = Throw (FAIL what).

Definition same_cell (a b : event) : Prop :=
  Sv.str (type a) = Sv.str (type b) /\ Sv.str (state_key a) = Sv.str (state_key b).

(* (a) two entries with the same (type, state_key) pair *)
Definition has_duplicate (evs : list event) : Prop :=
  exists i j a b, i <> j /\ evs !! i = Some a /\ evs !! j = Some b /\ same_cell a b.

(* (b) an entry from another room *)
Definition has_other_room (e : event) (evs : list event) : Prop :=
  exists a, a ∈ evs /\ Sv.str (room_id a) <> Sv.str (room_id e).

Definition member_of (a : event) (user : Sv.string_view) : Prop :=
  Sv.str (type a) = "m.room.member" /\ Sv.str (state_key a) = Sv.str user.

(* (c) the allowed selectors the specification lists *)
Definition spec_selector (e a : event) : Prop :=
  Sv.str (type a) = "m.room.create" \/
  Sv.str (type a) = "m.room.power_levels" \/
  Sv.str (type a) = "m.room.join_rules" \/
  member_of a (sender e) \/
  member_of a (state_key e) \/
  Sv.str (type a) = "m.room.third_party_invite".

(* the allowed selectors without the third_party_invite entry *)
Definition selector (e a : event) : Prop :=
  Sv.str (type a) = "m.room.create" \/
  Sv.str (type a) = "m.room.power_levels" \/
  Sv.str (type a) = "m.room.join_rules" \/
  member_of a (sender e) \/
  member_of a (state_key e).

(* every room_id the rule reads is defined *)
Definition rooms_defined (e : event) (evs : list event) : Prop :=
  Sv.defined (room_id e) = true /\
  forall a, a ∈ evs -> Sv.defined (room_id a) = true.

(* what makes one iteration of the outer loop of rule 2 throw *)
Definition rule_2_bad (e : event) (all : list event) (i : nat) (a : event) : Prop :=
  rule_2_duplicate a i 0 all = true \/
  Sv.str (room_id a) <> Sv.str (room_id e) \/
  rule_2_selector e a = false.

(** *** Sample events

    A room [!r:x] created by [@alice:x], who then joined it; [@eve:x] never
    joined. *)
Definition mk_event (ty : string) (sk : Sv.string_view) (sn : string)
           (c : Json.object) (refs : list string) (id : string) : event :=
  {| Event.auth_events := refs; content := c; event_id := Some id;
     room_id := Some "!r:x"; sender := Some sn; state_key := sk;
     type := Some ty |}.

Definition ev_create : event :=
  mk_event "m.room.create" (Some "") "@alice:x"
           [("creator", Json.String_ "@alice:x")] [] "$1:x".

Definition ev_join_alice : event :=
  mk_event "m.room.member" (Some "@alice:x") "@alice:x"
           [("membership", Json.String_ "join")] ["$1:x"] "$2:x".

Definition ev_message_alice : event :=
  mk_event "m.room.message" None "@alice:x"
           [("body", Json.String_ "hello")] ["$1:x"; "$2:x"] "$3:x".

Definition ev_message_eve : event :=
  mk_event "m.room.message" None "@eve:x"
           [("body", Json.String_ "hello")] ["$1:x"] "$4:x".

Definition ev_third_party_invite : event :=
  mk_event "m.room.third_party_invite" (Some "token") "@alice:x"
           [("display_name", Json.String_ "bob")] ["$1:x"; "$2:x"] "$5:x".

Definition ev_invite_bob : event :=
  mk_event "m.room.member" (Some "@bob:x") "@alice:x"
           [("membership", Json.String_ "invite")]
           ["$1:x"; "$2:x"; "$5:x"] "$6:x".

(* the room as stored: event 1 is the create event, event 2 alice's join *)
Definition sample_index (id : string) : result N :=
  if String.eqb id "$1:x" then Ok 1%N
  else if String.eqb id "$2:x" then Ok 2%N
  else Throw (not_found id).

Definition sample_room_get (room ty : string) (sk : Sv.string_view) : N :=
  if String.eqb room "!r:x" && String.eqb ty "m.room.create" then 1%N
  else if String.eqb room "!r:x" && String.eqb ty "m.room.member"
          && Sv.is_lit sk "@alice:x" then 2%N
  else 0%N.

Definition sample_fetch (idx : N) : option event :=
  if N.eqb idx 1 then Some ev_create
  else if N.eqb idx 2 then Some ev_join_alice
  else None.

(* a store of six events: event 1 refers to the other five, in this order *)
Definition five_index (id : string) : N :=
  if String.eqb id "$2:x" then 2%N
  else if String.eqb id "$3:x" then 3%N
  else if String.eqb id "$4:x" then 4%N
  else if String.eqb id "$5:x" then 5%N
  else if String.eqb id "$6:x" then 6%N
  else 0%N.

Definition leaf (user id : string) : event :=
  mk_event "m.room.member" (Some user) user
           [("membership", Json.String_ "join")] [] id.

Definition five_events : gmap N event :=
  <[1%N := with_auth_events ev_message_alice
             ["$2:x"; "$3:x"; "$4:x"; "$5:x"; "$6:x"]]>
  (<[2%N := leaf "@u2:x" "$2:x"]>
  (<[3%N := leaf "@u3:x" "$3:x"]>
  (<[4%N := leaf "@u4:x" "$4:x"]>
  (<[5%N := leaf "@u5:x" "$5:x"]>
  (<[6%N := leaf "@u6:x" "$6:x"]> ∅))))).

(* chain::depth's closure: count the calls *)
Definition count_calls (idx : N) (n : nat) : bool * nat := (true, S n).

(* a hook site whose handlers accept everything *)
Definition hook_pass : event -> hookdata -> result hookdata :=
  fun _ d => Ok d.

(* a hook site with a handler that turns down m.room.message events *)
Definition hook_no_messages : event -> hookdata -> result hookdata :=
  fun e d =>
    if Sv.is_lit (type e) "m.room.message"
    then Throw (FAIL "messages are not accepted here.")
    else Ok d.

(* a room in which every sender has the power for every event *)
Definition power_all :
  event -> event -> string -> string -> string -> Sv.string_view -> bool :=
  fun _ _ _ _ _ _ => true.

(** *** room::auth::generate

    The environment of the function: [version] is m::version(room), [state_get
    type state_key] is the id state.get(std::nothrow, type, state_key, ...)
    hands to its closure, if the cell is set, [user_id_error] is what the
    constructor of m::user::id throws for a string, if anything, and
    [valid_user] is valid(m::id::USER, string). *)
Section generate.

Variable version : string.
Variable state_get : string -> Sv.string_view -> option string.
Variable user_id_error : string -> option exception.
Variable valid_user : string -> bool.

(* v1_ref appends [event_id, {"":""}], v3_ref appends the event_id *)
Definition fetch_append (out : list Json.value) (event_id : string)
  : list Json.value :=
  if String.eqb version "1" || String.eqb version "2"
  then out ++ [Json.Array [Json.String_ event_id;
                           Json.Object [("", Json.String_ "")]]]
  else out ++ [Json.String_ event_id].

(* state.get(std::nothrow, type, state_key, fetch_append) *)
Definition state_append (out : list Json.value) (ty : string)
           (sk : Sv.string_view) : list Json.value :=
  match state_get ty sk with
  | Some event_id => fetch_append out event_id
  | None => out
  end.

(* generate(json::stack::array &, room, event) *)
Definition generate (e : event) : result (bool * list Json.value) :=
  let out := [] in
  if Sv.empty (type e) then Ok (false, out)
  else if Sv.is_lit (type e) "m.room.create" then Ok (false, out)
  else
    let out := state_append out "m.room.create" (Some "") in
    let out := state_append out "m.room.power_levels" (Some "") in
    let out :=
      if Sv.is_lit (type e) "m.room.member"
         && (Sv.empty (membership e) || Sv.is_lit (membership e) "join"
             || Sv.is_lit (membership e) "invite")
      then state_append out "m.room.join_rules" (Some "")
      else out in
    member_sender ←
      match sender e with
      | Some s => match user_id_error s with
                  | Some ex => Throw ex
                  | None => Ok s
                  end
      | None => Ok ""
      end;
    let out :=
      if negb (String.eqb member_sender "")
      then state_append out "m.room.member" (Some member_sender)
      else out in
    let member_target :=
      if negb (Sv.empty (sender e)) && negb (Sv.empty (state_key e))
         && negb (Sv.eq (sender e) (state_key e))
         && valid_user (Sv.str (state_key e))
      then Sv.str (state_key e)
      else "" in
    let out :=
      if negb (String.eqb member_target "")
      then state_append out "m.room.member" (Some member_target)
      else out in
    Ok (true, out).

End generate.

(* the event id of a reference, in either dialect *)
Definition ref_event_id (v : Json.value) : option string :=
  match v with
  | Json.String_ id => Some id
  | Json.Array (Json.String_ id :: _) => Some id
  | _ => None
  end.

(* the stored events a list of references names; [lookup] finds an event by
   its id *)
Definition referenced_events (lookup : string -> option event)
           (refs : list Json.value) : list event :=
  omap (fun v => ref_event_id v ≫= lookup) refs.

(* the state is the state of the room of [e]: each cell that is set names a
   stored state event of that type and state_key in this room *)
Definition state_of_room (e : event)
           (state_get : string -> Sv.string_view -> option string)
           (lookup : string -> option event) : Prop :=
  forall ty sk id, state_get ty sk = Some id ->
    exists a, lookup id = Some a /\ Sv.str (type a) = ty /\
              Sv.str (state_key a) = Sv.str sk /\ room_id a = room_id e.

(** *** room::auth::refs

    [next_auth] lists what event::refs{idx}.for_each(dbs::ref::NEXT_AUTH, ...)
    hands over, in its order; [get_type] is the value m::get(std::nothrow,
    ref, "type", ...) hands to its closure, if the event has one. *)
Section refs.

Variable next_auth : list N.
Variable get_type : N -> option string.

(* the lambda handed to erefs.for_each: true to continue *)
Definition refs_step {S : Type} (ty : Sv.string_view)
           (closure : N -> S -> bool * S) (ref : N) (s : S) : bool * S :=
  if negb (Sv.empty ty)
  then match get_type ref with
       | None => (true, s)
       | Some type_ =>
           if negb (String.eqb (Sv.str ty) type_) then (true, s)
           else closure ref s
       end
  else closure ref s.

(** Modelled from the spec: event::refs::for_each is declared outside src/.
    It walks the forward references of the event in order, stops at the
    first call that returns false, and returns whether it came to the end. *)
Fixpoint erefs_for_each {S : Type} (step : N -> S -> bool * S)
         (refs : list N) (s : S) : bool * S :=
  match refs with
  | [] => (true, s)
  | ref :: refs' =>
      let '(continue, s') := step ref s in
      if continue then erefs_for_each step refs' s' else (false, s')
  end.

(* refs::for_each(type, closure) *)
Definition refs_for_each {S : Type} (ty : Sv.string_view)
           (closure : N -> S -> bool * S) (s : S) : bool * S :=
  erefs_for_each (refs_step ty closure) next_auth s.

(* refs::count(type) *)
Definition refs_count (ty : Sv.string_view) : nat :=
  snd (refs_for_each ty (fun _ ret => (true, S ret)) 0).

(* refs::count() *)
Definition refs_count_all : nat := refs_count None.

(* refs::has(idx) *)
Definition refs_has_idx (idx : N) : bool :=
  negb (fst (refs_for_each None (fun ref (s : unit) => (negb (N.eqb ref idx), s)) tt)).

(* refs::has(type) *)
Definition refs_has_type (ty : Sv.string_view) : bool :=
  snd (refs_for_each ty (fun _ (_ : bool) => (false, true)) false).

End refs.

(** *** room::auth::chain::depth and room::auth::chain::has *)
Section chain_queries.

Variable index : string -> N.
Variable events : gmap N event.

(* m::get(std::nothrow, idx, "type", closure): the type of the stored event *)
Definition get_type_of (idx : N) : option string :=
  match events !! idx with
  | Some e => type e
  | None => None
  end.

(* chain::depth() *)
Definition chain_depth (fuel : nat) (c_idx : N) : option nat :=
  match chain_for_each index events fuel c_idx
                       (fun _ ret => (true, S ret)) 0 with
  | Some (_, ret, _) => Some ret
  | None => None
  end.

(* chain::has(type) *)
Definition chain_has (fuel : nat) (c_idx : N) (ty : string) : option bool :=
  match chain_for_each index events fuel c_idx
          (fun idx ret =>
             let ret := match get_type_of idx with
                        | Some value => String.eqb value ty
                        | None => ret
                        end in
             (negb ret, ret))
          false with
  | Some (_, ret, _) => Some ret
  | None => None
  end.

End chain_queries.

(* the references appended for a list of state cells, in order *)
Definition append_cells (version : string)
           (state_get : string -> Sv.string_view -> option string)
           (out : list Json.value) (cells : list (string * Sv.string_view))
  : list Json.value :=
  foldl (fun out c => state_append version state_get out (fst c) (snd c))
        out cells.

(* the cell of a state event *)
Definition cell_of (a : event) : string * string :=
  (Sv.str (type a), Sv.str (state_key a)).

(* a cell rule 2 lets an auth event of [e] come from *)
Definition selector_cell (e : event) (c : string * Sv.string_view) : Prop :=
  fst c = "m.room.create" \/ fst c = "m.room.power_levels" \/
  fst c = "m.room.join_rules" \/
  (fst c = "m.room.member" /\
   (Sv.str (snd c) = Sv.str (sender e) \/ Sv.str (snd c) = Sv.str (state_key e))).

(* the state of the sample room and its events by id *)
Definition sample_state_get (ty : string) (sk : Sv.string_view) : option string :=
  if String.eqb ty "m.room.create" && Sv.is_lit sk "" then Some "$1:x"
  else if String.eqb ty "m.room.member" && Sv.is_lit sk "@alice:x"
  then Some "$2:x"
  else None.

Definition sample_lookup (id : string) : option event :=
  if String.eqb id "$1:x" then Some ev_create
  else if String.eqb id "$2:x" then Some ev_join_alice
  else None.

(* the state a closure is in after its calls on [idxs], in this order *)
Definition closure_state {S : Type} (closure : N -> S -> bool * S) (s : S)
           (idxs : list N) : S :=
  foldl (fun s idx => snd (closure idx s)) s idxs.

End Auth.

(** ** MXID generators (ircd/matrix.cc, m/id.h section) *)
Module Id.

(* enum sigil: each value is its character, see m::sigil(const char &) *)
Inductive sigil : Type := EVENT | USER | ALIAS | ROOM.

Definition sigil_char (sg : sigil) : ascii :=
  match sg with
  | EVENT => "$"
  | USER => "@"
  | ALIAS => "#"
  | ROOM => "!"
  end%char.

(* the first [n] characters of a string *)
Fixpoint truncate (n : nat) (s : string) : string :=
  match n, s with
  | S n', String c s' => String c (truncate n' s')
  | _, _ => EmptyString
  end.

(** Modelled from the spec: fmt::snprintf is declared outside src/. Like
    snprintf of the C library it leaves in a buffer of [max] bytes at most
    max - 1 characters of the formatted string. *)
Definition snprintf (max : nat) (formatted : string) : string :=
  truncate (max - 1) formatted.

(* %u *)
Definition format_u (n : N) : string := NilZero.string_of_uint (N.to_uint n).

(* %zd *)
Definition format_zd (z : Z) : string := NilZero.string_of_int (Z.to_int z).

Fixpoint zeros (n : nat) : string :=
  match n with
  | O => EmptyString
  | S n' => String "0"%char (zeros n')
  end.

(* %06d: the sign, then zeros up to a width of six, then the digits *)
Definition format_06d (z : Z) : string :=
  let digits := NilZero.string_of_uint (N.to_uint (Z.abs_N z)) in
  if (z <? 0)%Z
  then String "-"%char (zeros (5 - String.length digits) +:+ digits)
  else zeros (6 - String.length digits) +:+ digits.

(* generate_random_prefixed: [rnd] is what rand::integer() returns, kept in
   a uint32_t; the format is "%c%s%u" *)
Definition generate_random_prefixed (sg : sigil) (prefix : string) (max : nat)
           (rnd : N) : string :=
  let num := (rnd mod 2 ^ 32)%N in
  snprintf max (String (sigil_char sg) (prefix +:+ format_u num)).

(* generate_random_timebased: [utime] is what microtime() returns, seconds
   and microseconds; the format is "%c%zd%06d" *)
Definition generate_random_timebased (sg : sigil) (max : nat) (utime : Z * Z)
  : string :=
  snprintf max (String (sigil_char sg)
                       (format_zd (fst utime) +:+ format_06d (snd utime))).

(* id::id(sigil, buf, max, generate, host); the name buffer has 64 bytes and
   the format of the result is "%s:%s" *)
Definition generate (sg : sigil) (max : nat) (host : string)
           (rnd : N) (utime : Z * Z) : string :=
  let name :=
    match sg with
    | USER => generate_random_prefixed USER "guest" 64 rnd
    | ALIAS => generate_random_prefixed ALIAS "" 64 rnd
    | _ => generate_random_timebased sg 64 utime
    end in
  snprintf max (name +:+ ":" +:+ host).

(* the localpart each kind of id is given *)
Definition time_based (utime : Z * Z) : string :=
  format_zd (fst utime) +:+ format_06d (snd utime).

Definition random_number (rnd : N) : string := format_u (rnd mod 2 ^ 32)%N.

Definition localpart (sg : sigil) (rnd : N) (utime : Z * Z) : string :=
  match sg with
  | ROOM | EVENT => time_based utime
  | USER => "guest" +:+ random_number rnd
  | ALIAS => random_number rnd
  end.

(* the sigil, the localpart, a colon and the host *)
Definition mxid (sg : sigil) (local host : string) : string :=
  String (sigil_char sg) local +:+ ":" +:+ host.

(** *** Sigils and validity

    BAD_SIGIL and INVALID_MXID are the two exceptions of m/id.h this part of
    the file throws. *)
Inductive error : Type :=
| BAD_SIGIL (what : string)
| INVALID_MXID (what : string).

Inductive outcome (A : Type) : Type :=
| Returns (a : A)
| Throws (e : error).
Arguments Returns {A} a.
Arguments Throws {A} e.

(* m::sigil(const char &) *)
Definition sigil_of_char (c : ascii) : outcome sigil :=
  if Ascii.eqb c "$" then Returns EVENT
  else if Ascii.eqb c "@" then Returns USER
  else if Ascii.eqb c "#" then Returns ALIAS
  else if Ascii.eqb c "!" then Returns ROOM
  else Throws (BAD_SIGIL ("'" +:+ String c "' is not a valid sigil")).

(* m::sigil(const string_view &): s.at(0) throws std::out_of_range on an
   empty view *)
Definition sigil_of_view (s : string) : outcome sigil :=
  match s with
  | String c _ => sigil_of_char c
  | EmptyString => Throws (BAD_SIGIL "sigil undefined")
  end.

(* m::reflect(sigil) *)
Definition reflect (sg : sigil) : string :=
  match sg with
  | EVENT => "EVENT"
  | USER => "USER"
  | ALIAS => "ALIAS"
  | ROOM => "ROOM"
  end.

(* m::valid_sigil(const char &) *)
Definition valid_sigil_char (c : ascii) : bool :=
  Ascii.eqb c (sigil_char EVENT) || Ascii.eqb c (sigil_char USER)
  || Ascii.eqb c (sigil_char ALIAS) || Ascii.eqb c (sigil_char ROOM).

(* m::valid_sigil(const string_view &) *)
Definition valid_sigil (s : string) : bool :=
  match s with
  | String c _ => valid_sigil_char c
  | EmptyString => false
  end.

(** Modelled from the spec: split(view, delimiter) is declared outside src/.
    It cuts the view at the first delimiter, which belongs to neither part;
    a view without the delimiter is the first part, and the second is
    empty. *)
Fixpoint split (s : string) (delim : ascii) : string * string :=
  match s with
  | EmptyString => (EmptyString, EmptyString)
  | String c s' =>
      if Ascii.eqb c delim then (EmptyString, s')
      else let '(a, b) := split s' delim in (String c a, b)
  end.

(* id::valid() of an id of the given sigil *)
Definition valid (sg : sigil) (id : string) : bool :=
  let parts := split id ":" in
  if String.eqb (snd parts) "" then false
  else if Nat.ltb (String.length (fst parts)) 2 then false
  else if negb (Sv.startswith (Some (fst parts)) (sigil_char sg)) then false
  else true.

(* std::count(begin(name), end(name), c) *)
Fixpoint count (s : string) (c : ascii) : nat :=
  match s with
  | EmptyString => 0
  | String c' s' => (if Ascii.eqb c' c then 1 else 0) + count s' c
  end.

(** Modelled from the spec: strlcpy(buf, view, max) is declared outside
    src/. Like strlcpy of the C library it leaves in a buffer of [max] bytes
    at most max - 1 characters of the view; the length it returns is taken
    to be that of the copy. *)
Definition strlcpy (max : nat) (src : string) : string :=
  truncate (max - 1) src.

(* id::id(sigil, buf, max, name, host): [pre] is what buf holds when the
   sigil has been written, [len] its length *)
Definition make (sg : sigil) (max : nat) (name host : string) : outcome string :=
  if Nat.eqb max 0 then Returns EmptyString
  else
    let pre := if negb (Sv.startswith (Some name) (sigil_char sg))
               then String (sigil_char sg) EmptyString
               else EmptyString in
    let len := String.length pre in
    let has_sep := count name ":" in
    if Nat.eqb has_sep 0 && String.eqb host ""
    then Returns (pre +:+ strlcpy (max - len) name)
    else if Nat.eqb has_sep 0 && negb (String.eqb host "")
    then Returns (pre +:+ snprintf (max - len) (name +:+ ":" +:+ host))
    else if Nat.eqb has_sep 1 && negb (String.eqb host "")
            && negb (String.eqb (snd (split name ":")) "")
    then Returns (pre +:+ strlcpy (max - len) name)
    else if negb (Nat.eqb has_sep 0) && negb (String.eqb host "")
    then Throws (INVALID_MXID ("Not a valid '" +:+ reflect sg +:+ "' mxid"))
    else Returns pre.

(* the name with the sigil in front, unless it is there already *)
Definition with_sigil (sg : sigil) (name : string) : string :=
  if Sv.startswith (Some name) (sigil_char sg) then name
  else String (sigil_char sg) name.

End Id.

(** ** The column store (ircd/db.cc) *)
Module Db.

(** *** Seek with offload

    The engine behind a column is a sorted run of keys fixed by the
    snapshot and an iterator over it. [leb] is the comparator of the
    column, [keys] its keys in ascending order. An iterator is positioned
    at an index of [keys] or is not valid; Valid() is [valid]. *)

(* enum class pos *)
Inductive pos : Type := FRONT | PREV | END | NEXT | BACK.

(* rocksdb::Status, as far as seek tells the codes apart *)
Inductive status : Type := ok | incomplete.

Section seek.

Variable K : Type.
Variable leb : K -> K -> bool.
Variable keys : list K.

(* the second argument of seek: a pos or a key *)
Inductive target : Type :=
| to_pos (p : pos)
| to_key (k : K).

Record iterator : Type := {
  at_index : option nat;
  state : status;
}.

Definition valid (it : iterator) : bool :=
  match at_index it with Some _ => true | None => false end.

(* NewIterator: not positioned yet *)
Definition new_iterator : iterator := {| at_index := None; state := ok |}.

(* NewErrorIterator(status) *)
Definition error_iterator (s : status) : iterator :=
  {| at_index := None; state := s |}.

(* it->key() *)
Definition key (it : iterator) : option K :=
  match at_index it with
  | Some i => keys !! i
  | None => None
  end.

(* Seek(k): the first key not below k, scanning from index [i] *)
Fixpoint lower_bound_from (k : K) (i : nat) (l : list K) : option nat :=
  match l with
  | [] => None
  | x :: l' => if leb k x then Some i else lower_bound_from k (S i) l'
  end.

Definition lower_bound (k : K) : option nat := lower_bound_from k 0 keys.

Definition front : option nat :=
  match keys with [] => None | _ => Some 0 end.

Definition back : option nat :=
  match keys with [] => None | _ => Some (length keys - 1) end.

Definition next (i : option nat) : option nat :=
  match i with
  | Some i => if Nat.ltb (S i) (length keys) then Some (S i) else None
  | None => None
  end.

Definition prev (i : option nat) : option nat :=
  match i with
  | Some (S i) => Some i
  | _ => None
  end.

(* where _seek_(it, p) leaves an iterator that can read every block it
   needs; Next and Prev of an iterator that is not valid leave it so *)
Definition move (p : target) (i : option nat) : option nat :=
  match p with
  | to_key k => lower_bound k
  | to_pos NEXT => next i
  | to_pos PREV => prev i
  | to_pos FRONT => front
  | to_pos BACK => back
  | to_pos END =>
      match back with
      | Some last => next (Some last)
      | None => None
      end
  end.

(* _seek_ on an iterator in the BLOCKING tier *)
Definition _seek_blocking (it : iterator) (p : target) : iterator :=
  {| at_index := move p (at_index it); state := ok |}.

(* _seek_ on an iterator in the NON_BLOCKING tier, served from the cache *)
Definition _seek_hit (it : iterator) (p : target) : iterator :=
  {| at_index := move p (at_index it); state := ok |}.

(* _seek_ on an iterator in the NON_BLOCKING tier that needs a block which
   is not cached: the status is Incomplete. What is left of the position is
   the engine's choice, and seek tests it: the iterator is still valid at
   the position it had ([still_valid]), or it is not valid (rocksdb
   documents Valid() as false whenever status() is not ok) *)
Definition _seek_miss (still_valid : bool) (it : iterator) : iterator :=
  {| at_index := if still_valid then at_index it else None;
     state := incomplete |}.

(* the closure handed to ctx::offload *)
Definition offload (it blocking_it : iterator) (p : target) : iterator :=
  let blocking_it :=
    if valid it
    then match key it with
         | Some k => _seek_blocking blocking_it (to_key k)
         | None => blocking_it
         end
    else blocking_it in
  if negb (valid it) || valid blocking_it
  then _seek_blocking blocking_it p
  else blocking_it.

(* seek(column, p, opts, it). [cache] lists the non-blocking seeks that
   come back Incomplete before one is served from the cache, each with what
   the engine leaves of the iterator. The function returns whether the iterator is valid, and
   the iterator of the caller. *)
Fixpoint seek (cache : list bool) (p : target) (it : option iterator)
  : bool * iterator :=
  let it := match it with Some it => it | None => new_iterator end in
  match cache with
  | [] =>
      let it := _seek_hit it p in
      (valid it, it)
  | still_valid :: cache' =>
      let it := _seek_miss still_valid it in
      let blocking_it := offload it new_iterator p in
      if negb (valid blocking_it)
      then (false, error_iterator (state blocking_it))
      else match key blocking_it with
           | Some k => seek cache' (to_key k) None
           | None => (false, error_iterator (state blocking_it))
           end
  end.

(* the same seek on an iterator in the BLOCKING tier *)
Definition blocking_seek (p : target) (it : option iterator) : bool * iterator :=
  let it := match it with Some it => it | None => new_iterator end in
  let it := _seek_blocking it p in
  (valid it, it).

(* the keys ascend strictly *)
Definition ascending : Prop :=
  StronglySorted (fun a b => leb b a = false) keys.

(* the iterator of the caller, if any, is at a key of the column *)
Definition in_range (it : option iterator) : Prop :=
  forall it' i, it = Some it' -> at_index it' = Some i -> i < length keys.

(* a step from the position of the iterator *)
Definition relative (p : target) : bool :=
  match p with
  | to_pos NEXT | to_pos PREV => true
  | _ => false
  end.

(* the iterator contract: when a step of a valid iterator comes back
   Incomplete, the iterator is still valid at the position it had *)
Definition still_valid_on_miss (cache : list bool) (p : target)
           (it : option iterator) : Prop :=
  forall it' keeps cache',
    relative p = true -> it = Some it' -> valid it' = true ->
    cache = keeps :: cache' -> keeps = true.

End seek.

(* a column of three keys under the bytewise comparator, and an iterator of
   a caller at its first key *)
Definition sample_keys : list string := ["a"; "b"; "c"].

Definition at_first : iterator := {| at_index := Some 0; state := ok |}.

Arguments to_pos {K} p.
Arguments to_key {K} k.

(** *** Write batches *)

(* enum class op *)
Inductive op : Type := GET | SET | MERGE | DELETE | DELETE_RANGE | SINGLE_DELETE.

Section write.

(* the values of the cells *)
Variable V : Type.

(* the entries of a rocksdb::WriteBatch, each with its column *)
Inductive write : Type :=
| Put (c k : string) (v : V)
| Merge (c k : string) (v : V)
| Delete (c k : string)
| DeleteRange (c k : string) (v : V)
| SingleDelete (c k : string).

(* column::delta: op, key, val *)
Definition column_delta : Type := op * string * V.

(* append(batch, column, delta) *)
Definition append (batch : list write) (c : string) (delta : column_delta)
  : list write :=
  let '(o, k, v) := delta in
  match o with
  | GET => batch
  | SET => batch ++ [Put c k v]
  | MERGE => batch ++ [Merge c k v]
  | DELETE => batch ++ [Delete c k]
  | DELETE_RANGE => batch ++ [DeleteRange c k v]
  | SINGLE_DELETE => batch ++ [SingleDelete c k]
  end.

(* the engine: its state, and what one entry of a batch does to it *)
Variable database : Type.
Variable apply : database -> write -> database.

(** Modelled from the spec: the Write of the engine, called as
    throw_on_error { d.d->Write(opts, &batch) }, is outside src/. The atomic
    write batch of the spec is an ordered sequence of (column, op, key,
    value) applied as a unit: the engine commits the entries of a batch in
    order, and a reader sees all of them, or it reports an error and commits
    none; [error] is what it reports. *)
Definition Write (error : option exception) (d : database)
           (batch : list write) : database * result unit :=
  match error with
  | Some ex => (d, Throw ex)
  | None => (foldl apply d batch, Ok tt)
  end.



End write.

Arguments Put {V} c k v.
Arguments Merge {V} c k v.
Arguments Delete {V} c k.
Arguments DeleteRange {V} c k v.
Arguments SingleDelete {V} c k.

(** *** database::comparator

    [less] and [equal] are the two functions of the user's db::comparator. *)
Record comparator : Type := {
  less : string -> string -> bool;
  equal : string -> string -> bool;
}.

(* comparator::Equal *)
Definition Equal (user : comparator) (a b : string) : bool := equal user a b.

(* comparator::Compare *)
Definition Compare (user : comparator) (a b : string) : Z :=
  if less user a b then (-1)%Z
  else if less user b a then 1%Z
  else 0%Z.

(* struct cmp_string_view: the operators < and == of string_view *)
Definition cmp_string_view : comparator :=
  {| less := String.ltb; equal := String.eqb |}.

(** *** Read options *)

(* enum class get, as far as make_opts tells the options apart *)
Inductive get : Type :=
| PIN | CACHE | NO_CACHE | NO_SNAPSHOT | NO_CHECKSUM | READAHEAD | other_get.

(* rocksdb::ReadTier *)
Inductive read_tier : Type := kReadAllTier | kBlockCacheTier.

(* ircd::db::NON_BLOCKING *)
Definition NON_BLOCKING : read_tier := kBlockCacheTier.

(* gopts: the options with their values, and the snapshot *)
Record gopts : Type := {
  opts : list (get * nat);
  snapshot : option nat;
}.

(* rocksdb::ReadOptions *)
Record ReadOptions : Type := {
  ro_snapshot : option nat;
  ro_read_tier : read_tier;
  ro_fill_cache : bool;
  ro_readahead_size : nat;
  ro_pin_data : bool;
  ro_tailing : bool;
  ro_verify_checksums : bool;
}.

(* rocksdb::ReadOptions() *)
Definition default_ReadOptions : ReadOptions :=
  {| ro_snapshot := None; ro_read_tier := kReadAllTier; ro_fill_cache := true;
     ro_readahead_size := 0; ro_pin_data := false; ro_tailing := false;
     ro_verify_checksums := true |}.

(* the body of the switch in make_opts(gopts, iterator) *)
Definition make_opts_step (ret : ReadOptions) (opt : get * nat) : ReadOptions :=
  match fst opt with
  | PIN =>
      {| ro_snapshot := ro_snapshot ret; ro_read_tier := ro_read_tier ret;
         ro_fill_cache := ro_fill_cache ret;
         ro_readahead_size := ro_readahead_size ret; ro_pin_data := true;
         ro_tailing := ro_tailing ret;
         ro_verify_checksums := ro_verify_checksums ret |}
  | CACHE =>
      {| ro_snapshot := ro_snapshot ret; ro_read_tier := ro_read_tier ret;
         ro_fill_cache := true;
         ro_readahead_size := ro_readahead_size ret;
         ro_pin_data := ro_pin_data ret; ro_tailing := ro_tailing ret;
         ro_verify_checksums := ro_verify_checksums ret |}
  | NO_CACHE =>
      {| ro_snapshot := ro_snapshot ret; ro_read_tier := ro_read_tier ret;
         ro_fill_cache := false;
         ro_readahead_size := ro_readahead_size ret;
         ro_pin_data := ro_pin_data ret; ro_tailing := ro_tailing ret;
         ro_verify_checksums := ro_verify_checksums ret |}
  | NO_SNAPSHOT =>
      {| ro_snapshot := ro_snapshot ret; ro_read_tier := ro_read_tier ret;
         ro_fill_cache := ro_fill_cache ret;
         ro_readahead_size := ro_readahead_size ret;
         ro_pin_data := ro_pin_data ret; ro_tailing := true;
         ro_verify_checksums := ro_verify_checksums ret |}
  | NO_CHECKSUM =>
      {| ro_snapshot := ro_snapshot ret; ro_read_tier := ro_read_tier ret;
         ro_fill_cache := ro_fill_cache ret;
         ro_readahead_size := ro_readahead_size ret;
         ro_pin_data := ro_pin_data ret; ro_tailing := ro_tailing ret;
         ro_verify_checksums := false |}
  | READAHEAD =>
      {| ro_snapshot := ro_snapshot ret; ro_read_tier := ro_read_tier ret;
         ro_fill_cache := ro_fill_cache ret;
         ro_readahead_size := snd opt;
         ro_pin_data := ro_pin_data ret; ro_tailing := ro_tailing ret;
         ro_verify_checksums := ro_verify_checksums ret |}
  | other_get => ret
  end.

(* make_opts(gopts, iterator); 4_KiB is 4096 *)
Definition make_opts (o : gopts) (iterator : bool) : ReadOptions :=
  let ret :=
    {| ro_snapshot := snapshot o; ro_read_tier := NON_BLOCKING;
       ro_fill_cache := if iterator then false else true;
       ro_readahead_size := if iterator then 4096
                            else ro_readahead_size default_ReadOptions;
       ro_pin_data := ro_pin_data default_ReadOptions;
       ro_tailing := ro_tailing default_ReadOptions;
       ro_verify_checksums := ro_verify_checksums default_ReadOptions |} in
  foldl make_opts_step ret (opts o).

(** *** Column cursors and reads

    [cells] are the cells of a column in the order of its comparator [leb],
    each key with its value; the keys of the seek model are their first
    components. Slice::compare is the comparison of the bytes, whatever the
    comparator of the column. *)

(* db::not_found and db::incomplete, the exceptions a read throws *)
Inductive read_error : Type :=
| db_not_found
| db_incomplete.

Inductive outcome (A : Type) : Type :=
| Returns (a : A)
| Throws (e : read_error).
Arguments Returns {A} a.
Arguments Throws {A} e.

Section column.

Variable leb : string -> string -> bool.
Variable cells : list (string * string).

Definition keys_of : list string := fst <$> cells.

(* db::val(it) *)
Definition val (it : iterator) : option string :=
  match at_index it with
  | Some i => snd <$> cells !! i
  | None => None
  end.

(* it.key().compare(slice(sv)) == 0, asked of a valid iterator *)
Definition key_equal (it : iterator) (sv : string) : bool :=
  match key string keys_of it with
  | Some k => String.eqb k sv
  | None => false
  end.

(* throw_on_error(status), on the codes the seek model tells apart *)
Definition throw_on_error (s : status) : outcome unit :=
  match s with
  | ok => Returns tt
  | incomplete => Throws db_incomplete
  end.

(* valid_or_throw(it) *)
Definition valid_or_throw (it : iterator) : outcome unit :=
  if negb (valid it)
  then match throw_on_error (state it) with
       | Throws e => Throws e
       | Returns _ => Throws db_not_found
       end
  else Returns tt.

(* valid_equal_or_throw(it, sv) *)
Definition valid_equal_or_throw (it : iterator) (sv : string) : outcome unit :=
  match valid_or_throw it with
  | Throws e => Throws e
  | Returns _ =>
      if negb (key_equal it sv) then Throws db_not_found else Returns tt
  end.

(* seek(column, key, gopts): the iterator handed back *)
Definition column_seek (cache : list bool) (k : string) : iterator :=
  snd (seek string leb keys_of cache (to_key k) None).

(* column::operator()(key, func, gopts): what func is called with *)
Definition column_call (cache : list bool) (k : string) : outcome string :=
  let it := column_seek cache k in
  match valid_equal_or_throw it k with
  | Throws e => Throws e
  | Returns _ => Returns (default EmptyString (val it))
  end.

(* read(column, key, gopts): the copy of the value *)
Definition read (cache : list bool) (k : string) : outcome string :=
  column_call cache k.

(* column::const_iterator: the rocksdb iterator it owns, if it owns one *)
Definition const_iterator : Type := option iterator.

(* column::cend *)
Definition cend : const_iterator := None.

(* const_iterator::operator! *)
Definition it_not (it : const_iterator) : bool :=
  match it with
  | None => true
  | Some it => negb (valid it)
  end.

(* seek(column::const_iterator &, p) *)
Definition seek_it (cache : list bool) (p : target string)
           (it : const_iterator) : const_iterator :=
  Some (snd (seek string leb keys_of cache p it)).

(* column::cbegin *)
Definition cbegin (cache : list bool) : const_iterator :=
  seek_it cache (to_pos FRONT) None.

(* column::lower_bound *)
Definition column_lower_bound (cache : list bool) (k : string)
  : const_iterator :=
  seek_it cache (to_key k) None.

(* it.it->key().compare(slice(key)) == 0 *)
Definition it_key_equal (it : const_iterator) (k : string) : bool :=
  match it with
  | Some it => key_equal it k
  | None => false
  end.

(* column::find *)
Definition column_find (cache : list bool) (k : string) : const_iterator :=
  let it := column_lower_bound cache k in
  if it_not it || negb (it_key_equal it k) then cend else it.

(* column::upper_bound; [cache'] is the run of the seek behind ++ *)
Definition column_upper_bound (cache cache' : list bool) (k : string)
  : const_iterator :=
  let it := column_lower_bound cache k in
  if negb (it_not it) && it_key_equal it k
  then seek_it cache' (to_pos NEXT) it
  else it.

(* the key and the value under a cursor, read as operator* reads them *)
Definition deref (it : const_iterator) : option (string * string) :=
  match it with
  | Some it => match at_index it with
               | Some i => cells !! i
               | None => None
               end
  | None => None
  end.

End column.

(** *** Rows

    [seek_cell] is seek(cell &, p) for the position sought: whether the cell
    is valid afterwards, and the cell. *)
Section row.

Variable cell : Type.
Variable seek_cell : cell -> bool * cell.

(* seek(row &, p): std::all_of stops at the first cell whose seek fails and
   leaves the cells behind it as they are *)
Fixpoint row_seek (its : list cell) : bool * list cell :=
  match its with
  | [] => (true, [])
  | c :: its' =>
      let '(valid, c') := seek_cell c in
      if valid
      then let '(ret, its'') := row_seek its' in (ret, c' :: its'')
      else (false, c' :: its')
  end.

(* seeka(row &, p): every cell is sought; [invalid] collects the failures *)
Definition row_seeka (its : list cell) : bool * list cell :=
  let '(invalid, its') :=
    foldl (fun '(invalid, done) c =>
             let '(valid, c') := seek_cell c in
             (invalid || negb valid, done ++ [c']))
          (false, []) its in
  (negb invalid, its').

End row.

(* a column of three cells under the bytewise comparator *)
Definition sample_cells : list (string * string) :=
  [("a", "1"); ("b", "2"); ("c", "3")].

(* whether an option decides fill_cache *)
Definition cache_option (g : get) : bool :=
  match g with
  | CACHE | NO_CACHE => true
  | _ => false
  end.

End Db.

(** ** Rooms and event insertion (ircd/matrix.cc) *)
Module Room.
Import Event.

(** The events database: a cell is addressed by its column and its key.
    Values are kept as JSON values rather than as their bytes. *)
Abbreviation database := (gmap (string * string) Json.value).

(* the bytes of a value; the modelled paths pass strings *)
Definition text (v : Json.value) : string :=
  match v with Json.String_ s => s | _ => "" end.

(* what the engine does with one entry of a batch; the events database has
   no merge operator, and no modelled path issues a Merge *)
Definition apply (d : database) (w : Db.write Json.value) : database :=
  match w with
  | Db.Put c k v => <[(c, k) := v]> d
  | Db.Delete c k => delete (c, k) d
  | Db.SingleDelete c k => delete (c, k) d
  | Db.DeleteRange c k v =>
      filter (fun cell => negb (String.eqb (fst (fst cell)) c
                                && String.leb k (snd (fst cell))
                                && String.ltb (snd (fst cell)) (text v))
                          = true) d
  | Db.Merge c k v => d
  end.

(* the cell as a string view *)
Definition cell (d : database) (c k : string) : Sv.string_view :=
  match d !! (c, k) with
  | Some (Json.String_ s) => Some s
  | _ => None
  end.

(** *** json::iov *)

Definition iov : Type := list (string * Json.value).

Definition has (i : iov) (key : string) : bool :=
  match Json.get i key with Some _ => true | None => false end.

(* json::iov::push *)
Definition push (i : iov) (member : string * Json.value) : iov := i ++ [member].

(* json::iov::set: the member replaces one of the same name *)
Definition set (i : iov) (member : string * Json.value) : iov :=
  filter (fun m => negb (String.eqb (fst m) (fst member)) = true) i ++ [member].

(* json::iov::add: the name has to be new *)
Definition add (i : iov) (member : string * Json.value) : result iov :=
  if has i (fst member)
  then Throw (other_exception ("failed to add member '" +:+ fst member
                               +:+ "': already exists"))
  else Ok (i ++ [member]).

(* json::iov::add_if *)
Definition add_if (i : iov) (cond : bool) (member : string * Json.value)
  : result iov :=
  if cond then add i member else Ok i.

(* a member as a string view; the modelled paths read strings only *)
Definition view (i : iov) (key : string) : Sv.string_view :=
  Json.get_string i key.

Definition refs_of (v : option Json.value) : list string :=
  match v with
  | Some (Json.Array elems) =>
      omap (fun x => match x with Json.String_ s => Some s | _ => None end) elems
  | _ => []
  end.

Definition content_of (v : option Json.value) : Json.object :=
  match v with
  | Some (Json.Object o) => o
  | _ => []
  end.

(* m::event{iov} *)
Definition event_of_iov (i : iov) : event :=
  {| auth_events := refs_of (Json.get i "auth_events");
     content := content_of (Json.get i "content");
     event_id := view i "event_id";
     room_id := view i "room_id";
     sender := view i "sender";
     state_key := view i "state_key";
     type := view i "type" |}.

(* at(event, name, closure): the member of that name as bytes *)
Definition member (e : event) (name : string) : Sv.string_view :=
  if String.eqb name "event_id" then event_id e
  else if String.eqb name "room_id" then room_id e
  else if String.eqb name "sender" then sender e
  else if String.eqb name "state_key" then state_key e
  else if String.eqb name "type" then type e
  else None.

(** *** Indexers *)

(* db::delta: column, key, val; the op is SET *)
Definition delta : Type := string * string * Json.value.

(* strlcat(dst, src, max) *)
Definition strlcat (dst src : string) (max : nat) : string :=
  Id.truncate (max - 1) (dst +:+ src).

Inductive indexer : Type :=
| concat (col_a col_b : string)
| concat_v (col_a col_b col_c : string)
| concat_2v (col_a col_b0 col_b1 col_c : string).

(* the name given to the indexer by its constructor *)
Definition name (ix : indexer) : string :=
  match ix with
  | concat a b => Id.snprintf 512 (a +:+ " in " +:+ b)
  | concat_v a b c => Id.snprintf 512 (a +:+ " for " +:+ b +:+ " in " +:+ c)
  | concat_2v a b0 b1 c =>
      Id.snprintf 512 (a +:+ " for " +:+ b0 +:+ "," +:+ b1 +:+ " in " +:+ c)
  end.

(* indexer::operator()(event, iov): the delta appended *)
Definition index_row (ix : indexer) (e : event) : delta :=
  match ix with
  | concat a b =>
      let index := strlcat "" (Sv.str (member e b)) 1024 in
      let index := strlcat index (Sv.str (member e a)) 1024 in
      (name ix, index, Json.String_ "")
  | concat_v a b c =>
      let index := strlcat "" (Sv.str (member e c)) 1024 in
      let index := strlcat index (Sv.str (member e b)) 1024 in
      (name ix, index, Json.String_ (Sv.str (member e a)))
  | concat_2v a b0 b1 c =>
      let index := strlcat "" (Sv.str (member e c)) 2048 in
      let index := strlcat index ".." 2048 in
      let index := strlcat index (Sv.str (member e b0)) 2048 in
      let index := strlcat index (Sv.str (member e b1)) 2048 in
      (name ix, index, Json.String_ (Sv.str (member e a)))
  end.

Definition indexers : list indexer :=
  [ concat "event_id" "sender";
    concat "event_id" "room_id";
    concat_v "event_id" "room_id" "type";
    concat_2v "event_id" "type" "state_key" "room_id" ].

(* append_indexes(event, txn) *)
Definition append_indexes (e : event) (txn : list delta) : list delta :=
  foldl (fun txn ix => txn ++ [index_row ix e]) txn indexers.

(** *** db::iov *)

(** Modelled from the spec: db::iov, the transaction of ircd/db, is declared
    outside src/. It is the atomic write batch of the column store: an
    ordered sequence of (column, op, key, value), applied as a unit. Appending
    a JSON object under a key appends one cell per member, in the column
    named after the member (the column-per-field layout of the schema). *)
Definition txn_append (txn : list delta) (key : string) (i : iov) : list delta :=
  txn ++ ((fun m => (fst m, key, snd m)) <$> i).

(** Modelled from the spec: the batch a db::iov hands to the engine, one
    SET per delta, built as column::operator() of ircd/db.cc builds its
    batch. *)
Definition txn_batch (txn : list delta) : list (Db.write Json.value) :=
  foldl (fun batch '(c, k, v) => Db.append Json.value batch c (Db.SET, k, v))
        [] txn.

(** Modelled from the spec: db::iov::operator()(database), the commit: one
    Write of the whole batch. *)
Definition txn_commit (error : option exception) (d : database)
           (txn : list delta) : database * result unit :=
  Db.Write Json.value database apply error d (txn_batch txn).

(** *** m::event::insert

    [rnd] and [utime] are what rand::integer() and microtime() return to the
    id generator, [now] is time<milliseconds>(), [buf] the size of an
    id::event::buf, and [error] what the engine reports at the commit. *)
Section room.

Variable buf : nat.

Record clock : Type := {
  rnd : N;
  utime : Z * Z;
  now : Z;
}.

(* the part of insert before the transaction: the event and its members *)
Definition insert_event (i : iov) (t : clock) : result (event * iov) :=
  let generated_event_id :=
    if has i "event_id" then ""
    else Id.generate Id.EVENT buf "cdc.z" (rnd t) (utime t) in
  i ← add_if i (negb (has i "event_id"))
             ("event_id", Json.String_ generated_event_id);
  let i := set i ("origin_server_ts", Json.Number (now t)) in
  let e := event_of_iov i in
  if Sv.empty (type e)
  then Throw (BAD_JSON "Required event field: 'type'")
  else if Sv.empty (sender e)
  then Throw (BAD_JSON "Required event field: 'sender'")
  else Ok (e, i).

(* the deltas of the transaction: the members, then the index rows *)
Definition insert_txn (e : event) (i : iov) : list delta :=
  append_indexes e (txn_append [] (Sv.str (event_id e)) i).

Definition insert (d : database) (i : iov) (t : clock)
           (error : option exception) : database * result event :=
  match insert_event i t with
  | Throw ex => (d, Throw ex)
  | Ok (e, i) =>
      match txn_commit error d (insert_txn e i) with
      | (d', Ok _) => (d', Ok e)
      | (d', Throw ex) => (d', Throw ex)
      end
  end.

(** *** Reading a room *)

Definition key_le (a b : string) : Prop := String.leb a b = true.

#[local] Instance key_le_dec : RelDecision key_le :=
  fun a b => decide (String.leb a b = true).

(** Modelled from the spec: the keys of a column, in the order of its
    comparator (every column is an ordered map). *)
Definition column_keys (d : database) (c : string) : list string :=
  merge_sort key_le
             (snd <$> filter (fun ck => String.eqb (fst ck) c = true)
                             (fst <$> map_to_list d)).

(** Modelled from the spec: the event a cursor hands over is materialised
    from the field columns, each keyed by the event id. *)
Definition fetch (d : database) (id : string) : event :=
  {| auth_events := refs_of (d !! ("auth_events", id));
     content := content_of (d !! ("content", id));
     event_id := cell d "event_id" id;
     room_id := cell d "room_id" id;
     sender := cell d "sender" id;
     state_key := cell d "state_key" id;
     type := cell d "type" id |}.

(** Modelled from the spec: event::cursor is declared outside src/. A
    cursor over "event_id in room_id" started at a room id walks the rows
    whose key starts with the room id, forward in the order of the keys
    (begin and ++; rbegin is the reverse walk), and hands over the event each
    row names. *)
Definition room_events (d : database) (room : string) : list event :=
  (fun k => fetch d (String.substring (String.length room)
                                      (String.length k - String.length room) k))
  <$> filter (fun k => String.prefix room k = true)
             (column_keys d "event_id in room_id").

(** Modelled from the spec: event::where::equal is declared outside src/. The
    clause holds of the events that carry each of the listed members. *)
Definition where_equal (clause : list (string * string)) (e : event) : bool :=
  forallb (fun m => Sv.is_lit (member e (fst m)) (snd m)) clause.

(* room::events::query(where, closure): true when a closure call returns
   true; the closure may carry state *)
Fixpoint query_loop {S : Type} (where_ : event -> bool)
         (closure : event -> S -> bool * S) (evs : list event) (s : S)
  : bool * S :=
  match evs with
  | [] => (false, s)
  | e :: evs' =>
      if where_ e
      then let '(stop, s') := closure e s in
           if stop then (true, s') else query_loop where_ closure evs' s'
      else query_loop where_ closure evs' s
  end.

Definition query {S : Type} (d : database) (room : string)
           (where_ : event -> bool) (closure : event -> S -> bool * S) (s : S)
  : bool * S :=
  query_loop where_ closure (room_events d room) s.

(** *** room::is_member, room::membership, room::send *)

Definition is_member (d : database) (room user membership : string) : bool :=
  snd (query d room
             (where_equal [("type", "m.room.member"); ("state_key", user)])
             (fun e (_ : bool) =>
                (true, String.eqb membership (Sv.str (Event.membership e))))
             false).

(* m::id::host() *)
Definition host (id : string) : string :=
  match String.index 0 ":" id with
  | Some n => String.substring (S n) (String.length id - S n) id
  | None => ""
  end.

(* room::send(json::iov &) *)
Definition send (d : database) (room : string) (ev : iov) (t : clock)
           (error : option exception) : database * result event :=
  match add ev ("room_id", Json.String_ room) with
  | Throw ex => (d, Throw ex)
  | Ok ev =>
      let generated_event_id :=
        Id.generate Id.EVENT buf (host room) (rnd t) (utime t) in
      match add ev ("event_id", Json.String_ generated_event_id) with
      | Throw ex => (d, Throw ex)
      | Ok ev => insert d ev t error
      end
  end.

(* room::membership(user_id, content) *)
Definition membership (d : database) (room user : string) (content : iov)
           (t : clock) (error : option exception) : database * result event :=
  match Json.get content "membership" with
  | None => (d, Throw (not_found "membership"))
  | Some v =>
      let membership := text v in
      if is_member d room user membership
      then (d, Throw (ALREADY_MEMBER ("Member '" +:+ user +:+ "' is already '"
                                      +:+ membership +:+ "'.")))
      else
        let ev := push [] ("type", Json.String_ "m.room.member") in
        let ev := push ev ("state_key", Json.String_ user) in
        let ev := push ev ("sender", Json.String_ user) in
        let ev := push ev ("content", Json.Object content) in
        send d room ev t error
  end.

(* room::join and room::leave *)
Definition join (d : database) (room user : string) (content : iov)
           (t : clock) (error : option exception) : database * result event :=
  membership d room user (set content ("membership", Json.String_ "join")) t error.

Definition leave (d : database) (room user : string) (content : iov)
           (t : clock) (error : option exception) : database * result event :=
  membership d room user (set content ("membership", Json.String_ "leave")) t error.

(* the state cell of a member: the event id last written to the row of
   (m.room.member, user) in "event_id for type,state_key in room_id" *)
Definition member_state (d : database) (room user : string) : Sv.string_view :=
  match cell d "event_id for type,state_key in room_id"
             (room +:+ ".." +:+ "m.room.member" +:+ user) with
  | Some id => Event.membership (fetch d id)
  | None => None
  end.

End room.

(** *** A sample history: the ircd room across a restart

    [@ircd:cdc.z] joins [!ircd:cdc.z] when the server starts and leaves it
    when the server stops (m::join_ircd_room, m::leave_ircd_room). *)
Definition ircd_room : string := "!ircd:cdc.z".
Definition ircd_user : string := "@ircd:cdc.z".

Definition at_time (seconds : Z) : clock :=
  {| rnd := 0; utime := (seconds, 0%Z); now := (seconds * 1000)%Z |}.

(* the database after the first start *)
Definition db_started : database :=
  fst (join 256 ∅ ircd_room ircd_user [] (at_time 1500000000) None).

(* the database after the first stop *)
Definition db_stopped : database :=
  fst (leave 256 db_started ircd_room ircd_user [] (at_time 1500000100) None).


Definition sample_topic : iov :=
  [("type", Json.String_ "m.room.topic");
   ("state_key", Json.String_ "");
   ("sender", Json.String_ "@alice:cdc.z");
   ("room_id", Json.String_ "!r:cdc.z");
   ("content", Json.Object [("topic", Json.String_ "hello")])].

(* the key of the state row of a cell of the room state *)
Definition state_row_key (room type state_key : string) : string :=
  room +:+ ".." +:+ type +:+ state_key.

(* the first event of a list a where clause holds of *)
Definition first_match (where_ : event -> bool) (evs : list event)
  : option event :=
  List.find where_ evs.

(* what inserting the samples into an empty database gives *)
Definition inserted (i : iov) : database * result event :=
  insert 256 ∅ i (at_time 1500000000) None.

Definition inserted_event (i : iov) : event :=
  match snd (inserted i) with
  | Ok e => e
  | Throw _ => empty_event
  end.

(* the ircd user joins the ircd room of an empty database *)
Definition first_join : database * result event :=
  membership 256 ∅ ircd_room ircd_user [("membership", Json.String_ "join")]
             (at_time 1500000000) None.

Definition first_join_event : event :=
  match snd first_join with
  | Ok e => e
  | Throw _ => empty_event
  end.


(* the members of the event room::membership has inserted: its own four,
   the two room::send adds and the time stamp of event::insert *)
Definition membership_iov (room user : string) (content : iov) (id : string)
           (now : Z) : iov :=
  [("type", Json.String_ "m.room.member");
   ("state_key", Json.String_ user);
   ("sender", Json.String_ user);
   ("content", Json.Object content);
   ("room_id", Json.String_ room);
   ("event_id", Json.String_ id);
   ("origin_server_ts", Json.Number now)].

End Room.

(** * Theorems *)

Import Event Auth.

(** ** String views *)

Lemma is_lit_true (a : Sv.string_view) (lit : string) :
  Sv.is_lit a lit = true <-> Sv.str a = lit.
Proof. unfold Sv.is_lit. apply String.eqb_eq. Qed.

Lemma is_lit_false (a : Sv.string_view) (lit : string) :
  Sv.is_lit a lit = false <-> Sv.str a <> lit.
Proof. unfold Sv.is_lit. apply String.eqb_neq. Qed.

Lemma sv_eq_true (a b : Sv.string_view) :
  Sv.eq a b = true <-> Sv.str a = Sv.str b.
Proof. unfold Sv.eq. apply String.eqb_eq. Qed.

Lemma sv_eq_false (a b : Sv.string_view) :
  Sv.eq a b = false <-> Sv.str a <> Sv.str b.
Proof. unfold Sv.eq. apply String.eqb_neq. Qed.

Lemma sv_empty_true (a : Sv.string_view) :
  Sv.empty a = true <-> Sv.str a = "".
Proof. unfold Sv.empty. apply String.eqb_eq. Qed.

Lemma sv_empty_false (a : Sv.string_view) :
  Sv.empty a = false <-> Sv.str a <> "".
Proof. unfold Sv.empty. apply String.eqb_neq. Qed.

(* turn every boolean string test in the context into an (in)equation *)
Ltac sv_tests :=
  repeat match goal with
  | H : Sv.is_lit _ _ = true |- _ => apply is_lit_true in H
  | H : Sv.is_lit _ _ = false |- _ => apply is_lit_false in H
  | H : Sv.eq _ _ = true |- _ => apply sv_eq_true in H
  | H : Sv.eq _ _ = false |- _ => apply sv_eq_false in H
  | H : Sv.empty _ = true |- _ => apply sv_empty_true in H
  | H : Sv.empty _ = false |- _ => apply sv_empty_false in H
  end.

(** ** Power events *)

(** C6. [is_power_event] holds exactly of the events of type m.room.create,
    m.room.power_levels and m.room.join_rules, and of the m.room.member
    events that carry a sender and a state_key, whose membership is leave
    or ban, and whose sender is not the state_key; every other event, one
    without a type included, is not a power event. *)
Theorem is_power_event_iff (e : event) :
  is_power_event e = true <->
    Sv.str (type e) = "m.room.create" \/
    Sv.str (type e) = "m.room.power_levels" \/
    Sv.str (type e) = "m.room.join_rules" \/
    (Sv.str (type e) = "m.room.member" /\
     (Sv.str (membership e) = "leave" \/ Sv.str (membership e) = "ban") /\
     Sv.str (sender e) <> "" /\ Sv.str (state_key e) <> "" /\
     Sv.str (sender e) <> Sv.str (state_key e)).
Proof.
  unfold is_power_event. split.
  - repeat match goal with
    | |- context [if ?b then _ else _] => destruct b eqn:?
    end; intros H; try discriminate H;
    repeat match goal with
    | H : orb _ _ = true |- _ => apply orb_true_iff in H as [H|H]
    | H : orb _ _ = false |- _ => apply orb_false_iff in H as [? ?]
    | H : negb _ = true |- _ => apply negb_true_iff in H
    | H : negb _ = false |- _ => apply negb_false_iff in H
    end; sv_tests; tauto.
  - intros [H|[H|[H|(Hm & Hlb & Hs & Hk & Hne)]]].
    + apply is_lit_true in H as Hc. rewrite Hc.
      destruct (Sv.empty (type e)) eqn:E; [|reflexivity].
      apply sv_empty_true in E. congruence.
    + apply is_lit_true in H as Hc. rewrite Hc.
      destruct (Sv.empty (type e)) eqn:E; [apply sv_empty_true in E; congruence|].
      destruct (Sv.is_lit (type e) "m.room.create"); reflexivity.
    + apply is_lit_true in H as Hc. rewrite Hc.
      destruct (Sv.empty (type e)) eqn:E; [apply sv_empty_true in E; congruence|].
      destruct (Sv.is_lit (type e) "m.room.create"); [reflexivity|].
      destruct (Sv.is_lit (type e) "m.room.power_levels"); reflexivity.
    + destruct (Sv.empty (type e)) eqn:E; [apply sv_empty_true in E; congruence|].
      destruct (Sv.is_lit (type e) "m.room.create"); [reflexivity|].
      destruct (Sv.is_lit (type e) "m.room.power_levels"); [reflexivity|].
      destruct (Sv.is_lit (type e) "m.room.join_rules"); [reflexivity|].
      apply is_lit_true in Hm. rewrite Hm. cbn.
      apply sv_empty_false in Hs, Hk. rewrite Hs, Hk. cbn.
      apply sv_eq_false in Hne. rewrite Hne.
      destruct Hlb as [Hl|Hb].
      * apply is_lit_true in Hl. rewrite Hl. reflexivity.
      * apply is_lit_true in Hb. rewrite Hb. rewrite orb_true_r. reflexivity.
Qed.

(** ** The admission order of the check *)

(* an m.room.create event meets the hook and nothing else *)
Lemma check_create
      (room_auth_hook : event -> hookdata -> result hookdata)
      (power : event -> event -> string -> string -> string ->
               Sv.string_view -> bool)
      (e : event) (d : hookdata) :
  Sv.str (type e) = "m.room.create" ->
  check room_auth_hook power e d = catch_FAIL (dispatch room_auth_hook e d).
Proof.
  intros Hty. apply is_lit_true in Hty.
  unfold check, check_try. rewrite Hty. reflexivity.
Qed.

(* once rule 2 has thrown, neither the hook nor the power query is asked *)
Lemma check_rule_2_first
      (room_auth_hook : event -> hookdata -> result hookdata)
      (power : event -> event -> string -> string -> string ->
               Sv.string_view -> bool)
      (e : event) (d : hookdata) (what : string) :
  Sv.str (type e) <> "m.room.create" ->
  check_room_auth_rule_2 e d = Throw (FAIL what) ->
  check room_auth_hook power e d = Ok (false, Some (FAIL what)).
Proof.
  intros Hty Hrule. apply is_lit_false in Hty.
  unfold check, check_try. rewrite Hty, Hrule. reflexivity.
Qed.

(* with a handler that turns messages down, a message that passes rules 2
   to 11 is rejected by the final hook call, which the list of the
   specification does not have *)
Lemma check_spec_order_counterexample :
  check hook_no_messages power_all ev_message_alice
        (make_hookdata ev_message_alice [ev_create; ev_join_alice])
  <> catch_FAIL (run hook_no_messages (spec_admission_order power_all)
                     ev_message_alice
                     (make_hookdata ev_message_alice [ev_create; ev_join_alice])).
Proof. vm_compute. discriminate. Qed.

(** C1. The check walks the admission order from the front and stops at the
    first step that throws or returns: the per-type hook alone for
    m.room.create; rules 2 and 3; the hook for m.room.aliases and
    m.room.member; rule 6; the hook for m.room.third_party_invite; rules 8
    and 9; the hook for m.room.power_levels and m.room.redaction; for every
    other type the hook once more, and the event is allowed when that call
    does not throw. A FAIL thrown by any step is the verdict. *)
Theorem check_admission_order
        (room_auth_hook : event -> hookdata -> result hookdata)
        (power : event -> event -> string -> string -> string ->
                 Sv.string_view -> bool)
        (e : event) (d : hookdata) :
  check room_auth_hook power e d
  = catch_FAIL (run room_auth_hook (admission_order power) e d).
Proof.
  unfold check, check_try, admission_order. cbn [run].
  repeat match goal with
  | |- context [if ?b then _ else _] => destruct b
  end; try reflexivity.
Qed.

(** ** Rule 6 *)

Lemma rule_6_rejects_not_joined (e : event) (d : hookdata) (m : event) :
  auth_member_sender d = Some m ->
  Sv.str (membership m) <> "join" ->
  rejects (check_room_auth_rule_6 e d).
Proof.
  intros Hm Hne. unfold check_room_auth_rule_6. rewrite Hm.
  apply is_lit_false in Hne. rewrite Hne. cbn. eexists. reflexivity.
Qed.

(** C3. A message of [@eve:x], who has no member event in the auth events
    (her membership is not join), reaches rule 6 and is allowed by the
    check. *)
Theorem rule_6_absent_member_allowed :
  auth_member_sender (make_hookdata ev_message_eve [ev_create]) = None /\
  check_room_auth_rule_6 ev_message_eve (make_hookdata ev_message_eve [ev_create])
    = Ok tt /\
  check hook_pass power_all ev_message_eve
        (make_hookdata ev_message_eve [ev_create]) = Ok (true, None).
Proof. repeat split; vm_compute; reflexivity. Qed.

(** ** Rule 2 *)

Lemma rule_2_duplicate_iff (a : event) (i : nat) (bs : list event) (j : nat) :
  rule_2_duplicate a i j bs = true <->
  exists k b, bs !! k = Some b /\ i <> j + k /\ same_cell a b.
Proof.
  revert j. induction bs as [|b bs IH]; intros j; cbn [rule_2_duplicate].
  - split; [discriminate|]. intros (k & b & Hk & _). destruct k; discriminate Hk.
  - destruct (negb (Nat.eqb i j) && Sv.eq (type a) (type b)
              && Sv.eq (state_key a) (state_key b)) eqn:Hhit.
    + split; [intros _|reflexivity].
      apply andb_true_iff in Hhit as [Hhit Hsk].
      apply andb_true_iff in Hhit as [Hij Hty].
      apply negb_true_iff, Nat.eqb_neq in Hij. sv_tests.
      exists 0, b. repeat split; [lia|assumption|assumption].
    + rewrite IH. split.
      * intros (k & b' & Hk & Hne & Hsame).
        exists (S k), b'. repeat split; [exact Hk|lia|apply Hsame|apply Hsame].
      * intros (k & b' & Hk & Hne & Hty & Hsk). destruct k as [|k].
        -- injection Hk as <-. exfalso.
           apply andb_false_iff in Hhit as [Hhit|Hhit].
           ++ apply andb_false_iff in Hhit as [Hhit|Hhit].
              ** apply negb_false_iff, Nat.eqb_eq in Hhit. lia.
              ** sv_tests. contradiction.
           ++ sv_tests. contradiction.
        -- exists k, b'. repeat split; [exact Hk|lia|assumption|assumption].
Qed.

Lemma rule_2_selector_iff (e a : event) :
  rule_2_selector e a = true <-> selector e a.
Proof.
  unfold rule_2_selector, selector, member_of. split.
  - repeat match goal with
    | |- context [if ?b then _ else _] => destruct b eqn:?
    end; intros H; try discriminate H; sv_tests; intuition congruence.
  - intros H.
    repeat match goal with
    | |- context [if ?b then _ else _] => destruct b eqn:?
    end; try reflexivity; sv_tests; exfalso; intuition congruence.
Qed.

Lemma rule_2_selector_not (e a : event) :
  rule_2_selector e a = false <-> ~ selector e a.
Proof.
  rewrite <- rule_2_selector_iff. destruct (rule_2_selector e a); split; congruence.
Qed.

Lemma rule_2_loop_rejects (e : event) (all rest : list event) (i : nat) :
  Sv.defined (room_id e) = true ->
  (forall a, a ∈ rest -> Sv.defined (room_id a) = true) ->
  rejects (rule_2_loop e all i rest) <->
  exists k a, rest !! k = Some a /\ rule_2_bad e all (i + k) a.
Proof.
  intros He. revert i. induction rest as [|a rest IH]; intros i Hrest.
  - cbn. split.
    + intros [what H]. discriminate H.
    + intros (k & a & Hk & _). destruct k; discriminate Hk.
  - assert (Ha : Sv.defined (room_id a) = true) by (apply Hrest; left).
    assert (Hrest' : forall b, b ∈ rest -> Sv.defined (room_id b) = true)
      by (intros b Hb; apply Hrest; right; exact Hb).
    specialize (IH (S i) Hrest').
    destruct (room_id a) as [ra|] eqn:Era; [|discriminate Ha].
    destruct (room_id e) as [re|] eqn:Ere; [|discriminate He].
    cbn [rule_2_loop]. rewrite Era, Ere. cbn [Sv.at_ mbind result_bind].
    unfold rule_2_bad in *. rewrite Ere in *.
    destruct (rule_2_duplicate a i 0 all) eqn:Hdup.
    { split; [intros _|intros _; eexists; reflexivity].
      exists 0, a. rewrite Nat.add_0_r. split; [reflexivity|]. left. exact Hdup. }
    destruct (String.eqb ra re) eqn:Hroom; cbn [negb].
    2:{ apply String.eqb_neq in Hroom.
        split; [intros _|intros _; eexists; reflexivity].
        exists 0, a. split; [reflexivity|]. right; left. rewrite Era. exact Hroom. }
    apply String.eqb_eq in Hroom.
    destruct (rule_2_selector e a) eqn:Hsel.
    2:{ split; [intros _|intros _; eexists; reflexivity].
        exists 0, a. split; [reflexivity|]. right; right. exact Hsel. }
    rewrite IH. split.
    + intros (k & b & Hk & Hbad). exists (S k), b. split; [exact Hk|].
      replace (i + S k) with (S i + k) by lia. exact Hbad.
    + intros (k & b & Hk & Hbad). destruct k as [|k].
      * injection Hk as <-. rewrite Nat.add_0_r, Era in Hbad. cbn in Hbad.
        destruct Hbad as [H|[H|H]]; congruence.
      * exists k, b. split; [exact Hk|].
        replace (S i + k) with (i + S k) by lia. exact Hbad.
Qed.

(** C2. When the room ids the rule reads are defined, rule 2 rejects the
    event exactly when the auth events hold two entries with the same
    (type, state_key) pair, or an entry of another room, or an entry that
    is none of: create, power_levels, join_rules, the member event of the
    sender, the member event of the event's state_key. *)
Theorem rule_2_rejects_iff (e : event) (d : hookdata) :
  rooms_defined e (auth_events d) ->
  rejects (check_room_auth_rule_2 e d) <->
    has_duplicate (auth_events d) \/
    has_other_room e (auth_events d) \/
    (exists a, a ∈ auth_events d /\ ~ selector e a).
Proof.
  intros [He Hd]. unfold check_room_auth_rule_2.
  rewrite (rule_2_loop_rejects e _ _ 0 He Hd). unfold rule_2_bad. split.
  - intros (k & a & Hk & [Hdup|[Hroom|Hsel]]).
    + left. apply rule_2_duplicate_iff in Hdup as (j & b & Hj & Hne & Hsame).
      exists k, j, a, b. cbn in Hne. auto.
    + right; left. exists a. split; [|exact Hroom].
      apply list_elem_of_lookup. eauto.
    + right; right. exists a. split; [apply list_elem_of_lookup; eauto|].
      apply rule_2_selector_not. exact Hsel.
  - intros [(i & j & a & b & Hne & Hi & Hj & Hsame)|[(a & Ha & Hroom)|(a & Ha & Hsel)]].
    + exists i, a. split; [exact Hi|]. left.
      apply rule_2_duplicate_iff. exists j, b. cbn. auto.
    + apply list_elem_of_lookup in Ha as [k Hk]. exists k, a. auto.
    + apply list_elem_of_lookup in Ha as [k Hk]. exists k, a.
      split; [exact Hk|]. right; right. apply rule_2_selector_not. exact Hsel.
Qed.

Lemma rule_2_rejects_iff_witness :
  rooms_defined ev_message_alice [ev_create; ev_join_alice] /\
  (rejects (check_room_auth_rule_2 ev_message_alice
              (make_hookdata ev_message_alice [ev_create; ev_join_alice])) <->
   has_duplicate [ev_create; ev_join_alice] \/
   has_other_room ev_message_alice [ev_create; ev_join_alice] \/
   (exists a, a ∈ [ev_create; ev_join_alice] /\ ~ selector ev_message_alice a)).
Proof.
  assert (H : rooms_defined ev_message_alice [ev_create; ev_join_alice]).
  { split; [reflexivity|]. intros a Ha.
    apply list_elem_of_In in Ha. cbn in Ha.
    destruct Ha as [<-|[<-|[]]]; reflexivity. }
  split; [exact H|].
  exact (rule_2_rejects_iff ev_message_alice
           (make_hookdata ev_message_alice [ev_create; ev_join_alice]) H).
Defined.

Lemma rule_2_spec_selector_counterexample :
  ~ (rejects (check_room_auth_rule_2 ev_invite_bob
                (make_hookdata ev_invite_bob
                   [ev_create; ev_join_alice; ev_third_party_invite])) <->
     has_duplicate [ev_create; ev_join_alice; ev_third_party_invite] \/
     has_other_room ev_invite_bob [ev_create; ev_join_alice; ev_third_party_invite] \/
     (exists a, a ∈ [ev_create; ev_join_alice; ev_third_party_invite]
                /\ ~ spec_selector ev_invite_bob a)).
Proof.
  intros [H _].
  destruct H as [Hdup|[Hroom|Hsel]].
  - eexists. vm_compute. reflexivity.
  - destruct Hdup as (i & j & a & b & Hne & Hi & Hj & Hty & Hsk).
    destruct i as [|[|[|i]]]; destruct j as [|[|[|j]]];
      try discriminate Hi; try discriminate Hj; try lia;
      injection Hi as <-; injection Hj as <-; discriminate Hty.
  - destruct Hroom as (a & Ha & Hne). apply list_elem_of_In in Ha. cbn in Ha.
    destruct Ha as [<-|[<-|[<-|[]]]]; apply Hne; reflexivity.
  - destruct Hsel as (a & Ha & Hns). apply list_elem_of_In in Ha. cbn in Ha.
    unfold spec_selector, member_of in Hns.
    destruct Ha as [<-|[<-|[<-|[]]]]; apply Hns; cbn; auto 10.
Qed.
(** ** The two passes of the check on an event *)

Lemma collect_length (auth : list (option event)) (j : nat) :
  length (collect auth j) <= 4 - j.
Proof.
  revert j. induction auth as [|slot auth IH]; intros j; cbn [collect].
  - cbn. lia.
  - destruct (Nat.leb 4 j) eqn:Hj; [cbn; lia|].
    apply Nat.leb_gt in Hj.
    destruct slot; [cbn [length]; specialize (IH (S j))|specialize (IH j)]; lia.
Qed.

Lemma collect_elem (auth : list (option event)) (j : nat) (a : event) :
  a ∈ collect auth j -> Some a ∈ auth.
Proof.
  revert j. induction auth as [|slot auth IH]; intros j; cbn [collect].
  - intros H. inversion H.
  - destruct (Nat.leb 4 j); [intros H; inversion H|].
    destruct slot as [b|].
    + intros H. apply elem_of_cons in H as [->|H]; [left|right; eauto].
    + intros H. right. eauto.
Qed.

Lemma fetch_idx_Some (fetch : N -> option event) (idx : N) (a : event) :
  fetch_idx fetch idx = Some a -> idx <> 0%N /\ fetch idx = Some a.
Proof.
  unfold fetch_idx. destruct (N.eqb idx 0) eqn:E; [discriminate|].
  apply N.eqb_neq in E. auto.
Qed.

Lemma auth_idx_take (index : string -> result N) (refs refs' : list string) (i : nat) :
  i < 4 -> take 4 refs' = take 4 refs ->
  auth_idx index refs' i = auth_idx index refs i.
Proof.
  intros Hi Heq. unfold auth_idx.
  rewrite <- (lookup_take_lt refs' 4 i Hi), <- (lookup_take_lt refs 4 i Hi), Heq.
  reflexivity.
Qed.

Lemma auth_idx_fetched (index : string -> result N) (fetch : N -> option event)
      (refs : list string) (i : nat) (idx : N) (a : event) :
  auth_idx index refs i = Ok idx -> fetch_idx fetch idx = Some a ->
  exists id, refs !! i = Some id /\ index id = Ok idx /\ fetch idx = Some a.
Proof.
  unfold auth_idx. intros Hidx Hf. apply fetch_idx_Some in Hf as [Hnz Hf].
  destruct (refs !! i) as [id|].
  - exists id. auto.
  - injection Hidx as <-. contradiction.
Qed.

Lemma check_idxs_inv (index : string -> result N)
      (room_get : string -> string -> Sv.string_view -> N)
      (e : event) (room : string) (idxs : list N) :
  check_idxs index room_get e room = Ok idxs ->
  exists i0 i1 i2 i3 sn ty jr mt,
    auth_idx index (Event.auth_events e) 0 = Ok i0 /\
    auth_idx index (Event.auth_events e) 1 = Ok i1 /\
    auth_idx index (Event.auth_events e) 2 = Ok i2 /\
    auth_idx index (Event.auth_events e) 3 = Ok i3 /\
    sender e = Some sn /\ type e = Some ty /\
    idxs = [i0; i1; i2; i3;
            room_get room "m.room.create" (Some "");
            room_get room "m.room.power_levels" (Some "");
            room_get room "m.room.member" (Some sn); jr; mt] /\
    (jr <> 0%N ->
       jr = room_get room "m.room.join_rules" (Some "") /\
       ty = "m.room.member" /\
       (Sv.str (membership e) = "join" \/ Sv.str (membership e) = "invite")) /\
    (mt <> 0%N ->
       exists sk, state_key e = Some sk /\
                  mt = room_get room "m.room.member" (Some sk) /\
                  ty = "m.room.member" /\ sn <> sk).
Proof.
  unfold check_idxs. intros H.
  destruct (auth_idx index (Event.auth_events e) 0) as [i0|] eqn:E0; [|discriminate H].
  destruct (auth_idx index (Event.auth_events e) 1) as [i1|] eqn:E1; [|discriminate H].
  destruct (auth_idx index (Event.auth_events e) 2) as [i2|] eqn:E2; [|discriminate H].
  destruct (auth_idx index (Event.auth_events e) 3) as [i3|] eqn:E3; [|discriminate H].
  destruct (sender e) as [sn|] eqn:Esn; [|discriminate H].
  destruct (type e) as [ty|] eqn:Ety; [|discriminate H].
  cbn [Sv.at_ mbind result_bind] in H.
  destruct (String.eqb ty "m.room.member") eqn:Hm.
  - apply String.eqb_eq in Hm.
    destruct (state_key e) as [sk|] eqn:Esk; [|discriminate H].
    cbn [Sv.at_ mbind result_bind andb] in H. injection H as <-.
    do 6 eexists. eexists _, _. repeat (split; [reflexivity|]). split.
    + intros Hjr.
      destruct (Sv.is_lit (membership e) "join" || Sv.is_lit (membership e) "invite")
        eqn:Hji; [|contradiction].
      apply orb_true_iff in Hji as [Hji|Hji]; apply is_lit_true in Hji; auto.
    + intros Hmt. exists sk.
      destruct (String.eqb sn sk) eqn:Hsk; cbn [negb] in *; [contradiction|].
      apply String.eqb_neq in Hsk. auto.
  - cbn [mbind result_bind andb] in H. injection H as <-.
    do 6 eexists. eexists _, _. repeat (split; [reflexivity|]).
    split; intros Hnz; contradiction.
Qed.

(** C9. The check on an event alone logs a warning exactly when the event
    has more than four auth_events references, and runs the check with
    hookdata at most twice: first on the fetched events among the first
    four references, then, when that pass allows the event, on at most four
    of the fetched events among five lookups in the present state of the
    room (create, power_levels, the sender's member event, join_rules for a
    join or invite, the target's member event when it is not the sender).
    References beyond the fourth change none of the indexes used. *)
Theorem check_event_bounded
        (room_auth_hook : event -> hookdata -> result hookdata)
        (power : event -> event -> string -> string -> string ->
                 Sv.string_view -> bool)
        (index : string -> result N)
        (room_get : string -> string -> Sv.string_view -> N)
        (fetch : N -> option event)
        (e : event) (room : string) (idxs : list N) :
  room_id e = Some room ->
  check_idxs index room_get e room = Ok idxs ->
  let first := authv_first fetch idxs in
  let second := authv_second fetch idxs in
  let out := check_event room_auth_hook power index room_get fetch e in
  (fst out <> [] <-> 4 < length (Event.auth_events e)) /\
  snd out =
    (ret ← check room_auth_hook power e (make_hookdata e first);
     if negb (fst ret) || bool_decide (is_Some (snd ret))
     then Ok ret
     else check room_auth_hook power e (make_hookdata e second)) /\
  length first <= 4 /\
  length second <= 4 /\
  (forall a, a ∈ first ->
     exists k id idx, k < 4 /\ Event.auth_events e !! k = Some id /\
                      index id = Ok idx /\ fetch idx = Some a) /\
  (exists sn ty join_rules member_target,
     sender e = Some sn /\ type e = Some ty /\
     drop 4 idxs = [room_get room "m.room.create" (Some "");
                    room_get room "m.room.power_levels" (Some "");
                    room_get room "m.room.member" (Some sn);
                    join_rules; member_target] /\
     (join_rules <> 0%N ->
        join_rules = room_get room "m.room.join_rules" (Some "") /\
        ty = "m.room.member" /\
        (Sv.str (membership e) = "join" \/ Sv.str (membership e) = "invite")) /\
     (member_target <> 0%N ->
        exists sk, state_key e = Some sk /\
                   member_target = room_get room "m.room.member" (Some sk) /\
                   ty = "m.room.member" /\ sn <> sk)) /\
  (forall a, a ∈ second ->
     exists idx, idx ∈ drop 4 idxs /\ idx <> 0%N /\ fetch idx = Some a) /\
  (forall refs, take 4 refs = take 4 (Event.auth_events e) ->
     check_idxs index room_get (with_auth_events e refs) room = Ok idxs).
Proof.
  intros Hroom Hidxs first second out.
  pose proof (check_idxs_inv _ _ _ _ _ Hidxs)
    as (i0 & i1 & i2 & i3 & sn & ty & jr & mt
        & E0 & E1 & E2 & E3 & Esn & Ety & Eidxs & Hjr & Hmt).
  subst out. unfold check_event. rewrite Hroom. cbn [Sv.at_ fst snd].
  rewrite Hidxs. cbn [mbind result_bind].
  split; [|split; [reflexivity|]].
  { destruct (Nat.ltb 4 (length (Event.auth_events e))) eqn:Hc.
    - apply Nat.ltb_lt in Hc. split; [auto|discriminate].
    - apply Nat.ltb_ge in Hc. split; [congruence|lia]. }
  split; [pose proof (collect_length (take 4 (map (fetch_idx fetch) idxs)) 0);
          subst first; unfold authv_first; lia|].
  split; [pose proof (collect_length (drop 4 (map (fetch_idx fetch) idxs)) 0);
          subst second; unfold authv_second; lia|].
  split.
  { intros a Ha. subst first. unfold authv_first in Ha.
    apply collect_elem in Ha. rewrite Eidxs in Ha. cbn in Ha.
    apply list_elem_of_In in Ha. cbn in Ha.
    destruct Ha as [Ha|[Ha|[Ha|[Ha|[]]]]].
    - destruct (auth_idx_fetched _ _ _ _ _ _ E0 Ha) as (id & ? & ? & ?).
      exists 0, id, i0. repeat split; [lia|auto..].
    - destruct (auth_idx_fetched _ _ _ _ _ _ E1 Ha) as (id & ? & ? & ?).
      exists 1, id, i1. repeat split; [lia|auto..].
    - destruct (auth_idx_fetched _ _ _ _ _ _ E2 Ha) as (id & ? & ? & ?).
      exists 2, id, i2. repeat split; [lia|auto..].
    - destruct (auth_idx_fetched _ _ _ _ _ _ E3 Ha) as (id & ? & ? & ?).
      exists 3, id, i3. repeat split; [lia|auto..]. }
  split.
  { exists sn, ty, jr, mt. rewrite Eidxs. cbn [drop]. auto. }
  split.
  { intros a Ha. subst second. unfold authv_second in Ha.
    apply collect_elem in Ha. rewrite skipn_map in Ha.
    apply list_elem_of_fmap in Ha as (idx & Hf & Hin).
    symmetry in Hf. apply fetch_idx_Some in Hf as [Hnz Hf]. eauto. }
  intros refs Hrefs. rewrite <- Hidxs. unfold check_idxs.
  cbn [with_auth_events Event.auth_events sender type state_key membership content].
  rewrite !(auth_idx_take index (Event.auth_events e) refs) by (lia || assumption).
  reflexivity.
Qed.

Lemma check_event_bounded_witness :
  let e := with_auth_events ev_message_alice ["$1:x"; "$2:x"] in
  let idxs := [1%N; 2%N; 0%N; 0%N; 1%N; 0%N; 2%N; 0%N; 0%N] in
  room_id e = Some "!r:x" /\
  check_idxs sample_index sample_room_get e "!r:x" = Ok idxs /\
  length (authv_first sample_fetch idxs) <= 4 /\
  length (authv_second sample_fetch idxs) <= 4.
Proof.
  intros e idxs.
  split; [reflexivity|]. split; [reflexivity|].
  pose proof (check_event_bounded hook_pass power_all sample_index
                sample_room_get sample_fetch e "!r:x" idxs
                eq_refl eq_refl) as H.
  split; apply H.
Defined.
(** ** The auth chain *)

Section chain_facts.

Variable index : string -> N.
Variable events : gmap N event.

Local Abbreviation followed := (followed index events).
Local Abbreviation followed_refs := (followed_refs index events).
Local Abbreviation referenced := (referenced index events).

Lemma followed_referenced (x y : N) : followed x y -> y ∈ referenced.
Proof.
  unfold Auth.followed, Auth.referenced. intros H.
  apply elem_of_union_list. exists (list_to_set (followed_refs x)). split.
  - apply list_elem_of_fmap. exists x. split; [reflexivity|].
    apply elem_of_elements, elem_of_dom.
    unfold Auth.followed_refs in H. destruct (events !! x); [eauto|inversion H].
  - apply elem_of_list_to_set. exact H.
Qed.

Lemma followed_refs_elem (x : N) (e : event) (z : N) :
  events !! x = Some e ->
  z ∈ followed_refs x <->
  z <> 0%N /\ exists id, id ∈ take 4 (Event.auth_events e) /\ index id = z.
Proof.
  intros Hx. unfold Auth.followed_refs. rewrite Hx.
  rewrite list_elem_of_filter, list_elem_of_fmap. split.
  - intros [Hz (id & -> & Hid)]. eauto.
  - intros [Hz (id & Hid & <-)]. eauto.
Qed.

(* what the for loop over the references leaves in the set and the queue *)
Lemma chain_refs_spec (ids : list string) (ae : gset N) (aq : list N) :
  forall ae' aq', chain_refs index events ids ae aq = (ae', aq') ->
  (forall z, z ∈ ae' <-> z ∈ ae \/ (z <> 0%N /\ exists id, id ∈ ids /\ index id = z)) /\
  exists new, (aq' = aq ++ new) /\
    (forall z, z ∈ new -> z ∈ ae' /\ (z ∉ ae) /\ is_Some (events !! z)) /\
    (forall z, z ∈ ae' -> z ∉ ae -> is_Some (events !! z) -> z ∈ new).
Proof.
  revert ae aq. induction ids as [|id ids IH]; intros ae aq ae' aq' H; cbn in H.
  - injection H as <- <-. split.
    + intros z. split; [auto|]. intros [Hz|(_ & id & Hid & _)]; [exact Hz|inversion Hid].
    + exists []. rewrite app_nil_r. split; [reflexivity|]. split.
      * intros z Hz. inversion Hz.
      * intros z Hz Hnz. contradiction.
  - destruct (N.eqb (index id) 0) eqn:Hzero.
    { apply N.eqb_eq in Hzero. destruct (IH _ _ _ _ H) as (Hset & new & -> & Hnew & Hall).
      split.
      - intros z. rewrite Hset. split.
        + intros [Hz|(Hz & id' & Hid' & Heq)]; [auto|].
          right. split; [exact Hz|]. exists id'. split; [right; exact Hid'|exact Heq].
        + intros [Hz|(Hz & id' & Hid' & Heq)]; [auto|].
          apply elem_of_cons in Hid' as [->|Hid']; [congruence|]. right. eauto.
      - exists new. auto. }
    apply N.eqb_neq in Hzero.
    destruct (bool_decide (index id ∈ ae)) eqn:Hin.
    { apply bool_decide_eq_true in Hin.
      destruct (IH _ _ _ _ H) as (Hset & new & -> & Hnew & Hall). split.
      - intros z. rewrite Hset. split.
        + intros [Hz|(Hz & id' & Hid' & Heq)]; [auto|].
          right. split; [exact Hz|]. exists id'. split; [right; exact Hid'|exact Heq].
        + intros [Hz|(Hz & id' & Hid' & Heq)]; [auto|].
          apply elem_of_cons in Hid' as [->|Hid']; [subst z; auto|]. right. eauto.
      - exists new. auto. }
    apply bool_decide_eq_false in Hin.
    destruct (IH _ _ _ _ H) as (Hset & new & Haq & Hnew & Hall). split.
    + intros z. rewrite Hset, elem_of_union, elem_of_singleton. split.
      * intros [[->|Hz]|(Hz & id' & Hid' & Heq)].
        -- right. split; [exact Hzero|]. exists id. split; [left|reflexivity].
        -- auto.
        -- right. split; [exact Hz|]. exists id'. split; [right; exact Hid'|exact Heq].
      * intros [Hz|(Hz & id' & Hid' & Heq)]; [auto|].
        apply elem_of_cons in Hid' as [->|Hid']; [auto|]. right. eauto.
    + destruct (events !! index id) as [a|] eqn:Hev.
      * exists (index id :: new). rewrite Haq, <- app_assoc. split; [reflexivity|].
        split.
        -- intros z Hz. apply elem_of_cons in Hz as [->|Hz].
           ++ split; [apply Hset; left; set_solver|]. split; [exact Hin|eauto].
           ++ destruct (Hnew z Hz) as (H1 & H2 & H3).
              split; [exact H1|]. split; [set_solver|exact H3].
        -- intros z Hz Hnz Hsome.
           destruct (decide (z = index id)) as [->|Hne]; [left|].
           right. apply Hall; [exact Hz|set_solver|exact Hsome].
      * exists new. split; [exact Haq|]. split.
        -- intros z Hz. destruct (Hnew z Hz) as (H1 & H2 & H3).
           split; [exact H1|]. split; [set_solver|exact H3].
        -- intros z Hz Hnz Hsome. apply Hall; [exact Hz| |exact Hsome].
           intros Hu. apply elem_of_union in Hu as [Hu|Hu]; [|contradiction].
           apply elem_of_singleton in Hu. subst z. rewrite Hev in Hsome.
           destruct Hsome as [? Hs]. discriminate Hs.
Qed.

(* the set grows inside [U] at least as fast as the queue *)
Lemma chain_refs_measure (U : gset N) (ids : list string) (ae : gset N) (aq : list N) :
  (forall id, id ∈ ids -> index id <> 0%N -> index id ∈ U) ->
  forall ae' aq', chain_refs index events ids ae aq = (ae', aq') ->
  size (U ∖ ae') + length aq' <= size (U ∖ ae) + length aq.
Proof.
  revert ae aq. induction ids as [|id ids IH]; intros ae aq HU ae' aq' H; cbn in H.
  - injection H as <- <-. lia.
  - assert (HU' : forall id', id' ∈ ids -> index id' <> 0%N -> index id' ∈ U)
      by (intros id' Hid'; apply HU; right; exact Hid').
    destruct (N.eqb (index id) 0) eqn:Hzero; [eauto|].
    apply N.eqb_neq in Hzero.
    destruct (bool_decide (index id ∈ ae)) eqn:Hin; [eauto|].
    apply bool_decide_eq_false in Hin.
    specialize (IH _ _ HU' _ _ H).
    assert (Hlt : size (U ∖ ({[index id]} ∪ ae)) < size (U ∖ ae)).
    { apply subset_size. apply strict_spec. split; [set_solver|].
      intros Hsub. specialize (HU id ltac:(left) Hzero).
      assert (Hx : index id ∈ U ∖ ae) by set_solver.
      apply Hsub in Hx. set_solver. }
    destruct (events !! index id); [rewrite length_app in IH; cbn in IH|]; lia.
Qed.

Lemma chain_inv_init (start : N) : chain_inv index events start [start] ∅.
Proof.
  split; [|split].
  - intros y Hy. set_solver.
  - intros x Hx. apply list_elem_of_singleton in Hx. auto.
  - intros y [->|Hy]; [left; left|set_solver].
Qed.

Lemma chain_body_inv (start idx : N) (aq : list N) (ae : gset N) :
  chain_inv index events start (idx :: aq) ae ->
  forall ae' aq', chain_body index events idx ae aq = (ae', aq') ->
  chain_inv index events start aq' ae' /\
  size (referenced ∖ ae') + length aq' <= size (referenced ∖ ae) + length aq.
Proof.
  intros (Hsound & Hpend & Hclosed) ae' aq' H. unfold chain_body in H.
  destruct (events !! idx) as [e|] eqn:Hidx.
  2:{ injection H as <- <-. split; [|lia]. split; [exact Hsound|]. split.
      - intros x Hx. apply Hpend. right. exact Hx.
      - intros y Hy. destruct (Hclosed y Hy) as [Hp|Hc]; [|auto].
        apply elem_of_cons in Hp as [->|Hp]; [|auto].
        right. intros z Hz. unfold Auth.followed, Auth.followed_refs in Hz.
        rewrite Hidx in Hz. inversion Hz. }
  assert (Hreach : forall z, followed idx z -> tc followed start z).
  { intros z Hz. destruct (Hpend idx ltac:(left)) as [->|Hin].
    - apply tc_once. exact Hz.
    - eapply tc_r; [apply Hsound; exact Hin|exact Hz]. }
  split.
  - destruct (chain_refs_spec _ _ _ _ _ H) as (Hset & new & -> & Hnew & Hall).
    assert (Hset' : forall z, z ∈ ae' <-> z ∈ ae \/ followed idx z).
    { intros z. rewrite Hset. unfold Auth.followed.
      rewrite (followed_refs_elem idx e z Hidx). reflexivity. }
    split; [|split].
    + intros y Hy. apply Hset' in Hy as [Hy|Hy]; auto.
    + intros x Hx. apply elem_of_app in Hx as [Hx|Hx].
      * destruct (Hpend x ltac:(right; exact Hx)) as [->|Hin]; [auto|].
        right. apply Hset'. auto.
      * right. apply Hnew. exact Hx.
    + intros y Hy.
      assert (Hold : y = start \/ y ∈ ae -> 
                     y ∈ aq ++ new \/ (forall z, followed y z -> z ∈ ae')).
      { intros Hy'. destruct (Hclosed y Hy') as [Hp|Hc].
        - apply elem_of_cons in Hp as [->|Hp].
          + right. intros z Hz. apply Hset'. auto.
          + left. apply elem_of_app. auto.
        - right. intros z Hz. apply Hset'. auto. }
      destruct Hy as [Hy|Hy]; [auto|].
      destruct (decide (y ∈ ae)) as [Hin|Hnin]; [auto|].
      destruct (events !! y) as [ey|] eqn:Hey.
      * left. apply elem_of_app. right. apply Hall; eauto.
      * right. intros z Hz. unfold Auth.followed, Auth.followed_refs in Hz.
        rewrite Hey in Hz. inversion Hz.
  - eapply chain_refs_measure; [|exact H].
    intros id Hid Hnz. apply (followed_referenced idx).
    unfold Auth.followed. apply (followed_refs_elem idx e _ Hidx). eauto.
Qed.

Lemma chain_loop_total (start : N) (fuel : nat) :
  forall idx aq ae,
    chain_inv index events start (idx :: aq) ae ->
    size (referenced ∖ ae) + length aq < fuel ->
    exists ae', chain_loop index events fuel idx aq ae = Some ae' /\
                chain_inv index events start [] ae'.
Proof.
  induction fuel as [|fuel IH]; intros idx aq ae Hinv Hfuel; [lia|].
  cbn [chain_loop].
  destruct (chain_body index events idx ae aq) as [ae1 aq1] eqn:Hbody.
  destruct (chain_body_inv _ _ _ _ Hinv _ _ Hbody) as [Hinv1 Hm].
  destruct aq1 as [|idx' aq2].
  - exists ae1. auto.
  - apply IH; [exact Hinv1|]. cbn [length] in Hm. lia.
Qed.

Lemma chain_inv_done (start : N) (ae : gset N) :
  chain_inv index events start [] ae -> forall y, y ∈ ae <-> tc followed start y.
Proof.
  intros (Hsound & _ & Hclosed) y. split; [apply Hsound|].
  assert (Hgen : forall x, tc followed x y -> x = start \/ x ∈ ae -> y ∈ ae).
  { intros x Htc. induction Htc as [x y Hxy|x m y Hxm _ IH]; intros Hx.
    - destruct (Hclosed x Hx) as [Hp|Hc]; [inversion Hp|auto].
    - apply IH. right.
      destruct (Hclosed x Hx) as [Hp|Hc]; [inversion Hp|auto]. }
  intros Htc. apply (Hgen start Htc). auto.
Qed.

Lemma ascending_elem (ae : gset N) (y : N) : y ∈ ascending ae <-> y ∈ ae.
Proof.
  unfold ascending. rewrite merge_sort_Permutation. apply elem_of_elements.
Qed.

Lemma ascending_NoDup (ae : gset N) : NoDup (ascending ae).
Proof.
  unfold ascending. rewrite merge_sort_Permutation. apply NoDup_elements.
Qed.

End chain_facts.

(* what the loop over the set does with the closure: it calls it on a
   prefix of the indexes, threading the state; every call but the last
   returned true, the last returned what the loop returns, and the loop
   stops before the end only when a call has returned false *)
Lemma chain_visit_stops {S : Type} (closure : N -> S -> bool * S) (idxs : list N) :
  forall s ret s' calls,
    chain_visit closure idxs s = (ret, s', calls) ->
    exists rest,
      idxs = calls ++ rest /\
      s' = closure_state closure s calls /\
      (forall pre idx post, calls = pre ++ idx :: post ->
         fst (closure idx (closure_state closure s pre))
         = match post with [] => ret | _ => true end) /\
      (ret = true -> rest = []) /\
      (ret = false -> calls <> []).
Proof.
  induction idxs as [|i idxs IH]; intros s ret s' calls H; cbn in H.
  - injection H as <- <- <-. exists []. repeat split; try reflexivity.
    + intros pre idx post Hc. destruct pre; discriminate Hc.
    + discriminate.
  - destruct (closure i s) as [continue s1] eqn:Hci.
    destruct continue.
    + destruct (chain_visit closure idxs s1) as [[ret1 s2] calls1] eqn:Hrec.
      injection H as <- <- <-.
      destruct (IH _ _ _ _ Hrec) as (rest & Hidxs & Hs & Hret & Hall & Hsome).
      exists rest. split; [cbn; rewrite <- Hidxs; reflexivity|].
      split; [cbn; rewrite Hci; exact Hs|].
      split; [|split; [exact Hall|discriminate]].
      intros pre idx post Hc. destruct pre as [|p pre].
      * cbn in Hc. injection Hc as <- Hpost. cbn. rewrite Hci. cbn.
        destruct post as [|q post]; [|reflexivity].
        (* the only call: the rest of the loop made none *)
        subst calls1. cbn in Hrec.
        destruct idxs as [|j idxs']; cbn in Hrec.
        -- injection Hrec as <- _. reflexivity.
        -- destruct (closure j s1) as [c2 s3]. destruct c2.
           ++ destruct (chain_visit closure idxs' s3) as [[? ?] ?].
              discriminate Hrec.
           ++ discriminate Hrec.
      * cbn in Hc. injection Hc as <- Hc. cbn. rewrite Hci. cbn.
        apply (Hret pre idx post Hc).
    + injection H as <- <- <-. exists idxs. split; [reflexivity|].
      split; [cbn; rewrite Hci; reflexivity|].
      split; [|split; [discriminate|discriminate]].
      intros pre idx post Hc. destruct pre as [|p pre].
      * cbn in Hc. injection Hc as <- <-. cbn. rewrite Hci. reflexivity.
      * cbn in Hc. injection Hc as _ Hc. destruct pre; discriminate Hc.
Qed.

(** C7. Given fuel for more turns than there are referenced indexes, the
    walk ends with the set of the indexes reachable from the starting event
    by following, from every stored event on the way, those of its first
    four auth_events references whose ids are known. The closure is called
    on these indexes one after the other, each at most once, with its state
    threaded through the calls; the enumeration stops only behind a call
    that returns false, which is then what for_each returns, and it returns
    true after a call on every reachable index otherwise. A closure that
    never returns false is called on every reachable index. *)
Theorem chain_for_each_followed
        (index : string -> N) (events : gmap N event) (S : Type)
        (closure : N -> S -> bool * S) (s : S) (c_idx : N) (fuel : nat) :
  size (referenced index events) < fuel ->
  exists ret s' calls rest,
    chain_for_each index events fuel c_idx closure s = Some (ret, s', calls) /\
    NoDup (calls ++ rest) /\
    (forall y, y ∈ calls ++ rest <-> tc (followed index events) c_idx y) /\
    s' = closure_state closure s calls /\
    (forall pre idx post, calls = pre ++ idx :: post ->
       fst (closure idx (closure_state closure s pre))
       = match post with [] => ret | _ => true end) /\
    (ret = true -> rest = []) /\
    (ret = false -> calls <> []) /\
    ((forall idx s0, fst (closure idx s0) = true) ->
     ret = true /\ forall y, tc (followed index events) c_idx y -> y ∈ calls).
Proof.
  intros Hfuel. unfold chain_for_each.
  destruct (chain_loop_total index events c_idx fuel c_idx [] ∅
              (chain_inv_init index events c_idx))
    as (ae & Hloop & Hinv).
  { rewrite difference_empty_L. cbn. lia. }
  rewrite Hloop.
  pose proof (chain_inv_done index events c_idx ae Hinv) as Hreach.
  destruct (chain_visit closure (ascending ae) s) as [[ret s'] calls] eqn:Hvisit.
  destruct (chain_visit_stops closure _ _ _ _ _ Hvisit)
    as (rest & Hidxs & Hs & Hret & Hall & Hsome).
  exists ret, s', calls, rest. split; [reflexivity|].
  assert (Hin : forall y, y ∈ calls ++ rest <-> tc (followed index events) c_idx y).
  { intros y. rewrite <- Hidxs, ascending_elem. apply Hreach. }
  split; [rewrite <- Hidxs; apply ascending_NoDup|].
  split; [exact Hin|]. split; [exact Hs|]. split; [exact Hret|].
  split; [exact Hall|]. split; [exact Hsome|].
  intros Halways.
  assert (Htrue : ret = true).
  { destruct ret; [reflexivity|]. exfalso.
    specialize (Hsome eq_refl).
    destruct (exists_last Hsome) as (pre & idx & Hc).
    specialize (Hret pre idx [] Hc). cbn in Hret.
    rewrite Halways in Hret. discriminate Hret. }
  split; [exact Htrue|]. intros y Hy. apply Hin in Hy.
  rewrite (Hall Htrue), app_nil_r in Hy. exact Hy.
Qed.

Lemma chain_for_each_followed_witness :
  size (referenced five_index five_events) < 8 /\
  exists ret s' calls rest,
    chain_for_each five_index five_events 8 1%N count_calls 0
    = Some (ret, s', calls) /\
    NoDup (calls ++ rest) /\
    (forall y, y ∈ calls ++ rest <-> tc (followed five_index five_events) 1%N y) /\
    s' = closure_state count_calls 0 calls /\
    (forall pre idx post, calls = pre ++ idx :: post ->
       fst (count_calls idx (closure_state count_calls 0 pre))
       = match post with [] => ret | _ => true end) /\
    (ret = true -> rest = []) /\
    (ret = false -> calls <> []) /\
    ((forall idx s0, fst (count_calls idx s0) = true) ->
     ret = true /\
     forall y, tc (followed five_index five_events) 1%N y -> y ∈ calls).
Proof.
  assert (H : size (referenced five_index five_events) < 8) by (vm_compute; lia).
  split; [exact H|].
  exact (chain_for_each_followed five_index five_events nat count_calls 0 1%N 8 H).
Defined.

(* the fifth reference of event 1 is stored and never handed to the closure *)
Lemma chain_for_each_counterexample :
  ~ (forall ret s' calls,
       chain_for_each five_index five_events 8 1%N count_calls 0
         = Some (ret, s', calls) ->
       forall y, tc (auth_ref five_index five_events) 1%N y -> y ∈ calls).
Proof.
  intros H.
  specialize (H true 4 [2%N; 3%N; 4%N; 5%N] ltac:(vm_compute; reflexivity) 6%N).
  assert (Hreach : tc (auth_ref five_index five_events) 1%N 6%N).
  { apply tc_once. unfold auth_ref, auth_refs. vm_compute. do 4 right. left. }
  apply H, list_elem_of_In in Hreach. cbn in Hreach.
  repeat destruct Hreach as [Hreach|Hreach]; try discriminate Hreach.
  exact Hreach.
Qed.
(** ** MXID generators *)

Lemma truncate_fits (n : nat) (s : string) :
  String.length s <= n -> Id.truncate n s = s.
Proof.
  revert n. induction s as [|c s IH]; intros n Hn; destruct n as [|n];
    cbn in *; try reflexivity; try lia.
  rewrite IH by lia. reflexivity.
Qed.

Lemma snprintf_fits (max : nat) (s : string) :
  String.length s < max -> Id.snprintf max s = s.
Proof. intros H. unfold Id.snprintf. apply truncate_fits. lia. Qed.

(** C8. When the name fits its 64 byte buffer and the id fits the buffer of
    the caller, the generated id is the sigil, the localpart, a colon and
    the given host; the localpart is the seconds and the zero padded
    microseconds of the clock for ROOM and EVENT, "guest" and a random
    32 bit number for USER, and a random 32 bit number for ALIAS. *)
Theorem generate_mxid (sg : Id.sigil) (max : nat) (host : string)
        (rnd : N) (utime : Z * Z) :
  String.length (String (Id.sigil_char sg) (Id.localpart sg rnd utime)) < 64 ->
  String.length (Id.mxid sg (Id.localpart sg rnd utime) host) < max ->
  Id.generate sg max host rnd utime
  = Id.mxid sg (Id.localpart sg rnd utime) host.
Proof.
  intros Hname Hbuf. unfold Id.generate, Id.mxid in *.
  destruct sg; cbn [Id.localpart Id.sigil_char] in *;
    unfold Id.generate_random_prefixed, Id.generate_random_timebased,
           Id.time_based, Id.random_number in *;
    cbn [Id.sigil_char String.append] in *;
    rewrite (snprintf_fits 64) by exact Hname;
    rewrite snprintf_fits by exact Hbuf; reflexivity.
Qed.

Lemma generate_mxid_witness :
  String.length (String (Id.sigil_char Id.EVENT)
                        (Id.localpart Id.EVENT 7%N (1500000000%Z, 42%Z))) < 64 /\
  String.length (Id.mxid Id.EVENT (Id.localpart Id.EVENT 7%N (1500000000%Z, 42%Z))
                         "cdc.z") < 256 /\
  Id.generate Id.EVENT 256 "cdc.z" 7%N (1500000000%Z, 42%Z)
  = Id.mxid Id.EVENT (Id.localpart Id.EVENT 7%N (1500000000%Z, 42%Z)) "cdc.z".
Proof.
  assert (H1 : String.length (String (Id.sigil_char Id.EVENT)
                 (Id.localpart Id.EVENT 7%N (1500000000%Z, 42%Z))) < 64)
    by (vm_compute; lia).
  assert (H2 : String.length (Id.mxid Id.EVENT
                 (Id.localpart Id.EVENT 7%N (1500000000%Z, 42%Z)) "cdc.z") < 256)
    by (vm_compute; lia).
  exact (conj H1 (conj H2
           (generate_mxid Id.EVENT 256 "cdc.z" 7%N (1500000000%Z, 42%Z) H1 H2))).
Defined.

(* no localpart handed in by a caller accounts for the alias ids generated
   as the random source varies *)
Lemma generate_alias_counterexample :
  ~ (exists supplied : string,
       forall (rnd : N) (utime : Z * Z),
         Id.generate Id.ALIAS 256 "cdc.z" rnd utime
         = Id.mxid Id.ALIAS supplied "cdc.z").
Proof.
  intros [supplied H].
  pose proof (H 1%N (0%Z, 0%Z)) as H1.
  pose proof (H 2%N (0%Z, 0%Z)) as H2.
  rewrite <- H2 in H1. vm_compute in H1. discriminate H1.
Qed.
(** ** Seek with offload *)

Section seek_facts.

Variable K : Type.
Variable leb : K -> K -> bool.
Variable keys : list K.

Hypothesis leb_refl : forall k, leb k k = true.
Hypothesis keys_ascending : Db.ascending K leb keys.

Lemma lower_bound_from_own (l : list K) :
  StronglySorted (fun a b => leb b a = false) l ->
  forall i k s, l !! i = Some k -> Db.lower_bound_from K leb k s l = Some (s + i).
Proof.
  induction 1 as [|x l Hsorted IH Hall]; intros i k s Hi; [destruct i; discriminate Hi|].
  cbn [Db.lower_bound_from]. destruct i as [|i].
  - injection Hi as <-. rewrite leb_refl. f_equal. lia.
  - cbn in Hi. rewrite Forall_forall in Hall.
    rewrite (Hall k) by (apply list_elem_of_lookup; eauto).
    rewrite (IH i k (S s) Hi). f_equal. lia.
Qed.

Lemma lower_bound_own (i : nat) (k : K) :
  keys !! i = Some k -> Db.lower_bound K leb keys k = Some i.
Proof.
  intros Hi. unfold Db.lower_bound.
  rewrite (lower_bound_from_own keys keys_ascending i k 0 Hi). reflexivity.
Qed.

Lemma lower_bound_from_range (k : K) (l : list K) :
  forall s j, Db.lower_bound_from K leb k s l = Some j -> j < s + length l.
Proof.
  induction l as [|x l IH]; intros s j H; cbn in H; [discriminate H|].
  destruct (leb k x).
  - injection H as <-. cbn. lia.
  - apply IH in H. cbn. lia.
Qed.

Lemma move_range (p : Db.target K) (i : option nat) (j : nat) :
  (forall i', i = Some i' -> i' < length keys) ->
  Db.move K leb keys p i = Some j -> j < length keys.
Proof.
  intros Hi H. destruct p as [p|k]; [destruct p|]; unfold Db.move in H.
  - unfold Db.front in H. destruct keys; [discriminate H|].
    injection H as <-. cbn. lia.
  - unfold Db.prev in H. destruct i as [[|i]|]; try discriminate H.
    injection H as <-. specialize (Hi _ eq_refl). lia.
  - unfold Db.back, Db.next in H. destruct keys as [|x l]; [discriminate H|].
    destruct (Nat.ltb (S (length (x :: l) - 1)) (length (x :: l))) eqn:Hlt;
      [|discriminate H].
    apply Nat.ltb_lt in Hlt. cbn [length] in Hlt. lia.
  - unfold Db.next in H. destruct i as [i|]; [|discriminate H].
    destruct (Nat.ltb (S i) (length keys)) eqn:Hlt; [|discriminate H].
    apply Nat.ltb_lt in Hlt. injection H as <-. exact Hlt.
  - unfold Db.back in H. destruct keys as [|x l]; [discriminate H|].
    injection H as <-. cbn. lia.
  - unfold Db.lower_bound in H. apply lower_bound_from_range in H. lia.
Qed.

Lemma move_absolute (p : Db.target K) (i j : option nat) :
  Db.relative K p = false -> Db.move K leb keys p i = Db.move K leb keys p j.
Proof. destruct p as [[]|k]; cbn; intros H; try discriminate H; reflexivity. Qed.

(* the blocking iterator ends where a blocking seek from the position of
   the caller's iterator ends *)
Lemma offload_move (keeps : bool) (it : Db.iterator) (p : Db.target K) :
  (forall i, Db.at_index it = Some i -> i < length keys) ->
  (Db.relative K p = true -> Db.valid it = true -> keeps = true) ->
  Db.offload K leb keys (Db._seek_miss keeps it) Db.new_iterator p
  = {| Db.at_index := Db.move K leb keys p (Db.at_index it); Db.state := Db.ok |}.
Proof.
  intros Hrange Hkeeps. unfold Db.offload, Db._seek_miss, Db.valid, Db.key.
  cbn [Db.at_index Db.state].
  destruct (Db.at_index it) as [i|] eqn:Hat.
  - destruct keeps.
    + destruct (lookup_lt_is_Some_2 keys i (Hrange i eq_refl)) as [k Hk].
      rewrite Hk. unfold Db._seek_blocking at 2 3. cbn [Db.at_index Db.move].
      rewrite (lower_bound_own i k Hk). cbn [negb orb].
      unfold Db._seek_blocking. cbn [Db.at_index Db.move].
      rewrite (lower_bound_own i k Hk). reflexivity.
    + cbn [negb orb]. unfold Db._seek_blocking, Db.new_iterator. cbn [Db.at_index].
      destruct (Db.relative K p) eqn:Hrel.
      * unfold Db.valid in Hkeeps. rewrite Hat in Hkeeps.
        specialize (Hkeeps eq_refl eq_refl). discriminate Hkeeps.
      * rewrite (move_absolute p None (Some i) Hrel). reflexivity.
  - destruct keeps; cbn [negb orb]; unfold Db._seek_blocking, Db.new_iterator;
      reflexivity.
Qed.

Lemma seek_blocking_refined (cache : list bool) :
  forall (p : Db.target K) (it : option Db.iterator),
    Db.in_range K keys it ->
    Db.still_valid_on_miss K cache p it ->
    Db.seek K leb keys cache p it = Db.blocking_seek K leb keys p it.
Proof.
  induction cache as [|keeps cache IH]; intros p it Hrange Hcontract.
  - reflexivity.
  - cbn [Db.seek].
    set (it0 := match it with Some it' => it' | None => Db.new_iterator end).
    assert (Hrange0 : forall i, Db.at_index it0 = Some i -> i < length keys).
    { subst it0. destruct it as [it'|]; [|discriminate]. intros i. apply Hrange. reflexivity. }
    assert (Hkeeps : Db.relative K p = true -> Db.valid it0 = true -> keeps = true).
    { subst it0. destruct it as [it'|]; [|discriminate].
      intros Hrel Hv. eapply Hcontract; eauto. }
    rewrite (offload_move keeps it0 p Hrange0 Hkeeps).
    unfold Db.blocking_seek. fold it0. unfold Db._seek_blocking.
    unfold Db.valid, Db.key, Db.error_iterator. cbn [Db.at_index Db.state].
    destruct (Db.move K leb keys p (Db.at_index it0)) as [j|] eqn:Hmove;
      cbn [negb]; [|reflexivity].
    pose proof (move_range p _ j Hrange0 Hmove) as Hj.
    destruct (lookup_lt_is_Some_2 keys j Hj) as [k Hk]. rewrite Hk.
    rewrite IH.
    + unfold Db.blocking_seek, Db._seek_blocking, Db.valid, Db.new_iterator.
      cbn [Db.at_index Db.move]. rewrite (lower_bound_own j k Hk). reflexivity.
    + intros it' i H. discriminate H.
    + intros it' keeps' cache' Hrel. discriminate Hrel.
Qed.

End seek_facts.

(* a seek to a key, or to FRONT, BACK or END, asks nothing of the engine
   about the iterator a miss leaves behind *)
Lemma seek_absolute_refines_blocking
      (K : Type) (leb : K -> K -> bool) (keys : list K)
      (cache : list bool) (p : Db.target K) (it : option Db.iterator) :
  (forall k, leb k k = true) ->
  Db.ascending K leb keys ->
  Db.in_range K keys it ->
  Db.relative K p = false ->
  Db.seek K leb keys cache p it = Db.blocking_seek K leb keys p it.
Proof.
  intros Hrefl Hasc Hrange Habs.
  apply seek_blocking_refined; try assumption.
  intros it' keeps cache' Hrel. congruence.
Qed.

Lemma string_leb_refl (k : string) : String.leb k k = true.
Proof. destruct (String.leb_total k k) as [H|H]; exact H. Qed.

Lemma sample_keys_ascending : Db.ascending string String.leb Db.sample_keys.
Proof.
  unfold Db.ascending, Db.sample_keys.
  repeat (constructor; [|repeat (constructor; [reflexivity|]); constructor]).
  constructor.
Qed.

(** C5. A NEXT whose non-blocking step comes back Incomplete and leaves the
    iterator not valid loses the position of the caller: the offload closure
    copies the position to the blocking iterator only from a valid iterator,
    so what seek returns is the same wherever the iterator of the caller
    stood. From the first of three keys the caller is handed an iterator
    that is not valid, where a blocking NEXT arrives at the second key. *)
Theorem seek_miss_loses_position :
  (forall (K : Type) (leb : K -> K -> bool) (keys : list K) (p : Db.target K)
          (cache : list bool) (it : Db.iterator),
     Db.seek K leb keys (false :: cache) p (Some it)
     = Db.seek K leb keys (false :: cache) p None) /\
  Db.seek string String.leb Db.sample_keys [false] (Db.to_pos Db.NEXT)
          (Some Db.at_first)
  = (false, Db.error_iterator Db.ok) /\
  Db.blocking_seek string String.leb Db.sample_keys (Db.to_pos Db.NEXT)
                   (Some Db.at_first)
  = (true, {| Db.at_index := Some 1; Db.state := Db.ok |}) /\
  Db.seek string String.leb Db.sample_keys [false] (Db.to_pos Db.NEXT)
          (Some Db.at_first)
  <> Db.blocking_seek string String.leb Db.sample_keys (Db.to_pos Db.NEXT)
                      (Some Db.at_first).
Proof.
  split; [intros K leb keys p cache it; reflexivity|].
  repeat split; vm_compute; try reflexivity. discriminate.
Qed.

(** ** Event insertion and room membership *)

Lemma txn_batch_puts (txn : list Room.delta) :
  Room.txn_batch txn = (fun d => Db.Put (fst (fst d)) (snd (fst d)) (snd d)) <$> txn.
Proof.
  unfold Room.txn_batch.
  assert (H : forall acc,
             foldl (fun batch '(c, k, v) =>
                      Db.append Json.value batch c (Db.SET, k, v)) acc txn
             = acc ++ ((fun d => Db.Put (fst (fst d)) (snd (fst d)) (snd d)) <$> txn)).
  { induction txn as [|[[c k] v] txn IH]; intros acc; cbn.
    - rewrite app_nil_r. reflexivity.
    - rewrite IH, <- app_assoc. reflexivity. }
  apply (H []).
Qed.

Lemma insert_txn_rows (e : event) (i : Room.iov) :
  Room.insert_txn e i
  = ((fun m => (fst m, Sv.str (event_id e), snd m)) <$> i)
    ++ ((fun ix => Room.index_row ix e) <$> Room.indexers).
Proof.
  unfold Room.insert_txn, Room.append_indexes, Room.txn_append, Room.indexers.
  cbn [foldl fmap list_fmap app]. rewrite <- !app_assoc. reflexivity.
Qed.




(* an engine that reports corruption at the commit leaves no cell of the
   join event behind *)
Lemma insert_commit_error_example :
  Room.join 256 ∅ Room.ircd_room Room.ircd_user [] (Room.at_time 1500000000)
            (Some (db_error "Corruption: block checksum mismatch"))
  = (∅, Throw (db_error "Corruption: block checksum mismatch")).
Proof. vm_compute. reflexivity. Qed.

(* a membership that is_member finds on record is not sent again *)
Lemma membership_already_member (buf : nat) (d : Room.database)
      (room user : string) (content : Room.iov) (v : Json.value)
      (t : Room.clock) (error : option exception) :
  Json.get content "membership" = Some v ->
  Room.is_member d room user (Room.text v) = true ->
  exists what,
    Room.membership buf d room user content t error = (d, Throw (ALREADY_MEMBER what)).
Proof.
  intros Hget Hmember. unfold Room.membership. rewrite Hget, Hmember.
  eexists. reflexivity.
Qed.

(** C10. After the ircd user has joined and then left the ircd room, its
    member state in the room is leave; leaving again is not refused but
    sends a second leave event, and joining is refused with
    ALREADY_MEMBER: is_member compares with the first member event the
    cursor finds, the join. *)
Theorem membership_compares_first_event :
  Room.member_state Room.db_stopped Room.ircd_room Room.ircd_user = Some "leave" /\
  Room.is_member Room.db_stopped Room.ircd_room Room.ircd_user "leave" = false /\
  Room.is_member Room.db_stopped Room.ircd_room Room.ircd_user "join" = true /\
  (exists e,
     snd (Room.leave 256 Room.db_stopped Room.ircd_room Room.ircd_user []
                     (Room.at_time 1500000200) None) = Ok e /\
     Event.membership e = Some "leave" /\
     state_key e = Some Room.ircd_user) /\
  snd (Room.join 256 Room.db_stopped Room.ircd_room Room.ircd_user []
                 (Room.at_time 1500000200) None)
  = Throw (ALREADY_MEMBER "Member '@ircd:cdc.z' is already 'join'.").
Proof.
  split; [vm_compute; reflexivity|].
  split; [vm_compute; reflexivity|].
  split; [vm_compute; reflexivity|].
  split; [|vm_compute; reflexivity].
  eexists. split; [vm_compute; reflexivity|].
  split; vm_compute; reflexivity.
Qed.

(** ** More on the auth rules *)

(* what a pass of rule 2 says of every auth event *)
Lemma rule_2_loop_ok (e : event) (all rest : list event) (i : nat) :
  rule_2_loop e all i rest = Ok tt ->
  forall k a, rest !! k = Some a ->
    rule_2_duplicate a (i + k) 0 all = false /\
    Sv.str (room_id a) = Sv.str (room_id e) /\
    rule_2_selector e a = true.
Proof.
  revert i. induction rest as [|b rest IH]; intros i H k a Hk;
    [destruct k; discriminate Hk|].
  cbn [rule_2_loop] in H.
  destruct (rule_2_duplicate b i 0 all) eqn:Hdup; [discriminate H|].
  destruct (room_id b) as [rb|] eqn:Erb; [|discriminate H].
  destruct (room_id e) as [re|] eqn:Ere; [|discriminate H].
  cbn [Sv.at_ mbind result_bind] in H.
  destruct (String.eqb rb re) eqn:Hroom; cbn [negb] in H; [|discriminate H].
  apply String.eqb_eq in Hroom.
  destruct (rule_2_selector e b) eqn:Hsel; [|discriminate H].
  destruct k as [|k].
  - injection Hk as <-. rewrite Nat.add_0_r, Erb. cbn. auto.
  - replace (i + S k) with (S i + k) by lia. apply (IH (S i) H k a Hk).
Qed.

Lemma find_lookup (evs : list event) (f : event -> bool) (a : event) :
  Auth.find evs f = Some a ->
  exists j, evs !! j = Some a /\ f a = true.
Proof.
  unfold Auth.find. intros H. apply find_some in H as [Hin Hf].
  apply list_elem_of_In, list_elem_of_lookup in Hin as [j Hj]. eauto.
Qed.

Lemma find_none_all (evs : list event) (f : event -> bool) :
  Auth.find evs f = None -> forall a, a ∈ evs -> f a = false.
Proof.
  unfold Auth.find. intros H a Ha. apply (find_none f evs H).
  apply list_elem_of_In. exact Ha.
Qed.

(** X1. Once rule 2 has passed, the member event of the sender that rule 6
    reads is the only one in the auth events: hookdata finds every member
    event of the sender, wherever it stands in the list. *)
Theorem rule_2_member_sender_unique (e : event) (evs : list event) (a : event) :
  check_room_auth_rule_2 e (make_hookdata e evs) = Ok tt ->
  a ∈ evs ->
  member_of a (sender e) ->
  auth_member_sender (make_hookdata e evs) = Some a.
Proof.
  intros Hrule Ha [Hty Hsk]. cbn [make_hookdata auth_member_sender].
  apply list_elem_of_lookup in Ha as [i Hi].
  set (f := fun a0 : event => Sv.is_lit (type a0) "m.room.member"
                              && Sv.eq (state_key a0) (sender e)).
  assert (Hfa : f a = true).
  { unfold f. apply andb_true_iff. split; [apply is_lit_true|apply sv_eq_true]; assumption. }
  destruct (Auth.find evs f) as [a'|] eqn:Hfind.
  2:{ pose proof (find_none_all evs f Hfind a
                    ltac:(apply list_elem_of_lookup; eauto)) as Hn.
      congruence. }
  f_equal. apply find_lookup in Hfind as (j & Hj & Hfa').
  unfold f in Hfa'. apply andb_true_iff in Hfa' as [Hty' Hsk']. sv_tests.
  destruct (decide (i = j)) as [->|Hne]; [congruence|].
  unfold check_room_auth_rule_2 in Hrule. cbn [auth_events make_hookdata] in Hrule.
  destruct (rule_2_loop_ok e evs evs 0 Hrule i a Hi) as (Hdup & _ & _).
  cbn in Hdup.
  assert (Htrue : rule_2_duplicate a i 0 evs = true).
  { apply rule_2_duplicate_iff. exists j, a'. split; [exact Hj|].
    split; [cbn; exact Hne|]. split; congruence. }
  congruence.
Qed.

Lemma rule_2_member_sender_unique_witness :
  check_room_auth_rule_2 ev_message_alice
    (make_hookdata ev_message_alice [ev_create; ev_join_alice]) = Ok tt /\
  ev_join_alice ∈ [ev_create; ev_join_alice] /\
  member_of ev_join_alice (sender ev_message_alice) /\
  auth_member_sender (make_hookdata ev_message_alice [ev_create; ev_join_alice])
  = Some ev_join_alice.
Proof.
  assert (H1 : check_room_auth_rule_2 ev_message_alice
                 (make_hookdata ev_message_alice [ev_create; ev_join_alice]) = Ok tt)
    by reflexivity.
  assert (H2 : ev_join_alice ∈ [ev_create; ev_join_alice])
    by (right; left).
  assert (H3 : member_of ev_join_alice (sender ev_message_alice))
    by (split; reflexivity).
  exact (conj H1 (conj H2 (conj H3
           (rule_2_member_sender_unique ev_message_alice
              [ev_create; ev_join_alice] ev_join_alice H1 H2 H3)))).
Defined.

(** X2. An auth set without an m.room.create event never lets an event of
    another type in: whatever the hook handlers and the power levels say,
    the check rejects the event or throws. *)
Theorem check_without_create_never_allows
        (room_auth_hook : event -> hookdata -> result hookdata)
        (power : event -> event -> string -> string -> string ->
                 Sv.string_view -> bool)
        (e : event) (evs : list event) (pf : passfail) :
  Sv.str (type e) <> "m.room.create" ->
  (forall a, a ∈ evs -> Sv.str (type a) <> "m.room.create") ->
  check room_auth_hook power e (make_hookdata e evs) = Ok pf ->
  fst pf = false /\ exists what, snd pf = Some (FAIL what).
Proof.
  intros Hty Hevs Hcheck. apply is_lit_false in Hty.
  unfold check, check_try in Hcheck. rewrite Hty in Hcheck.
  assert (Hcreate : auth_create (make_hookdata e evs) = None).
  { cbn [make_hookdata auth_create].
    destruct (Auth.find evs _) as [a|] eqn:Hfind; [|reflexivity].
    apply find_lookup in Hfind as (j & Hj & Hf). apply is_lit_true in Hf.
    exfalso. apply (Hevs a); [apply list_elem_of_lookup; eauto|exact Hf]. }
  destruct (check_room_auth_rule_2 e (make_hookdata e evs)) as [[]|ex] eqn:H2.
  - cbn [mbind result_bind] in Hcheck.
    unfold check_room_auth_rule_3 in Hcheck. rewrite Hcreate in Hcheck.
    cbn in Hcheck. injection Hcheck as <-. cbn. eauto.
  - cbn [mbind result_bind catch_FAIL] in Hcheck.
    destruct ex; try discriminate Hcheck.
    injection Hcheck as <-. cbn. eauto.
Qed.

Lemma check_without_create_never_allows_witness :
  Sv.str (type ev_message_alice) <> "m.room.create" /\
  (forall a, a ∈ [ev_join_alice] -> Sv.str (type a) <> "m.room.create") /\
  check hook_pass power_all ev_message_alice
        (make_hookdata ev_message_alice [ev_join_alice])
  = Ok (false, Some (FAIL "Missing m.room.create in auth_events.")) /\
  fst (false, Some (FAIL "Missing m.room.create in auth_events.")) = false /\
  exists what, snd (false, Some (FAIL "Missing m.room.create in auth_events."))
               = Some (FAIL what).
Proof.
  assert (H1 : Sv.str (type ev_message_alice) <> "m.room.create") by discriminate.
  assert (H2 : forall a, a ∈ [ev_join_alice] -> Sv.str (type a) <> "m.room.create").
  { intros a Ha. apply list_elem_of_singleton in Ha. subst a. discriminate. }
  assert (H3 : check hook_pass power_all ev_message_alice
                 (make_hookdata ev_message_alice [ev_join_alice])
               = Ok (false, Some (FAIL "Missing m.room.create in auth_events.")))
    by reflexivity.
  exact (conj H1 (conj H2 (conj H3
           (check_without_create_never_allows hook_pass power_all
              ev_message_alice [ev_join_alice] _ H1 H2 H3)))).
Defined.

(** ** The selection of auth events *)

Lemma rule_2_loop_ok_or_rejects (e : event) (all rest : list event) (i : nat) :
  Sv.defined (room_id e) = true ->
  (forall a, a ∈ rest -> Sv.defined (room_id a) = true) ->
  rule_2_loop e all i rest = Ok tt \/ rejects (rule_2_loop e all i rest).
Proof.
  intros He. revert i. induction rest as [|a rest IH]; intros i Hrest; [left; reflexivity|].
  assert (Ha : Sv.defined (room_id a) = true) by (apply Hrest; left).
  destruct (room_id a) as [ra|] eqn:Era; [|discriminate Ha].
  destruct (room_id e) as [re|] eqn:Ere; [|discriminate He].
  cbn [rule_2_loop]. rewrite Era, Ere. cbn [Sv.at_ mbind result_bind].
  destruct (rule_2_duplicate a i 0 all); [right; eexists; reflexivity|].
  destruct (negb (String.eqb ra re)); [right; eexists; reflexivity|].
  destruct (rule_2_selector e a); [|right; eexists; reflexivity].
  apply IH. intros b Hb. apply Hrest. right. exact Hb.
Qed.

Section generate_facts.

Variable version : string.
Variable state_get : string -> Sv.string_view -> option string.
Variable user_id_error : string -> option exception.
Variable valid_user : string -> bool.

Local Abbreviation generate := (Auth.generate version state_get user_id_error valid_user).
Local Abbreviation state_append := (Auth.state_append version state_get).
Local Abbreviation append_cells := (Auth.append_cells version state_get).

Lemma state_append_length (out : list Json.value) (ty : string) (sk : Sv.string_view) :
  length (state_append out ty sk) <= S (length out).
Proof.
  unfold Auth.state_append, Auth.fetch_append.
  destruct (state_get ty sk); [|lia].
  destruct (String.eqb version "1" || String.eqb version "2");
    rewrite length_app; cbn; lia.
Qed.

(* the cells the selection asks the state for, case by case *)
Lemma generate_cells (e : event) (out : list Json.value) :
  generate e = Ok (true, out) ->
  exists cells,
    out = append_cells [] cells /\
    NoDup ((fun c => (fst c, Sv.str (snd c))) <$> cells) /\
    (forall c, c ∈ cells -> selector_cell e c) /\
    length cells <= 5 /\
    (Sv.str (type e) <> "m.room.member" -> length cells <= 4).
Proof.
  unfold Auth.generate. intros H.
  destruct (Sv.empty (type e)); [discriminate H|].
  destruct (Sv.is_lit (type e) "m.room.create"); [discriminate H|].
  set (join := Sv.is_lit (type e) "m.room.member"
               && (Sv.empty (membership e) || Sv.is_lit (membership e) "join"
                   || Sv.is_lit (membership e) "invite")) in H.
  assert (Hjoin : join = true -> Sv.str (type e) = "m.room.member").
  { subst join. intros Hj. apply andb_true_iff in Hj as [Hj _].
    apply is_lit_true in Hj. exact Hj. }
  set (target := negb (Sv.empty (sender e)) && negb (Sv.empty (state_key e))
                 && negb (Sv.eq (sender e) (state_key e))
                 && valid_user (Sv.str (state_key e))) in H.
  assert (Htarget : target = true ->
            Sv.str (sender e) <> "" /\ Sv.str (state_key e) <> "" /\
            Sv.str (sender e) <> Sv.str (state_key e)).
  { subst target. intros Ht.
    apply andb_true_iff in Ht as [Ht _]. apply andb_true_iff in Ht as [Ht H3].
    apply andb_true_iff in Ht as [H1 H2].
    apply negb_true_iff in H1, H2, H3. sv_tests. auto. }
  destruct (sender e) as [s|] eqn:Es.
  - destruct (user_id_error s); [discriminate H|].
    cbn [mbind result_bind] in H. cbn [Sv.str default] in Htarget.
    destruct (String.eqb s "") eqn:Hs; cbn [negb] in H.
    + apply String.eqb_eq in Hs. subst s.
      destruct target; [destruct (Htarget eq_refl) as [Hne _]; contradiction|].
      cbn [String.eqb negb] in H. injection H as <-.
      destruct join.
      * exists [("m.room.create", Some ""); ("m.room.power_levels", Some "");
                ("m.room.join_rules", Some "")].
        split; [reflexivity|]. split.
        { cbn. repeat (constructor; [set_solver|]). constructor. }
        split; [|cbn; split; [lia|intros; lia]].
        intros c Hc. unfold selector_cell.
        apply list_elem_of_In in Hc. cbn in Hc.
        destruct Hc as [<-|[<-|[<-|[]]]]; unfold selector_cell; cbn; auto 10.
      * exists [("m.room.create", Some ""); ("m.room.power_levels", Some "")].
        split; [reflexivity|]. split.
        { cbn. repeat (constructor; [set_solver|]). constructor. }
        split; [|cbn; split; [lia|intros; lia]].
        intros c Hc. unfold selector_cell.
        apply list_elem_of_In in Hc. cbn in Hc.
        destruct Hc as [<-|[<-|[]]]; unfold selector_cell; cbn; auto 10.
    + apply String.eqb_neq in Hs.
      destruct target eqn:Et.
      * destruct (Htarget eq_refl) as (_ & Hk & Hne).
        destruct (String.eqb (Sv.str (state_key e)) "") eqn:Hk';
          [apply String.eqb_eq in Hk'; contradiction|].
        cbn [negb] in H. injection H as <-.
        destruct join eqn:Ej.
        -- exists [("m.room.create", Some ""); ("m.room.power_levels", Some "");
                   ("m.room.join_rules", Some ""); ("m.room.member", Some s);
                   ("m.room.member", Some (Sv.str (state_key e)))].
           split; [reflexivity|]. split.
           { cbn. repeat (constructor; [set_solver|]). constructor. }
           split; [|cbn; split; [lia|intros Hm; destruct (Hm (Hjoin eq_refl))]].
           intros c Hc. unfold selector_cell.
           apply list_elem_of_In in Hc. cbn in Hc.
           destruct Hc as [<-|[<-|[<-|[<-|[<-|[]]]]]]; unfold selector_cell; rewrite ?Es; cbn; auto 10.
        -- exists [("m.room.create", Some ""); ("m.room.power_levels", Some "");
                   ("m.room.member", Some s);
                   ("m.room.member", Some (Sv.str (state_key e)))].
           split; [reflexivity|]. split.
           { cbn. repeat (constructor; [set_solver|]). constructor. }
           split; [|cbn; split; [lia|intros; lia]].
           intros c Hc. unfold selector_cell.
           apply list_elem_of_In in Hc. cbn in Hc.
           destruct Hc as [<-|[<-|[<-|[<-|[]]]]]; unfold selector_cell; rewrite ?Es; cbn; auto 10.
      * cbn [String.eqb negb] in H. injection H as <-.
        destruct join eqn:Ej.
        -- exists [("m.room.create", Some ""); ("m.room.power_levels", Some "");
                   ("m.room.join_rules", Some ""); ("m.room.member", Some s)].
           split; [reflexivity|]. split.
           { cbn. repeat (constructor; [set_solver|]). constructor. }
           split; [|cbn; split; [lia|intros; lia]].
           intros c Hc. unfold selector_cell.
           apply list_elem_of_In in Hc. cbn in Hc.
           destruct Hc as [<-|[<-|[<-|[<-|[]]]]]; unfold selector_cell; rewrite ?Es; cbn; auto 10.
        -- exists [("m.room.create", Some ""); ("m.room.power_levels", Some "");
                   ("m.room.member", Some s)].
           split; [reflexivity|]. split.
           { cbn. repeat (constructor; [set_solver|]). constructor. }
           split; [|cbn; split; [lia|intros; lia]].
           intros c Hc. unfold selector_cell.
           apply list_elem_of_In in Hc. cbn in Hc.
           destruct Hc as [<-|[<-|[<-|[]]]]; unfold selector_cell; rewrite ?Es; cbn; auto 10.
  - cbn [mbind result_bind String.eqb negb] in H.
    destruct target; [destruct (Htarget eq_refl) as [Hne _]; contradiction|].
    cbn [String.eqb negb] in H. injection H as <-.
    destruct join.
    + exists [("m.room.create", Some ""); ("m.room.power_levels", Some "");
              ("m.room.join_rules", Some "")].
      split; [reflexivity|]. split.
      { cbn. repeat (constructor; [set_solver|]). constructor. }
      split; [|cbn; split; [lia|intros; lia]].
      intros c Hc. unfold selector_cell.
      apply list_elem_of_In in Hc. cbn in Hc.
      destruct Hc as [<-|[<-|[<-|[]]]]; unfold selector_cell; cbn; auto 10.
    + exists [("m.room.create", Some ""); ("m.room.power_levels", Some "")].
      split; [reflexivity|]. split.
      { cbn. repeat (constructor; [set_solver|]). constructor. }
      split; [|cbn; split; [lia|intros; lia]].
      intros c Hc. unfold selector_cell.
      apply list_elem_of_In in Hc. cbn in Hc.
      destruct Hc as [<-|[<-|[]]]; unfold selector_cell; cbn; auto 10.
Qed.


Lemma referenced_state_append (lookup : string -> option event)
      (out : list Json.value) (ty : string) (sk : Sv.string_view) :
  referenced_events lookup (state_append out ty sk) =
  referenced_events lookup out ++
  match state_get ty sk ≫= lookup with Some a => [a] | None => [] end.
Proof.
  unfold Auth.state_append, Auth.fetch_append, referenced_events.
  destruct (state_get ty sk) as [id|]; cbn [mbind option_bind];
    [|rewrite app_nil_r; reflexivity].
  destruct (String.eqb version "1" || String.eqb version "2");
    rewrite omap_app; cbn; destruct (lookup id); reflexivity.
Qed.

Lemma referenced_append_cells (lookup : string -> option event)
      (cells : list (string * Sv.string_view)) (out : list Json.value) :
  referenced_events lookup (append_cells out cells) =
  referenced_events lookup out ++
  omap (fun c => state_get (fst c) (snd c) ≫= lookup) cells.
Proof.
  revert out. induction cells as [|c cells IH]; intros out.
  - cbn. rewrite app_nil_r. reflexivity.
  - change (append_cells out (c :: cells))
      with (append_cells (state_append out (fst c) (snd c)) cells).
    rewrite IH, referenced_state_append, <- app_assoc. f_equal.
    cbn [omap list_omap].
    destruct (state_get (fst c) (snd c) ≫= lookup); reflexivity.
Qed.

Lemma omap_cells_sublist {A B C : Type} (g : A -> option B) (h : A -> C)
      (k : B -> C) (l : list A) :
  (forall c a, g c = Some a -> k a = h c) ->
  (k <$> omap g l) `sublist_of` (h <$> l).
Proof.
  intros Hg. induction l as [|c l IH]; cbn; [constructor|].
  destruct (g c) as [a|] eqn:Ea; cbn.
  - rewrite (Hg c a Ea). constructor. exact IH.
  - constructor. exact IH.
Qed.

Lemma elem_of_omap_cells {A B : Type} (g : A -> option B) (l : list A) (a : B) :
  a ∈ omap g l -> exists c, c ∈ l /\ g c = Some a.
Proof.
  intros H. apply list_elem_of_omap in H. exact H.
Qed.

(** X3. The references room::auth::generate selects from the state of the
    event's room pass rule 2 of the check: the events they name have no
    duplicate (type, state_key), are in the event's room and are all
    selectors. *)
Theorem generate_passes_rule_2 (e : event) (lookup : string -> option event)
        (out : list Json.value) :
  Sv.defined (room_id e) = true ->
  state_of_room e state_get lookup ->
  generate e = Ok (true, out) ->
  check_room_auth_rule_2 e (make_hookdata e (referenced_events lookup out))
  = Ok tt.
Proof.
  intros He Hst Hgen.
  destruct (generate_cells e out Hgen) as (cells & -> & Hnd & Hsel & _).
  rewrite referenced_append_cells. cbn [referenced_events omap app].
  set (g := fun c : string * Sv.string_view => state_get (fst c) (snd c) ≫= lookup).
  assert (Hg : forall c a, g c = Some a ->
            cell_of a = (fst c, Sv.str (snd c)) /\ room_id a = room_id e).
  { intros [ty sk] a. unfold g. cbn [fst snd].
    destruct (state_get ty sk) as [id|] eqn:Eid; [|discriminate].
    cbn [mbind option_bind]. intros Ha.
    destruct (Hst ty sk id Eid) as (a' & Ha' & Hty & Hsk & Hroom).
    rewrite Ha in Ha'. injection Ha' as <-.
    unfold cell_of. rewrite Hty, Hsk. auto. }
  set (evs := omap g cells).
  assert (Hcells : NoDup (cell_of <$> evs)).
  { eapply sublist_NoDup; [exact Hnd|].
    apply omap_cells_sublist. intros c a Ha. apply (Hg c a Ha). }
  assert (Hin : forall a, a ∈ evs -> exists c, c ∈ cells /\ g c = Some a).
  { intros a Ha. apply elem_of_omap_cells. exact Ha. }
  assert (Hrooms : forall a, a ∈ evs -> Sv.defined (room_id a) = true).
  { intros a Ha. destruct (Hin a Ha) as (c & _ & Hc).
    destruct (Hg c a Hc) as [_ ->]. exact He. }
  unfold check_room_auth_rule_2. cbn [auth_events make_hookdata].
  destruct (rule_2_loop_ok_or_rejects e evs evs 0 He Hrooms) as [Hok|Hrej];
    [exact Hok|exfalso].
  apply (rule_2_loop_rejects e evs evs 0 He Hrooms) in Hrej.
  destruct Hrej as (k & a & Hk & [Hdup|[Hroom|Hnsel]]).
  - apply rule_2_duplicate_iff in Hdup as (j & b & Hj & Hne & Hty & Hsk).
    cbn in Hne.
    assert (Hab : cell_of a = cell_of b) by (unfold cell_of; congruence).
    apply Hne. symmetry.
    eapply (NoDup_lookup _ j k (cell_of a) Hcells);
      rewrite list_lookup_fmap.
    + rewrite Hj. cbn. congruence.
    + rewrite Hk. reflexivity.
  - apply Hroom. apply list_elem_of_lookup_2 in Hk.
    destruct (Hin a Hk) as (c & _ & Hc). destruct (Hg c a Hc) as [_ ->].
    reflexivity.
  - apply list_elem_of_lookup_2 in Hk.
    destruct (Hin a Hk) as (c & Hc & Ha). destruct (Hg c a Ha) as [Hcell _].
    apply rule_2_selector_not in Hnsel. apply Hnsel.
    unfold cell_of in Hcell. injection Hcell as Hty Hsk.
    unfold selector, member_of. rewrite Hty, Hsk.
    destruct (Hsel c Hc) as [H|[H|[H|[H [H'|H']]]]]; auto 10.
Qed.

Lemma append_cells_length (cells : list (string * Sv.string_view))
      (out : list Json.value) :
  length (append_cells out cells) <= length out + length cells.
Proof.
  revert out. induction cells as [|c cells IH]; intros out; [cbn; lia|].
  change (append_cells out (c :: cells))
    with (append_cells (state_append out (fst c) (snd c)) cells).
  specialize (IH (state_append out (fst c) (snd c))).
  pose proof (state_append_length out (fst c) (snd c)). cbn [length]. lia.
Qed.

(* a reference in the dialect of the room version *)
Lemma append_cells_elem (cells : list (string * Sv.string_view))
      (out : list Json.value) (v : Json.value) :
  v ∈ append_cells out cells ->
  v ∈ out \/
  exists c id, c ∈ cells /\ state_get (fst c) (snd c) = Some id /\
               v = if String.eqb version "1" || String.eqb version "2"
                   then Json.Array [Json.String_ id;
                                    Json.Object [("", Json.String_ "")]]
                   else Json.String_ id.
Proof.
  revert out. induction cells as [|c cells IH]; intros out; [left; assumption|].
  change (append_cells out (c :: cells))
    with (append_cells (state_append out (fst c) (snd c)) cells).
  intros Hv. destruct (IH _ Hv) as [Hin|(c' & id & Hc' & Hid & ->)].
  - unfold Auth.state_append, Auth.fetch_append in Hin.
    destruct (state_get (fst c) (snd c)) as [id|] eqn:Eid; [|left; exact Hin].
    assert (Hin' : v ∈ out \/
              v = if String.eqb version "1" || String.eqb version "2"
                  then Json.Array [Json.String_ id;
                                   Json.Object [("", Json.String_ "")]]
                  else Json.String_ id).
    { destruct (String.eqb version "1" || String.eqb version "2");
        apply elem_of_app in Hin as [Hin|Hin]; auto;
        apply list_elem_of_singleton in Hin; auto. }
    destruct Hin' as [Hin'| ->]; [left; exact Hin'|].
    right. exists c, id. split; [left|]. auto.
  - right. exists c', id. split; [right; exact Hc'|]. auto.
Qed.

(** X4. Every reference room::auth::generate appends is the event id the
    state holds at one of the selector cells of the event (create,
    power_levels, join_rules, the member cell of the sender or of the
    state_key), written as [event_id, {"": ""}] in room versions 1 and 2 and
    as the bare event id in every other version. *)
Theorem generate_references (e : event) (ok : bool) (out : list Json.value)
        (v : Json.value) :
  generate e = Ok (ok, out) -> v ∈ out ->
  exists c id, selector_cell e c /\ state_get (fst c) (snd c) = Some id /\
               v = if String.eqb version "1" || String.eqb version "2"
                   then Json.Array [Json.String_ id;
                                    Json.Object [("", Json.String_ "")]]
                   else Json.String_ id.
Proof.
  intros Hgen Hv. destruct ok.
  - destruct (generate_cells e out Hgen) as (cells & -> & _ & Hsel & _).
    apply append_cells_elem in Hv as [Hv|(c & id & Hc & Hid & ->)];
      [inversion Hv|].
    exists c, id. auto.
  - unfold Auth.generate in Hgen.
    destruct (Sv.empty (type e));
      [injection Hgen as <-; inversion Hv|].
    destruct (Sv.is_lit (type e) "m.room.create");
      [injection Hgen as <-; inversion Hv|].
    destruct (sender e) as [s|]; [destruct (user_id_error s)|];
      discriminate Hgen.
Qed.

(** X5. room::auth::generate returns false, with nothing appended, exactly
    for an event without a type and for an m.room.create event; for every
    other event it returns true with at most five references, and at most
    four when the event is not an m.room.member event. *)
Theorem generate_bounds (e : event) (ok : bool) (out : list Json.value) :
  generate e = Ok (ok, out) ->
  (ok = false <->
   Sv.str (type e) = "" \/ Sv.str (type e) = "m.room.create") /\
  (ok = false -> out = []) /\
  length out <= 5 /\
  (Sv.str (type e) <> "m.room.member" -> length out <= 4).
Proof.
  intros Hgen. destruct ok.
  - destruct (generate_cells e out Hgen) as (cells & -> & _ & _ & H5 & H4).
    pose proof (append_cells_length cells []) as Hlen. cbn [length] in Hlen.
    repeat split; try discriminate; try lia.
    + intros Hty. exfalso. unfold Auth.generate in Hgen.
      destruct (Sv.empty (type e)) eqn:E1; [discriminate Hgen|].
      destruct (Sv.is_lit (type e) "m.room.create") eqn:E2; [discriminate Hgen|].
      sv_tests. destruct Hty; contradiction.
    + intros Hm. specialize (H4 Hm). lia.
  - unfold Auth.generate in Hgen.
    destruct (Sv.empty (type e)) eqn:E1.
    { injection Hgen as <-. sv_tests. cbn. repeat split; auto; lia. }
    destruct (Sv.is_lit (type e) "m.room.create") eqn:E2.
    { injection Hgen as <-. sv_tests. cbn. repeat split; auto; lia. }
    destruct (sender e) as [s|]; [destruct (user_id_error s)|];
      discriminate Hgen.
Qed.

End generate_facts.

Lemma sample_state_of_room :
  state_of_room ev_message_alice sample_state_get sample_lookup.
Proof.
  intros ty sk id. unfold sample_state_get.
  destruct (String.eqb ty "m.room.create" && Sv.is_lit sk "") eqn:H1.
  - apply andb_true_iff in H1 as [Ht Hs]. apply String.eqb_eq in Ht.
    apply is_lit_true in Hs. intros [= <-]. exists ev_create. subst ty.
    rewrite Hs. repeat split.
  - destruct (String.eqb ty "m.room.member" && Sv.is_lit sk "@alice:x") eqn:H2;
      [|discriminate].
    apply andb_true_iff in H2 as [Ht Hs]. apply String.eqb_eq in Ht.
    apply is_lit_true in Hs. intros [= <-]. exists ev_join_alice. subst ty.
    rewrite Hs. repeat split.
Qed.

Lemma generate_passes_rule_2_witness :
  Sv.defined (room_id ev_message_alice) = true /\
  (Auth.generate "1" sample_state_get (fun _ => None) (fun _ => true)
                 ev_message_alice
   = Ok (true, [Json.Array [Json.String_ "$1:x";
                            Json.Object [("", Json.String_ "")]];
                Json.Array [Json.String_ "$2:x";
                            Json.Object [("", Json.String_ "")]]])) /\
  (check_room_auth_rule_2 ev_message_alice
     (make_hookdata ev_message_alice [ev_create; ev_join_alice]) = Ok tt).
Proof.
  split; [reflexivity|]. split; [reflexivity|].
  exact (generate_passes_rule_2 "1" sample_state_get (fun _ => None)
           (fun _ => true) ev_message_alice sample_lookup _
           eq_refl sample_state_of_room eq_refl).
Defined.

Lemma generate_references_witness :
  exists c id,
    selector_cell ev_message_alice c /\
    sample_state_get (fst c) (snd c) = Some id /\
    Json.String_ "$2:x" = Json.String_ id.
Proof.
  exact (generate_references "4" sample_state_get (fun _ => None)
           (fun _ => true) ev_message_alice true
           [Json.String_ "$1:x"; Json.String_ "$2:x"] (Json.String_ "$2:x")
           eq_refl (list_elem_of_further _ _ _ (list_elem_of_here _ _))).
Defined.

Lemma generate_bounds_witness :
  (true = false <->
   Sv.str (type ev_message_alice) = "" \/
   Sv.str (type ev_message_alice) = "m.room.create") /\
  (true = false -> [Json.String_ "$1:x"; Json.String_ "$2:x"] = []) /\
  2 <= 5 /\
  (Sv.str (type ev_message_alice) <> "m.room.member" -> 2 <= 4).
Proof.
  exact (generate_bounds "4" sample_state_get (fun _ => None)
           (fun _ => true) ev_message_alice true
           [Json.String_ "$1:x"; Json.String_ "$2:x"] eq_refl).
Defined.

(** ** Queries on the auth chain and on the forward references *)

Section chain_query_facts.

Variable index : string -> N.
Variable events : gmap N event.

Lemma chain_visit_count (idxs : list N) (n : nat) :
  chain_visit (fun (_ : N) ret => (true, S ret)) idxs n
  = (true, length idxs + n, idxs).
Proof.
  revert n. induction idxs as [|idx idxs IH]; intros n; cbn; [reflexivity|].
  rewrite IH. repeat f_equal. lia.
Qed.

Lemma chain_visit_has (ty : string) (idxs : list N) :
  snd (fst (chain_visit
              (fun idx ret =>
                 let ret := match get_type_of events idx with
                            | Some value => String.eqb value ty
                            | None => ret
                            end in
                 (negb ret, ret)) idxs false)) = true <->
  exists idx, idx ∈ idxs /\ get_type_of events idx = Some ty.
Proof.
  induction idxs as [|idx idxs IH]; cbn.
  - split; [discriminate|]. intros (idx & Hin & _). inversion Hin.
  - destruct (get_type_of events idx) as [value|] eqn:Ety.
    + destruct (String.eqb value ty) eqn:Heq; cbn.
      * apply String.eqb_eq in Heq. subst value. split; [intros _|reflexivity].
        exists idx. split; [left|exact Ety].
      * apply String.eqb_neq in Heq.
        match goal with
        | |- context [chain_visit ?f idxs false] =>
            destruct (chain_visit f idxs false) as [[ret s'] calls] eqn:Hrec
        end.
        cbn in IH |- *. rewrite IH. split.
        -- intros (y & Hy & Hty). exists y. split; [right; exact Hy|exact Hty].
        -- intros (y & Hy & Hty). apply elem_of_cons in Hy as [->|Hy].
           ++ rewrite Ety in Hty. injection Hty as ->. contradiction.
           ++ exists y. auto.
    + cbn.
      match goal with
      | |- context [chain_visit ?f idxs false] =>
          destruct (chain_visit f idxs false) as [[ret s'] calls] eqn:Hrec
      end.
      cbn in IH |- *. rewrite IH. split.
      * intros (y & Hy & Hty). exists y. split; [right; exact Hy|exact Hty].
      * intros (y & Hy & Hty). apply elem_of_cons in Hy as [->|Hy].
        -- rewrite Ety in Hty. discriminate Hty.
        -- exists y. auto.
Qed.

Lemma chain_loop_reachable (c_idx : N) (fuel : nat) :
  size (referenced index events) < fuel ->
  exists ae, chain_loop index events fuel c_idx [] ∅ = Some ae /\
             forall y, y ∈ ae <-> tc (followed index events) c_idx y.
Proof.
  intros Hfuel.
  destruct (chain_loop_total index events c_idx fuel c_idx [] ∅
              (chain_inv_init index events c_idx))
    as (ae & Hloop & Hinv).
  { rewrite difference_empty_L. cbn. lia. }
  exists ae. split; [exact Hloop|].
  apply (chain_inv_done index events c_idx ae Hinv).
Qed.

(** X6. Given fuel for more turns than there are referenced indexes,
    room::auth::chain::depth returns the number of distinct indexes the walk
    reaches from the starting event; the starting event itself is counted
    only when the walk comes back to it. *)
Theorem chain_depth_reachable (c_idx : N) (fuel : nat) :
  size (referenced index events) < fuel ->
  exists ae : gset N,
    chain_depth index events fuel c_idx = Some (size ae) /\
    forall y, y ∈ ae <-> tc (followed index events) c_idx y.
Proof.
  intros Hfuel.
  destruct (chain_loop_reachable c_idx fuel Hfuel) as (ae & Hloop & Hreach).
  exists ae. split; [|exact Hreach].
  unfold chain_depth, chain_for_each. rewrite Hloop, chain_visit_count.
  f_equal. unfold ascending.
  rewrite merge_sort_Permutation. unfold size, set_size. cbn. lia.
Qed.

(** X7. Given fuel for more turns than there are referenced indexes,
    room::auth::chain::has(type) returns true exactly when some index the
    walk reaches from the starting event is that of a stored event of this
    type. *)
Theorem chain_has_reachable (c_idx : N) (ty : string) (fuel : nat) :
  size (referenced index events) < fuel ->
  exists b, chain_has index events fuel c_idx ty = Some b /\
    (b = true <->
     exists y e, tc (followed index events) c_idx y /\
                 events !! y = Some e /\ type e = Some ty).
Proof.
  intros Hfuel.
  destruct (chain_loop_reachable c_idx fuel Hfuel) as (ae & Hloop & Hreach).
  unfold chain_has, chain_for_each. rewrite Hloop.
  pose proof (chain_visit_has ty (ascending ae)) as Hhas.
  match goal with
  | |- context [chain_visit ?f (ascending ae) false] =>
      destruct (chain_visit f (ascending ae) false) as [[ret s'] calls] eqn:Hv
  end.
  cbn in Hhas. exists s'. split; [reflexivity|]. rewrite Hhas. split.
  - intros (y & Hy & Hty). apply ascending_elem, Hreach in Hy.
    unfold get_type_of in Hty. destruct (events !! y) as [e|] eqn:Ey;
      [|discriminate Hty].
    exists y, e. auto.
  - intros (y & e & Hy & Ey & Hty). exists y. split.
    + apply ascending_elem, Hreach, Hy.
    + unfold get_type_of. rewrite Ey. exact Hty.
Qed.

End chain_query_facts.

Lemma chain_depth_reachable_witness :
  size (referenced five_index five_events) < 8 /\
  exists ae : gset N,
    chain_depth five_index five_events 8 1%N = Some (size ae) /\
    forall y, y ∈ ae <-> tc (followed five_index five_events) 1%N y.
Proof.
  assert (H : size (referenced five_index five_events) < 8) by (vm_compute; lia).
  split; [exact H|].
  exact (chain_depth_reachable five_index five_events 1%N 8 H).
Defined.

Lemma chain_has_reachable_witness :
  size (referenced five_index five_events) < 8 /\
  exists b, chain_has five_index five_events 8 1%N "m.room.member" = Some b /\
    (b = true <->
     exists y e, tc (followed five_index five_events) 1%N y /\
                 five_events !! y = Some e /\ type e = Some "m.room.member").
Proof.
  assert (H : size (referenced five_index five_events) < 8) by (vm_compute; lia).
  split; [exact H|].
  exact (chain_has_reachable five_index five_events 1%N "m.room.member" 8 H).
Defined.

Section refs_facts.

Variable next_auth : list N.
Variable get_type : N -> option string.

(* the references refs::for_each(type, ...) hands to its closure *)
Lemma refs_count_filter (ty : Sv.string_view) (refs : list N) (n : nat) :
  snd (erefs_for_each (refs_step get_type ty (fun _ ret => (true, S ret))) refs n)
  = n + length (filter (fun ref => Sv.empty ty = true \/
                                   get_type ref = Some (Sv.str ty)) refs).
Proof.
  revert n. induction refs as [|ref refs IH]; intros n; cbn [erefs_for_each].
  - cbn. lia.
  - unfold refs_step at 1. rewrite filter_cons.
    destruct (Sv.empty ty) eqn:Hty; cbn [negb].
    + rewrite IH. rewrite decide_True by auto. cbn. lia.
    + destruct (get_type ref) as [type_|] eqn:Eref.
      * destruct (String.eqb (Sv.str ty) type_) eqn:Heq; cbn [negb].
        -- apply String.eqb_eq in Heq. subst type_. rewrite IH.
           rewrite decide_True by auto. cbn. lia.
        -- apply String.eqb_neq in Heq. rewrite IH.
           rewrite decide_False; [reflexivity|].
           intros [H|H]; [discriminate H|]. injection H as ->. contradiction.
      * rewrite IH. rewrite decide_False; [reflexivity|].
        intros [H|H]; discriminate H.
Qed.

Lemma refs_has_filter (ty : Sv.string_view) (refs : list N) :
  snd (erefs_for_each (refs_step get_type ty (fun _ (_ : bool) => (false, true)))
                      refs false) = true <->
  exists ref, ref ∈ refs /\ (Sv.empty ty = true \/ get_type ref = Some (Sv.str ty)).
Proof.
  induction refs as [|ref refs IH]; cbn [erefs_for_each].
  - cbn. split; [discriminate|]. intros (ref & Hin & _). inversion Hin.
  - unfold refs_step at 1.
    assert (Hrest : (exists r, r ∈ refs /\
                       (Sv.empty ty = true \/ get_type r = Some (Sv.str ty))) ->
                    exists r, r ∈ ref :: refs /\
                       (Sv.empty ty = true \/ get_type r = Some (Sv.str ty))).
    { intros (r & Hr & H). exists r. split; [right; exact Hr|exact H]. }
    destruct (Sv.empty ty) eqn:Hty; cbn [negb].
    + cbn. split; [intros _|reflexivity]. exists ref. split; [left|auto].
    + destruct (get_type ref) as [type_|] eqn:Eref.
      * destruct (String.eqb (Sv.str ty) type_) eqn:Heq; cbn [negb].
        -- apply String.eqb_eq in Heq. subst type_. cbn.
           split; [intros _|reflexivity]. exists ref. split; [left|auto].
        -- apply String.eqb_neq in Heq. rewrite IH. split; [exact Hrest|].
           intros (r & Hr & H). apply elem_of_cons in Hr as [->|Hr].
           ++ destruct H as [H|H]; [discriminate H|].
              rewrite Eref in H. injection H as ->. contradiction.
           ++ exists r. auto.
      * rewrite IH. split; [exact Hrest|].
        intros (r & Hr & H). apply elem_of_cons in Hr as [->|Hr].
        -- destruct H as [H|H]; [discriminate H|].
           rewrite Eref in H. discriminate H.
        -- exists r. auto.
Qed.

(** X8. room::auth::refs::has(type) is true exactly when
    room::auth::refs::count(type) is not zero. *)
Theorem refs_has_type_count (ty : Sv.string_view) :
  refs_has_type next_auth get_type ty = true <->
  0 < refs_count next_auth get_type ty.
Proof.
  unfold refs_has_type, refs_count, refs_for_each.
  rewrite refs_has_filter, refs_count_filter. cbn [Nat.add]. split.
  - intros (ref & Hin & H).
    assert (Hf : ref ∈ filter (fun ref => Sv.empty ty = true \/
                                 get_type ref = Some (Sv.str ty)) next_auth)
      by (apply list_elem_of_filter; auto).
    destruct (filter _ next_auth); [inversion Hf|cbn; lia].
  - intros Hlen.
    destruct (filter (fun ref => Sv.empty ty = true \/
                        get_type ref = Some (Sv.str ty)) next_auth)
      as [|ref l] eqn:Hf; [cbn in Hlen; lia|].
    assert (Hin : ref ∈ filter (fun ref => Sv.empty ty = true \/
                        get_type ref = Some (Sv.str ty)) next_auth)
      by (rewrite Hf; left).
    apply list_elem_of_filter in Hin as [H Hin]. exists ref. auto.
Qed.

(** X9. room::auth::refs::count(type) never exceeds room::auth::refs::count(),
    which is the number of the event's forward auth references. *)
Theorem refs_count_bounded (ty : Sv.string_view) :
  refs_count next_auth get_type ty <= refs_count_all next_auth get_type /\
  refs_count_all next_auth get_type = length next_auth.
Proof.
  unfold refs_count_all, refs_count, refs_for_each.
  rewrite !refs_count_filter. cbn [Nat.add].
  assert (Hall : filter (fun ref => Sv.empty None = true \/
                           get_type ref = Some (Sv.str None)) next_auth
                 = next_auth).
  { induction next_auth as [|r l IH]; [reflexivity|].
    rewrite filter_cons, decide_True by (left; reflexivity).
    f_equal. exact IH. }
  rewrite Hall. split; [|reflexivity]. apply length_filter.
Qed.

(** X10. room::auth::refs::has(idx) is true exactly when the index is among
    the event's forward auth references. *)
Theorem refs_has_idx_elem (idx : N) :
  refs_has_idx next_auth get_type idx = true <-> idx ∈ next_auth.
Proof.
  unfold refs_has_idx, refs_for_each.
  induction next_auth as [|r l IH]; cbn [erefs_for_each].
  - cbn. split; [discriminate|]. intros H. inversion H.
  - unfold refs_step at 1. cbn [Sv.empty Sv.str default String.eqb negb].
    destruct (N.eqb r idx) eqn:Heq; cbn [negb].
    + apply N.eqb_eq in Heq. subst r. cbn. split; [intros _; left|reflexivity].
    + apply N.eqb_neq in Heq. rewrite IH. split.
      * intros H. right. exact H.
      * intros H. apply elem_of_cons in H as [->|H]; [contradiction|exact H].
Qed.

End refs_facts.

(** ** Sigils and valid ids *)

Lemma string_length_append (a b : string) :
  String.length (a +:+ b) = String.length a + String.length b.
Proof. induction a as [|c a IH]; simpl; [reflexivity|]. rewrite IH. reflexivity. Qed.

Lemma string_append_assoc (a b c : string) :
  (a +:+ b) +:+ c = a +:+ (b +:+ c).
Proof.
  induction a as [|x a IH]; [reflexivity|].
  change (String x ((a +:+ b) +:+ c) = String x (a +:+ (b +:+ c))).
  rewrite IH. reflexivity.
Qed.

Lemma count_append (a b : string) (c : ascii) :
  Id.count (a +:+ b) c = Id.count a c + Id.count b c.
Proof.
  induction a as [|c' a IH]; simpl; [reflexivity|]. rewrite IH. lia.
Qed.

Lemma split_append (a b : string) (d : ascii) :
  Id.count a d = 0 -> Id.split (a +:+ String d b) d = (a, b).
Proof.
  induction a as [|c a IH]; simpl.
  - rewrite Ascii.eqb_refl. reflexivity.
  - destruct (Ascii.eqb c d); [discriminate|]. simpl. intros H.
    rewrite (IH H). reflexivity.
Qed.

Lemma split_none (a : string) (d : ascii) :
  Id.count a d = 0 -> Id.split a d = (a, "").
Proof.
  induction a as [|c a IH]; simpl; [reflexivity|].
  destruct (Ascii.eqb c d); [discriminate|]. simpl. intros H.
  rewrite (IH H). reflexivity.
Qed.

Lemma uint_digits (u : Decimal.uint) :
  Id.count (NilEmpty.string_of_uint u) ":" = 0.
Proof. induction u; cbn; auto. Qed.

Lemma format_u_digits (n : N) : Id.count (Id.format_u n) ":" = 0.
Proof.
  unfold Id.format_u, NilZero.string_of_uint.
  destruct (N.to_uint n); try reflexivity; apply (uint_digits (_ _)).
Qed.

Lemma format_u_length (n : N) : 1 <= String.length (Id.format_u n).
Proof.
  unfold Id.format_u, NilZero.string_of_uint.
  destruct (N.to_uint n); cbn; lia.
Qed.

Lemma zeros_digits (n : nat) : Id.count (Id.zeros n) ":" = 0.
Proof. induction n; cbn; auto. Qed.

Lemma time_based_digits (utime : Z * Z) :
  Id.count (Id.time_based utime) ":" = 0.
Proof.
  unfold Id.time_based, Id.format_zd, Id.format_06d, NilZero.string_of_int.
  rewrite count_append.
  assert (H1 : forall u, Id.count (NilZero.string_of_uint u) ":" = 0).
  { intros u. unfold NilZero.string_of_uint.
    destruct u; try reflexivity; apply (uint_digits (_ _)). }
  assert (Hzd : Id.count match Z.to_int (fst utime) with
                         | Decimal.Pos d => NilZero.string_of_uint d
                         | Decimal.Neg d => String "-" (NilZero.string_of_uint d)
                         end ":" = 0).
  { destruct (Z.to_int (fst utime)); cbn; apply H1. }
  rewrite Hzd. destruct (snd utime <? 0)%Z; cbn;
    rewrite count_append, zeros_digits, H1; reflexivity.
Qed.

Lemma time_based_length (utime : Z * Z) :
  1 <= String.length (Id.time_based utime).
Proof.
  unfold Id.time_based, Id.format_zd, NilZero.string_of_int.
  rewrite string_length_append.
  assert (H1 : forall u, 1 <= String.length (NilZero.string_of_uint u)).
  { intros u. unfold NilZero.string_of_uint. destruct u; cbn; lia. }
  destruct (Z.to_int (fst utime)) as [u|u]; cbn; pose proof (H1 u); lia.
Qed.

Lemma localpart_digits (sg : Id.sigil) (rnd : N) (utime : Z * Z) :
  Id.count (Id.localpart sg rnd utime) ":" = 0 /\
  1 <= String.length (Id.localpart sg rnd utime).
Proof.
  destruct sg; cbn [Id.localpart]; unfold Id.random_number;
    rewrite ?count_append, ?format_u_digits, ?time_based_digits,
            ?string_length_append;
    (split; [reflexivity|]);
    try apply time_based_length; try apply format_u_length.
  pose proof (format_u_length (rnd mod 2 ^ 32)). cbn. lia.
Qed.

Lemma sigil_char_not_colon (sg : Id.sigil) :
  Ascii.eqb (Id.sigil_char sg) ":" = false.
Proof. destruct sg; reflexivity. Qed.

(* an id put together from a sigil, a localpart and a host *)
Lemma valid_mxid (sg : Id.sigil) (local host : string) :
  Id.count local ":" = 0 -> 1 <= String.length local -> host <> "" ->
  Id.valid sg (Id.mxid sg local host) = true.
Proof.
  intros Hcount Hlen Hhost. unfold Id.valid, Id.mxid.
  change (String (Id.sigil_char sg) local +:+ ":" +:+ host)
    with (String (Id.sigil_char sg) local +:+ String ":" host).
  rewrite split_append
    by (cbn; rewrite sigil_char_not_colon, Hcount; reflexivity).
  cbn [fst snd]. apply String.eqb_neq in Hhost. rewrite Hhost.
  destruct (Nat.ltb_spec (String.length (String (Id.sigil_char sg) local)) 2)
    as [Hlt|_]; [cbn [String.length] in Hlt; lia|].
  unfold Sv.startswith. simpl. rewrite Ascii.eqb_refl. reflexivity.
Qed.

(** X11. A generated id that nothing truncates is a valid id of its sigil
    whenever the host is not empty: the name fits its 64 byte buffer, the id
    fits the buffer of the caller, and id::valid() then holds of the
    result. *)
Theorem generate_valid (sg : Id.sigil) (max : nat) (host : string)
        (rnd : N) (utime : Z * Z) :
  String.length (String (Id.sigil_char sg) (Id.localpart sg rnd utime)) < 64 ->
  String.length (Id.mxid sg (Id.localpart sg rnd utime) host) < max ->
  host <> "" ->
  Id.valid sg (Id.generate sg max host rnd utime) = true.
Proof.
  intros Hname Hbuf Hhost.
  destruct (localpart_digits sg rnd utime) as [Hcount Hlen].
  pose proof (valid_mxid sg _ host Hcount Hlen Hhost) as Hvalid.
  unfold Id.generate, Id.mxid in *.
  destruct sg; cbn [Id.localpart Id.sigil_char] in *;
    unfold Id.generate_random_prefixed, Id.generate_random_timebased,
           Id.time_based, Id.random_number in *;
    cbn [Id.sigil_char String.append] in *;
    rewrite (snprintf_fits 64) by exact Hname;
    rewrite snprintf_fits by exact Hbuf; exact Hvalid.
Qed.

Lemma generate_valid_witness :
  String.length (String (Id.sigil_char Id.USER)
                        (Id.localpart Id.USER 7%N (1500000000%Z, 42%Z))) < 64 /\
  String.length (Id.mxid Id.USER (Id.localpart Id.USER 7%N (1500000000%Z, 42%Z))
                         "cdc.z") < 256 /\
  "cdc.z" <> "" /\
  Id.valid Id.USER (Id.generate Id.USER 256 "cdc.z" 7%N (1500000000%Z, 42%Z))
  = true.
Proof.
  assert (H1 : String.length (String (Id.sigil_char Id.USER)
                 (Id.localpart Id.USER 7%N (1500000000%Z, 42%Z))) < 64)
    by (vm_compute; lia).
  assert (H2 : String.length (Id.mxid Id.USER
                 (Id.localpart Id.USER 7%N (1500000000%Z, 42%Z)) "cdc.z") < 256)
    by (vm_compute; lia).
  assert (H3 : "cdc.z" <> "") by discriminate.
  exact (conj H1 (conj H2 (conj H3
           (generate_valid Id.USER 256 "cdc.z" 7%N (1500000000%Z, 42%Z)
              H1 H2 H3)))).
Defined.

(** X12. m::valid_sigil holds of a view exactly when m::sigil returns for
    it instead of throwing BAD_SIGIL, and the sigil returned is the one whose
    character the view starts with. *)
Theorem valid_sigil_iff (s : string) :
  Id.valid_sigil s = true <->
  exists sg, Id.sigil_of_view s = Id.Returns sg /\
             Sv.startswith (Some s) (Id.sigil_char sg) = true.
Proof.
  destruct s as [|c s]; cbn.
  - split; [discriminate|]. intros (sg & H & _). discriminate H.
  - unfold Id.valid_sigil_char, Id.sigil_of_char. cbn [Id.sigil_char].
    destruct (Ascii.eqb c "$") eqn:E1.
    { split; [intros _|reflexivity]. exists Id.EVENT. auto. }
    destruct (Ascii.eqb c "@") eqn:E2.
    { split; [intros _|reflexivity]. exists Id.USER. auto. }
    destruct (Ascii.eqb c "#") eqn:E3.
    { split; [intros _|reflexivity]. exists Id.ALIAS. auto. }
    destruct (Ascii.eqb c "!") eqn:E4.
    { split; [intros _|reflexivity]. exists Id.ROOM. auto. }
    cbn. split; [discriminate|]. intros (sg & H & _). discriminate H.
Qed.

Lemma with_sigil_split (sg : Id.sigil) (name : string) :
  Id.split (Id.with_sigil sg name) ":"
  = (Id.with_sigil sg (fst (Id.split name ":")), snd (Id.split name ":")).
Proof.
  unfold Id.with_sigil. destruct name as [|c name]; cbn.
  - rewrite sigil_char_not_colon. reflexivity.
  - destruct (Ascii.eqb c (Id.sigil_char sg)) eqn:Hc.
    + apply Ascii.eqb_eq in Hc. subst c. cbn.
      rewrite sigil_char_not_colon. destruct (Id.split name ":"). cbn.
      rewrite Ascii.eqb_refl. reflexivity.
    + cbn. rewrite sigil_char_not_colon.
      destruct (Ascii.eqb c ":") eqn:Hcolon; cbn.
      * reflexivity.
      * destruct (Id.split name ":"). cbn. rewrite Hc. reflexivity.
Qed.

Lemma with_sigil_startswith (sg : Id.sigil) (name : string) :
  Sv.startswith (Some (Id.with_sigil sg name)) (Id.sigil_char sg) = true.
Proof.
  unfold Id.with_sigil.
  destruct (Sv.startswith (Some name) (Id.sigil_char sg)) eqn:H; [exact H|].
  cbn. apply Ascii.eqb_refl.
Qed.

Lemma make_pre (sg : Id.sigil) (name : string) :
  (if negb (Sv.startswith (Some name) (Id.sigil_char sg))
   then String (Id.sigil_char sg) EmptyString else EmptyString) +:+ name
  = Id.with_sigil sg name.
Proof.
  unfold Id.with_sigil.
  destruct (Sv.startswith (Some name) (Id.sigil_char sg)); reflexivity.
Qed.

(** X13. When the host is not empty and nothing is truncated, the id that
    id::id(sigil, buf, max, name, host) returns is the name with the sigil
    in front, followed by a colon and the host if the name has no colon of
    its own; it is a valid id of the sigil whenever its localpart is not
    empty. *)
Theorem make_valid (sg : Id.sigil) (max : nat) (name host id : string) :
  host <> "" ->
  Id.make sg max name host = Id.Returns id ->
  String.length (Id.with_sigil sg name) + String.length host + 1 < max ->
  2 <= String.length (fst (Id.split (Id.with_sigil sg name) ":")) ->
  id = (if Nat.eqb (Id.count name ":") 0
        then Id.with_sigil sg name +:+ ":" +:+ host
        else Id.with_sigil sg name) /\
  Id.valid sg id = true.
Proof.
  intros Hhost Hmake Hfits Hlocal. unfold Id.make in Hmake.
  destruct (Nat.eqb max 0) eqn:Hmax; [apply Nat.eqb_eq in Hmax; lia|].
  pose proof Hhost as Hhost'. apply String.eqb_neq in Hhost'.
  rewrite Hhost' in Hmake. cbn [negb] in Hmake.
  rewrite !andb_false_r, !andb_true_r in Hmake.
  set (pre := if negb (Sv.startswith (Some name) (Id.sigil_char sg))
              then String (Id.sigil_char sg) EmptyString else EmptyString) in *.
  assert (Hpre : pre +:+ name = Id.with_sigil sg name) by apply make_pre.
  assert (Hlen : String.length pre + String.length name
                 = String.length (Id.with_sigil sg name))
    by (rewrite <- Hpre, string_length_append; reflexivity).
  rewrite with_sigil_split in Hlocal. cbn [fst] in Hlocal.
  destruct (Nat.eqb (Id.count name ":") 0) eqn:Hsep.
  - apply Nat.eqb_eq in Hsep. injection Hmake as <-.
    rewrite snprintf_fits
      by (rewrite !string_length_append; cbn [String.length]; lia).
    assert (Hid : pre +:+ name +:+ ":" +:+ host
                  = Id.with_sigil sg name +:+ ":" +:+ host).
    { rewrite <- Hpre, string_append_assoc. reflexivity. }
    rewrite Hid. split; [reflexivity|].
    unfold Id.valid.
    assert (Hcount : Id.count (Id.with_sigil sg name) ":" = 0).
    { unfold Id.with_sigil.
      destruct (Sv.startswith (Some name) (Id.sigil_char sg)); [exact Hsep|].
      cbn. rewrite sigil_char_not_colon. exact Hsep. }
    change (Id.with_sigil sg name +:+ ":" +:+ host)
      with (Id.with_sigil sg name +:+ String ":" host).
    rewrite (split_append _ host ":" Hcount). cbn [fst snd].
    rewrite Hhost'. rewrite (split_none name ":" Hsep) in Hlocal.
    cbn [fst] in Hlocal.
    destruct (Nat.ltb_spec (String.length (Id.with_sigil sg name)) 2); [lia|].
    rewrite with_sigil_startswith. reflexivity.
  - destruct (Nat.eqb (Id.count name ":") 1
              && negb (String.eqb (snd (Id.split name ":")) "")) eqn:Hone;
      [|discriminate Hmake].
    injection Hmake as <-. apply andb_true_iff in Hone as [_ Hsnd].
    apply negb_true_iff in Hsnd.
    unfold Id.strlcpy. rewrite truncate_fits by lia. rewrite Hpre.
    split; [reflexivity|].
    unfold Id.valid. rewrite with_sigil_split. cbn [fst snd].
    rewrite Hsnd.
    destruct (Nat.ltb_spec
                (String.length (Id.with_sigil sg (fst (Id.split name ":")))) 2);
      [lia|].
    rewrite with_sigil_startswith. reflexivity.
Qed.

Lemma make_valid_witness :
  "cdc.z" <> "" /\
  Id.make Id.USER 256 "alice" "cdc.z" = Id.Returns "@alice:cdc.z" /\
  String.length (Id.with_sigil Id.USER "alice") + String.length "cdc.z" + 1
    < 256 /\
  2 <= String.length (fst (Id.split (Id.with_sigil Id.USER "alice") ":")) /\
  "@alice:cdc.z" = "@alice:cdc.z" /\
  Id.valid Id.USER "@alice:cdc.z" = true.
Proof.
  assert (H1 : "cdc.z" <> "") by discriminate.
  assert (H2 : Id.make Id.USER 256 "alice" "cdc.z" = Id.Returns "@alice:cdc.z")
    by reflexivity.
  assert (H3 : String.length (Id.with_sigil Id.USER "alice")
               + String.length "cdc.z" + 1 < 256) by (vm_compute; lia).
  assert (H4 : 2 <= String.length
                      (fst (Id.split (Id.with_sigil Id.USER "alice") ":")))
    by (vm_compute; lia).
  exact (conj H1 (conj H2 (conj H3 (conj H4
           (make_valid Id.USER 256 "alice" "cdc.z" "@alice:cdc.z"
              H1 H2 H3 H4))))).
Defined.

(** X14. id::id(sigil, buf, max, name, host) throws, and then INVALID_MXID,
    exactly when the buffer and the host are not empty and the name has two
    colons or more, or one colon with nothing behind it. *)
Theorem make_throws_iff (sg : Id.sigil) (max : nat) (name host : string) :
  ((exists e, Id.make sg max name host = Id.Throws e) <->
   max <> 0 /\ host <> "" /\
   (2 <= Id.count name ":" \/
    (Id.count name ":" = 1 /\ snd (Id.split name ":") = ""))) /\
  (forall e, Id.make sg max name host = Id.Throws e ->
             exists what, e = Id.INVALID_MXID what).
Proof.
  unfold Id.make.
  destruct (Nat.eqb_spec max 0) as [Hmax|Hmax].
  { split; [|intros e H; discriminate H].
    split; [intros [e H]; discriminate H|]. intros [H _]. contradiction. }
  destruct (String.eqb_spec host "") as [Hhost|Hhost]; cbn [negb];
    rewrite ?andb_false_r, ?andb_true_r.
  { split.
    - split.
      + intros [e H]. destruct (Nat.eqb (Id.count name ":") 0); discriminate H.
      + intros (_ & H & _). contradiction.
    - intros e H. destruct (Nat.eqb (Id.count name ":") 0); discriminate H. }
  destruct (Nat.eqb_spec (Id.count name ":") 0) as [H0|H0]; cbn [negb].
  { split; [|intros e H; discriminate H].
    split; [intros [e H]; discriminate H|]. intros (_ & _ & [H|[H _]]); lia. }
  destruct (Nat.eqb_spec (Id.count name ":") 1) as [H1|H1]; cbn [andb].
  - destruct (String.eqb_spec (snd (Id.split name ":")) "") as [Hs|Hs];
      cbn [negb].
    + split; [|intros e [= <-]; eauto].
      split; [intros _|intros _; eexists; reflexivity]. auto.
    + split; [|intros e H; discriminate H].
      split; [intros [e H]; discriminate H|].
      intros (_ & _ & [H|[_ H]]); [lia|contradiction].
  - split; [|intros e [= <-]; eauto].
    split; [intros _|intros _; eexists; reflexivity].
    repeat split; auto. left. lia.
Qed.

(** X15. Given an empty host, id::id(sigil, buf, max, name, host) drops a
    name that holds a colon: what it returns is the sigil alone, or nothing
    when the name starts with the sigil. *)
Theorem make_drops_qualified_name (sg : Id.sigil) (max : nat) (name : string) :
  max <> 0 -> Id.count name ":" <> 0 ->
  Id.make sg max name ""
  = Id.Returns (if Sv.startswith (Some name) (Id.sigil_char sg)
                then "" else String (Id.sigil_char sg) "").
Proof.
  intros Hmax Hsep. unfold Id.make.
  apply Nat.eqb_neq in Hmax, Hsep. rewrite Hmax, Hsep.
  change (String.eqb "" "") with true. cbn [negb andb].
  rewrite !andb_false_r.
  destruct (Sv.startswith (Some name) (Id.sigil_char sg)); reflexivity.
Qed.

Lemma make_drops_qualified_name_witness :
  256 <> 0 /\ Id.count "@alice:cdc.z" ":" <> 0 /\
  Id.make Id.USER 256 "@alice:cdc.z" "" = Id.Returns "".
Proof.
  assert (H1 : 256 <> 0) by lia.
  assert (H2 : Id.count "@alice:cdc.z" ":" <> 0) by (vm_compute; lia).
  exact (conj H1 (conj H2
           (make_drops_qualified_name Id.USER 256 "@alice:cdc.z" H1 H2))).
Defined.

(** ** Column cursors and reads *)

Section column_facts.

Variable leb : string -> string -> bool.
Variable cells : list (string * string).

Hypothesis leb_refl : forall k, leb k k = true.
Hypothesis cells_ascending : Db.ascending string leb (Db.keys_of cells).

Local Abbreviation keys := (Db.keys_of cells).

(* a seek to a key ends at the lower bound of the key, whatever the cache
   does *)
Lemma column_seek_lower_bound (cache : list bool) (k : string) :
  Db.column_seek leb cells cache k
  = {| Db.at_index := Db.lower_bound string leb keys k; Db.state := Db.ok |}.
Proof.
  unfold Db.column_seek.
  rewrite (seek_blocking_refined string leb keys leb_refl cells_ascending cache).
  - reflexivity.
  - intros it' i H. discriminate H.
  - intros it' keeps cache' Hrel. discriminate Hrel.
Qed.

Lemma keys_lookup (i : nat) (k v : string) :
  cells !! i = Some (k, v) -> keys !! i = Some k.
Proof.
  intros H. unfold Db.keys_of. rewrite list_lookup_fmap, H. reflexivity.
Qed.

Lemma lower_bound_stored (k : string) :
  k ∈ keys <->
  exists i, Db.lower_bound string leb keys k = Some i /\ keys !! i = Some k.
Proof.
  split.
  - intros Hin. apply list_elem_of_lookup in Hin as [i Hi].
    exists i. split; [|exact Hi].
    apply (lower_bound_own string leb keys leb_refl cells_ascending i k Hi).
  - intros (i & _ & Hi). apply list_elem_of_lookup. eauto.
Qed.

Lemma lower_bound_cell (k : string) (kv : string * string) :
  (exists i, Db.lower_bound string leb keys k = Some i /\
             cells !! i = Some kv /\ fst kv = k) <->
  fst kv = k /\ kv ∈ cells.
Proof.
  split.
  - intros (i & _ & Hi & Hk). split; [exact Hk|].
    apply list_elem_of_lookup. eauto.
  - intros [Hk Hin]. apply list_elem_of_lookup in Hin as [i Hi].
    exists i. split; [|auto]. destruct kv as [k' v]. cbn in Hk. subst k'.
    apply (lower_bound_own string leb keys leb_refl cells_ascending i k).
    apply (keys_lookup i k v Hi).
Qed.

(** X16. Whatever run of cache misses the seek meets, column::find(key)
    returns a cursor on the cell of the key when the column holds the key,
    and the end cursor when it does not. *)
Theorem column_find_stored (cache : list bool) (k : string) :
  (forall kv, Db.deref cells (Db.column_find leb cells cache k) = Some kv <->
              fst kv = k /\ kv ∈ cells) /\
  (Db.column_find leb cells cache k = Db.cend <-> k ∉ keys).
Proof.
  unfold Db.column_find, Db.column_lower_bound, Db.seek_it.
  fold (Db.column_seek leb cells cache k).
  rewrite column_seek_lower_bound.
  unfold Db.it_not, Db.it_key_equal, Db.key_equal, Db.valid, Db.key, Db.cend.
  cbn [Db.at_index].
  destruct (Db.lower_bound string leb keys k) as [i|] eqn:Hlb; cbn [negb orb].
  - destruct (keys !! i) as [k'|] eqn:Hki.
    + destruct (String.eqb_spec k' k) as [->|Hne]; cbn [negb].
      * split.
        -- intros kv. cbn [Db.deref Db.at_index]. rewrite <- lower_bound_cell.
           split.
           ++ intros Hc. exists i. split; [exact Hlb|]. split; [exact Hc|].
              unfold Db.keys_of in Hki. rewrite list_lookup_fmap, Hc in Hki.
              cbn in Hki. congruence.
           ++ intros (j & Hj & Hc & _). congruence.
        -- split; [discriminate|]. intros Hnot. exfalso. apply Hnot.
           apply list_elem_of_lookup. eauto.
      * assert (Hnot : k ∉ keys).
        { intros Hin. apply lower_bound_stored in Hin as (j & Hj & Hkj).
          congruence. }
        split; [|tauto].
        intros kv. cbn [Db.deref]. split; [discriminate|].
        intros [Hk Hin]. exfalso. apply Hnot. unfold Db.keys_of.
        apply list_elem_of_fmap. exists kv. auto.
    + assert (Hnot : k ∉ keys).
      { intros Hin. apply lower_bound_stored in Hin as (j & Hj & Hkj).
        congruence. }
      split; [|tauto].
      intros kv. cbn [Db.deref]. split; [discriminate|].
      intros [Hk Hin]. exfalso. apply Hnot. unfold Db.keys_of.
      apply list_elem_of_fmap. exists kv. auto.
  - assert (Hnot : k ∉ keys).
    { intros Hin. apply lower_bound_stored in Hin as (j & Hj & Hkj).
      congruence. }
    split; [|tauto].
    intros kv. cbn [Db.deref]. split; [discriminate|].
    intros [Hk Hin]. exfalso. apply Hnot. unfold Db.keys_of.
    apply list_elem_of_fmap. exists kv. auto.
Qed.

(** X17. Whatever run of cache misses the seek meets, read(column, key)
    returns the value the column holds under the key, and throws
    db::not_found, and nothing else, when the column does not hold the
    key. *)
Theorem read_stored (cache : list bool) (k : string) :
  (forall v, Db.read leb cells cache k = Db.Returns v <-> (k, v) ∈ cells) /\
  (Db.read leb cells cache k = Db.Throws Db.db_not_found <-> k ∉ keys).
Proof.
  unfold Db.read, Db.column_call, Db.valid_equal_or_throw, Db.valid_or_throw.
  rewrite column_seek_lower_bound.
  unfold Db.key_equal, Db.valid, Db.key, Db.val, Db.throw_on_error.
  cbn [Db.at_index Db.state].
  assert (Habsent : k ∉ keys -> forall v, (k, v) ∈ cells -> False).
  { intros Hnot v Hin. apply Hnot. unfold Db.keys_of.
    apply list_elem_of_fmap. exists (k, v). auto. }
  destruct (Db.lower_bound string leb keys k) as [i|] eqn:Hlb; cbn [negb].
  - destruct (keys !! i) as [k'|] eqn:Hki.
    + destruct (String.eqb_spec k' k) as [->|Hne]; cbn [negb].
      * pose proof Hki as Hci. unfold Db.keys_of in Hci.
        rewrite list_lookup_fmap in Hci.
        destruct (cells !! i) as [[k0 v0]|] eqn:Hc; [|discriminate Hci].
        cbn in Hci. injection Hci as ->. cbn. split.
        -- intros v. split.
           ++ intros [= <-]. apply list_elem_of_lookup. eauto.
           ++ intros Hin.
              destruct (proj2 (lower_bound_cell k (k, v)) (conj eq_refl Hin))
                as (j & Hj & Hcj & _).
              congruence.
        -- split; [discriminate|]. intros Hnot. exfalso. apply Hnot.
           apply list_elem_of_lookup. eauto.
      * assert (Hnot : k ∉ keys).
        { intros Hin. apply lower_bound_stored in Hin as (j & Hj & Hkj).
          congruence. }
        split; [|tauto].
        intros v. split; [discriminate|]. intros Hin. destruct (Habsent Hnot v Hin).
    + assert (Hnot : k ∉ keys).
      { intros Hin. apply lower_bound_stored in Hin as (j & Hj & Hkj).
        congruence. }
      split; [|tauto].
      intros v. split; [discriminate|]. intros Hin. destruct (Habsent Hnot v Hin).
  - assert (Hnot : k ∉ keys).
    { intros Hin. apply lower_bound_stored in Hin as (j & Hj & Hkj).
      congruence. }
    split; [|tauto].
    intros v. split; [discriminate|]. intros Hin. destruct (Habsent Hnot v Hin).
Qed.

(** X18. When the iterator is still valid at its position after a step of
    it comes back Incomplete, column::upper_bound of a key the column holds
    returns a cursor on the cell behind that of the key, and a cursor that is
    not valid when the key is the last. *)
Theorem column_upper_bound_stored (cache cache' : list bool) (k v : string)
        (i : nat) :
  cells !! i = Some (k, v) ->
  Db.still_valid_on_miss string cache' (Db.to_pos Db.NEXT)
                         (Db.column_lower_bound leb cells cache k) ->
  Db.deref cells (Db.column_upper_bound leb cells cache cache' k)
  = cells !! S i.
Proof.
  intros Hc Hcontract.
  pose proof (keys_lookup i k v Hc) as Hk.
  pose proof (lower_bound_own string leb keys leb_refl cells_ascending i k Hk)
    as Hlb.
  unfold Db.column_upper_bound.
  assert (Hit : Db.column_lower_bound leb cells cache k
                = Some {| Db.at_index := Some i; Db.state := Db.ok |}).
  { unfold Db.column_lower_bound, Db.seek_it.
    fold (Db.column_seek leb cells cache k).
    rewrite column_seek_lower_bound, Hlb. reflexivity. }
  rewrite Hit in *.
  unfold Db.it_not, Db.it_key_equal, Db.key_equal, Db.valid, Db.key.
  cbn [Db.at_index]. rewrite Hk, String.eqb_refl. cbn [negb andb].
  unfold Db.seek_it.
  rewrite (seek_blocking_refined string leb keys leb_refl cells_ascending cache').
  - unfold Db.blocking_seek, Db._seek_blocking. cbn [snd Db.deref Db.at_index Db.move].
    unfold Db.next.
    destruct (Nat.ltb_spec (S i) (length keys)) as [Hlt|Hge]; [reflexivity|].
    symmetry. apply lookup_ge_None.
    unfold Db.keys_of in Hge. rewrite length_fmap in Hge. exact Hge.
  - intros it' j [= <-] [= <-]. apply lookup_lt_Some in Hk. exact Hk.
  - exact Hcontract.
Qed.

(** X27. Whatever run of cache misses the seek meets, column::cbegin
    returns a cursor on the first cell of the column, and a cursor that is
    not valid when the column is empty. *)
Theorem column_cbegin_first (cache : list bool) :
  Db.deref cells (Db.cbegin leb cells cache) = head cells /\
  (Db.it_not (Db.cbegin leb cells cache) = true <-> cells = []).
Proof.
  unfold Db.cbegin, Db.seek_it.
  rewrite (seek_blocking_refined string leb keys leb_refl cells_ascending cache).
  - unfold Db.blocking_seek, Db._seek_blocking, Db.it_not, Db.valid.
    cbn [snd Db.deref Db.at_index Db.move]. unfold Db.front, Db.keys_of.
    destruct cells as [|c l]; cbn; split; try reflexivity.
    + split; reflexivity.
    + split; discriminate.
  - intros it' i H. discriminate H.
  - intros it' keeps cache' Hrel. discriminate Hrel.
Qed.

End column_facts.

Lemma sample_cells_ascending :
  Db.ascending string String.leb (Db.keys_of Db.sample_cells).
Proof. exact sample_keys_ascending. Qed.

Lemma column_find_stored_witness :
  (forall kv,
     Db.deref Db.sample_cells
              (Db.column_find String.leb Db.sample_cells [false; true] "b")
     = Some kv <-> fst kv = "b" /\ kv ∈ Db.sample_cells) /\
  (Db.column_find String.leb Db.sample_cells [false; true] "b" = Db.cend <->
   "b" ∉ Db.keys_of Db.sample_cells).
Proof.
  exact (column_find_stored String.leb Db.sample_cells string_leb_refl
           sample_cells_ascending [false; true] "b").
Defined.

Lemma read_stored_witness :
  (forall v, Db.read String.leb Db.sample_cells [false; true] "b"
             = Db.Returns v <-> ("b", v) ∈ Db.sample_cells) /\
  (Db.read String.leb Db.sample_cells [false; true] "b"
   = Db.Throws Db.db_not_found <-> "b" ∉ Db.keys_of Db.sample_cells).
Proof.
  exact (read_stored String.leb Db.sample_cells string_leb_refl
           sample_cells_ascending [false; true] "b").
Defined.

Lemma column_upper_bound_stored_witness :
  Db.sample_cells !! 1 = Some ("b", "2") /\
  Db.still_valid_on_miss string [true] (Db.to_pos Db.NEXT)
    (Db.column_lower_bound String.leb Db.sample_cells [false] "b") /\
  Db.deref Db.sample_cells
    (Db.column_upper_bound String.leb Db.sample_cells [false] [true] "b")
  = Db.sample_cells !! 2.
Proof.
  assert (H1 : Db.sample_cells !! 1 = Some ("b", "2")) by reflexivity.
  assert (H2 : Db.still_valid_on_miss string [true] (Db.to_pos Db.NEXT)
                 (Db.column_lower_bound String.leb Db.sample_cells [false] "b")).
  { intros it' keeps cache' _ _ _ Hcache. injection Hcache as <- _. reflexivity. }
  exact (conj H1 (conj H2
           (column_upper_bound_stored String.leb Db.sample_cells
              string_leb_refl sample_cells_ascending [false] [true] "b" "2" 1
              H1 H2))).
Defined.

Lemma column_cbegin_first_witness :
  Db.deref Db.sample_cells (Db.cbegin String.leb Db.sample_cells [false; true])
  = head Db.sample_cells /\
  (Db.it_not (Db.cbegin String.leb Db.sample_cells [false; true]) = true <->
   Db.sample_cells = []).
Proof.
  exact (column_cbegin_first String.leb Db.sample_cells string_leb_refl
           sample_cells_ascending [false; true]).
Defined.

(** ** Read options, comparators, rows *)

Lemma make_opts_step_tier (ret : Db.ReadOptions) (opt : Db.get * nat) :
  Db.ro_read_tier (Db.make_opts_step ret opt) = Db.ro_read_tier ret /\
  Db.ro_snapshot (Db.make_opts_step ret opt) = Db.ro_snapshot ret.
Proof. destruct opt as [[] n]; split; reflexivity. Qed.

Lemma make_opts_step_fill_cache (ret : Db.ReadOptions) (opt : Db.get * nat) :
  Db.ro_fill_cache (Db.make_opts_step ret opt)
  = match fst opt with
    | Db.CACHE => true
    | Db.NO_CACHE => false
    | _ => Db.ro_fill_cache ret
    end.
Proof. destruct opt as [[] n]; reflexivity. Qed.

(** X19. The read options make_opts builds are always in the NON_BLOCKING
    tier and carry the snapshot of the gopts, whatever options are given;
    fill_cache is what the last CACHE or NO_CACHE option says, and without
    such an option it is off for an iterator and on otherwise. *)
Theorem make_opts_invariants (o : Db.gopts) (iterator : bool) :
  Db.ro_read_tier (Db.make_opts o iterator) = Db.NON_BLOCKING /\
  Db.ro_snapshot (Db.make_opts o iterator) = Db.snapshot o /\
  Db.ro_fill_cache (Db.make_opts o iterator)
  = match last (filter (fun g => Db.cache_option g = true) (fst <$> Db.opts o)) with
    | Some Db.CACHE => true
    | Some _ => false
    | None => negb iterator
    end.
Proof.
  unfold Db.make_opts.
  set (ret := {| Db.ro_snapshot := Db.snapshot o |}).
  assert (H0 : Db.ro_read_tier ret = Db.NON_BLOCKING /\
               Db.ro_snapshot ret = Db.snapshot o /\
               Db.ro_fill_cache ret = negb iterator)
    by (subst ret; destruct iterator; auto).
  clearbody ret. destruct H0 as (Ht & Hs & Hf).
  induction (Db.opts o) as [|opt l IH] using rev_ind.
  - cbn. auto.
  - rewrite foldl_snoc, fmap_app, filter_app.
    destruct IH as (IHt & IHs & IHf).
    destruct (make_opts_step_tier (foldl Db.make_opts_step ret l) opt)
      as [Htier Hsnap].
    rewrite Htier, Hsnap, make_opts_step_fill_cache.
    split; [exact IHt|]. split; [exact IHs|].
    destruct opt as [g n]. cbn [fst fmap list_fmap].
    rewrite filter_cons, filter_nil.
    destruct g; cbn [Db.cache_option];
      [rewrite decide_False by discriminate
      |rewrite decide_True by reflexivity
      |rewrite decide_True by reflexivity
      |rewrite decide_False by discriminate
      |rewrite decide_False by discriminate
      |rewrite decide_False by discriminate
      |rewrite decide_False by discriminate];
      rewrite ?app_nil_r, ?last_snoc; try exact IHf; reflexivity.
Qed.

Lemma string_compare_refl (a : string) : String.compare a a = Eq.
Proof.
  induction a as [|c a IH]; cbn; [reflexivity|].
  rewrite IH. unfold Ascii.compare. rewrite N.compare_refl. reflexivity.
Qed.

Lemma string_ltb_compare (a b : string) :
  String.ltb a b = match String.compare a b with Lt => true | _ => false end.
Proof. reflexivity. Qed.

(** X20. For the string_view comparator of a column, comparator::Compare
    returns 0 exactly when comparator::Equal holds, which is when the two
    keys are the same bytes, and swapping the arguments negates the
    result. *)
Theorem cmp_string_view_consistent (a b : string) :
  (Db.Compare Db.cmp_string_view a b = 0%Z <->
   Db.Equal Db.cmp_string_view a b = true) /\
  (Db.Equal Db.cmp_string_view a b = true <-> a = b) /\
  Db.Compare Db.cmp_string_view b a = (- Db.Compare Db.cmp_string_view a b)%Z.
Proof.
  unfold Db.Compare, Db.Equal. cbn [Db.less Db.equal Db.cmp_string_view].
  rewrite !string_ltb_compare, (String.compare_antisym a b).
  pose proof (String.compare_eq_iff b a) as Heq.
  destruct (String.compare b a) eqn:Hc; cbn [CompOpp].
  - assert (b = a) by (apply Heq; reflexivity). subst b.
    rewrite String.eqb_refl. repeat split; auto.
  - assert (Hne : a <> b) by (intros ->; rewrite string_compare_refl in Hc; discriminate Hc).
    apply String.eqb_neq in Hne. rewrite Hne.
    repeat split; try discriminate; intros ->;
      rewrite String.eqb_refl in Hne; discriminate Hne.
  - assert (Hne : a <> b) by (intros ->; rewrite string_compare_refl in Hc; discriminate Hc).
    apply String.eqb_neq in Hne. rewrite Hne.
    repeat split; try discriminate; intros ->;
      rewrite String.eqb_refl in Hne; discriminate Hne.
Qed.

Section row_facts.

Variable cell : Type.
Variable seek_cell : cell -> bool * cell.

Local Abbreviation row_seek := (Db.row_seek cell seek_cell).
Local Abbreviation row_seeka := (Db.row_seeka cell seek_cell).

Lemma row_seeka_fold (its : list cell) (invalid : bool) (done : list cell) :
  foldl (fun '(invalid, done) c =>
           let '(valid, c') := seek_cell c in
           (invalid || negb valid, done ++ [c']))
        (invalid, done) its
  = (invalid || negb (forallb (fun c => fst (seek_cell c)) its),
     done ++ ((fun c => snd (seek_cell c)) <$> its)).
Proof.
  revert invalid done. induction its as [|c its IH]; intros invalid done; cbn.
  - rewrite orb_false_r, app_nil_r. reflexivity.
  - destruct (seek_cell c) as [valid c'] eqn:Hc. rewrite IH. cbn.
    rewrite <- app_assoc. f_equal.
    destruct invalid, valid; cbn; reflexivity.
Qed.

Lemma row_seeka_all (its : list cell) :
  row_seeka its = (forallb (fun c => fst (seek_cell c)) its,
                   (fun c => snd (seek_cell c)) <$> its).
Proof.
  unfold Db.row_seeka. rewrite row_seeka_fold. cbn.
  rewrite negb_involutive. reflexivity.
Qed.

(** X21. seek(row, p) and seeka(row, p) return the same verdict, and leave the
    same row behind when the verdict is true; when a cell fails, seek has
    sought the cells up to and with the first that fails and has left every
    cell behind it as it was, where seeka has sought them all. *)
Theorem row_seek_seeka (its : list cell) :
  fst (row_seek its) = fst (row_seeka its) /\
  snd (row_seeka its) = (fun c => snd (seek_cell c)) <$> its /\
  (fst (row_seek its) = true -> snd (row_seek its) = snd (row_seeka its)) /\
  (fst (row_seek its) = false ->
   exists before c behind,
     its = before ++ c :: behind /\
     Forall (fun c => fst (seek_cell c) = true) before /\
     fst (seek_cell c) = false /\
     snd (row_seek its)
     = ((fun c => snd (seek_cell c)) <$> before) ++ snd (seek_cell c) :: behind).
Proof.
  rewrite row_seeka_all. cbn [fst snd].
  induction its as [|c its (IH1 & _ & IH3 & IH4)]; cbn [Db.row_seek forallb].
  - repeat split; try reflexivity. discriminate.
  - destruct (seek_cell c) as [valid c'] eqn:Hc. cbn [fst snd].
    destruct valid; cbn [andb].
    + destruct (row_seek its) as [ret its''] eqn:Hrec. cbn [fst snd] in *.
      split; [exact IH1|]. split; [rewrite fmap_cons, Hc; reflexivity|].
      split.
      * intros Hret. rewrite fmap_cons, Hc. cbn. f_equal. exact (IH3 Hret).
      * intros Hret.
        destruct (IH4 Hret) as (before & x & behind & -> & Hall & Hx & ->).
        exists (c :: before), x, behind. split; [reflexivity|].
        split; [constructor; [rewrite Hc; reflexivity|exact Hall]|].
        split; [exact Hx|]. rewrite fmap_cons, Hc. reflexivity.
    + split; [reflexivity|]. split; [rewrite fmap_cons, Hc; reflexivity|].
      split; [discriminate|]. intros _.
      exists [], c, its. rewrite Hc. repeat split. constructor.
Qed.

End row_facts.

(** ** What an insertion leaves in the database *)

Lemma foldl_puts_lookup (d : Room.database) (txn : list Room.delta)
      (c k : string) (v : Json.value) :
  (c, k, v) ∈ txn ->
  (forall v', (c, k, v') ∈ txn -> v' = v) ->
  foldl Room.apply d ((fun d => Db.Put (fst (fst d)) (snd (fst d)) (snd d)) <$> txn)
  !! (c, k) = Some v.
Proof.
  induction txn as [|[[c' k'] v'] txn IH] using rev_ind; intros Hin Hall.
  - inversion Hin.
  - rewrite fmap_app, foldl_app. cbn [fmap list_fmap foldl Room.apply fst snd].
    destruct (decide ((c', k') = (c, k))) as [Heq|Hne].
    + injection Heq as -> ->. rewrite lookup_insert_eq. f_equal.
      apply Hall. apply elem_of_app. right. left.
    + rewrite lookup_insert_ne by exact Hne.
      apply IH.
      * apply elem_of_app in Hin as [Hin|Hin]; [exact Hin|].
        apply list_elem_of_singleton in Hin. congruence.
      * intros v0 Hv0. apply Hall. apply elem_of_app. left. exact Hv0.
Qed.





Lemma insert_committed (buf : nat) (d d' : Room.database) (i : Room.iov)
      (t : Room.clock) (error : option exception) (e : event) :
  Room.insert buf d i t error = (d', Ok e) ->
  exists i', Room.insert_event buf i t = Ok (e, i') /\
             d' = foldl Room.apply d
                    ((fun d => Db.Put (fst (fst d)) (snd (fst d)) (snd d))
                     <$> Room.insert_txn e i').
Proof.
  unfold Room.insert.
  destruct (Room.insert_event buf i t) as [[e0 i']|ex]; [|discriminate].
  unfold Room.txn_commit, Db.Write. destruct error as [ex|]; [discriminate|].
  intros [= <- <-]. exists i'. split; [reflexivity|].
  rewrite txn_batch_puts. reflexivity.
Qed.


Lemma inserted_returns (i : Room.iov) (e : event) :
  snd (Room.inserted i) = Ok e ->
  Room.insert 256 ∅ i (Room.at_time 1500000000) None
  = (fst (Room.inserted i), Ok e).
Proof.
  unfold Room.inserted. intros H. rewrite <- H. apply surjective_pairing.
Qed.


Lemma strlcat_fits (dst src : string) (max : nat) :
  String.length dst + String.length src < max ->
  Room.strlcat dst src max = dst +:+ src.
Proof.
  intros H. unfold Room.strlcat. apply truncate_fits.
  rewrite string_length_append. lia.
Qed.

(** X23. After an insertion that returns, the row of the state index under
    the room_id, "..", the type and the state_key of the event holds the
    event id, provided that key fits the 2048 bytes of the index buffer. *)
Theorem insert_state_row (buf : nat) (d d' : Room.database) (i : Room.iov)
        (t : Room.clock) (error : option exception) (e : event) :
  Room.insert buf d i t error = (d', Ok e) ->
  String.length (Room.state_row_key (Sv.str (room_id e)) (Sv.str (type e))
                                    (Sv.str (state_key e))) < 2048 ->
  Room.cell d' "event_id for type,state_key in room_id"
            (Room.state_row_key (Sv.str (room_id e)) (Sv.str (type e))
                                (Sv.str (state_key e)))
  = Some (Sv.str (event_id e)).
Proof.
  intros Hins Hfits.
  apply insert_committed in Hins as (i' & _ & ->).
  rewrite insert_txn_rows. unfold Room.indexers.
  change [Room.concat "event_id" "sender"; Room.concat "event_id" "room_id";
          Room.concat_v "event_id" "room_id" "type";
          Room.concat_2v "event_id" "type" "state_key" "room_id"]
    with ([Room.concat "event_id" "sender"; Room.concat "event_id" "room_id";
           Room.concat_v "event_id" "room_id" "type"]
          ++ [Room.concat_2v "event_id" "type" "state_key" "room_id"]).
  rewrite !fmap_app, app_assoc, foldl_app.
  cbn [fmap list_fmap foldl Room.apply].
  unfold Room.cell, Room.state_row_key in *.
  assert (Hrow : Room.index_row
                   (Room.concat_2v "event_id" "type" "state_key" "room_id") e
                 = ("event_id for type,state_key in room_id",
                    Sv.str (room_id e) +:+ ".." +:+ Sv.str (type e)
                    +:+ Sv.str (state_key e),
                    Json.String_ (Sv.str (event_id e)))).
  { unfold Room.index_row.
    change (Room.name (Room.concat_2v "event_id" "type" "state_key" "room_id"))
      with "event_id for type,state_key in room_id".
    change (Room.member e "room_id") with (room_id e).
    change (Room.member e "type") with (type e).
    change (Room.member e "state_key") with (state_key e).
    change (Room.member e "event_id") with (event_id e).
    rewrite !string_length_append in Hfits. cbn [String.length] in Hfits.
    generalize dependent (Sv.str (room_id e)). intros r.
    generalize dependent (Sv.str (type e)). intros ty.
    generalize dependent (Sv.str (state_key e)). intros sk Hfits.
    assert (H1 : Room.strlcat "" r 2048 = r)
      by (rewrite strlcat_fits; [reflexivity|cbn [String.length]; lia]).
    rewrite H1.
    assert (H2 : Room.strlcat r ".." 2048 = r +:+ "..")
      by (apply strlcat_fits; cbn [String.length]; lia).
    rewrite H2.
    assert (H3 : Room.strlcat (r +:+ "..") ty 2048 = (r +:+ "..") +:+ ty)
      by (apply strlcat_fits; rewrite string_length_append;
          cbn [String.length]; lia).
    rewrite H3.
    assert (H4 : Room.strlcat ((r +:+ "..") +:+ ty) sk 2048
                 = ((r +:+ "..") +:+ ty) +:+ sk)
      by (apply strlcat_fits; rewrite !string_length_append;
          cbn [String.length]; lia).
    rewrite H4, !string_append_assoc. reflexivity. }
  rewrite Hrow. cbn [fst snd]. rewrite lookup_insert_eq. reflexivity.
Qed.

Lemma insert_state_row_witness :
  Room.insert 256 ∅ Room.sample_topic (Room.at_time 1500000000) None
  = (fst (Room.inserted Room.sample_topic),
     Ok (Room.inserted_event Room.sample_topic)) /\
  String.length
    (Room.state_row_key
       (Sv.str (room_id (Room.inserted_event Room.sample_topic)))
       (Sv.str (type (Room.inserted_event Room.sample_topic)))
       (Sv.str (state_key (Room.inserted_event Room.sample_topic)))) < 2048 /\
  Room.cell (fst (Room.inserted Room.sample_topic))
            "event_id for type,state_key in room_id"
            (Room.state_row_key
               (Sv.str (room_id (Room.inserted_event Room.sample_topic)))
               (Sv.str (type (Room.inserted_event Room.sample_topic)))
               (Sv.str (state_key (Room.inserted_event Room.sample_topic))))
  = Some (Sv.str (event_id (Room.inserted_event Room.sample_topic))).
Proof.
  assert (H : Room.insert 256 ∅ Room.sample_topic (Room.at_time 1500000000) None
              = (fst (Room.inserted Room.sample_topic),
                 Ok (Room.inserted_event Room.sample_topic)))
    by (apply inserted_returns; vm_compute; reflexivity).
  assert (H2 : String.length
                 (Room.state_row_key
                    (Sv.str (room_id (Room.inserted_event Room.sample_topic)))
                    (Sv.str (type (Room.inserted_event Room.sample_topic)))
                    (Sv.str (state_key (Room.inserted_event Room.sample_topic))))
               < 2048) by (vm_compute; lia).
  exact (conj H (conj H2
           (insert_state_row 256 ∅ _ Room.sample_topic
              (Room.at_time 1500000000) None _ H H2))).
Defined.

(** ** Membership *)

Lemma get_set (i : Room.iov) (k : string) (v : Json.value) :
  Json.get (Room.set i (k, v)) k = Some v.
Proof.
  unfold Room.set, Room.iov. cbn [fst].
  induction i as [|[k0 v0] i IH].
  - cbn. rewrite String.eqb_refl. reflexivity.
  - rewrite filter_cons. cbn [fst].
    destruct (String.eqb_spec k0 k) as [->|Hne]; cbn [negb].
    + rewrite decide_False by discriminate. exact IH.
    + rewrite decide_True by reflexivity.
      rewrite <- app_comm_cons. cbn [Json.get].
      apply String.eqb_neq in Hne. rewrite Hne. exact IH.
Qed.

(** X24. room::membership throws, and leaves the database as it was, when
    the content has no membership, when is_member finds that membership on
    record, when the user id is empty, and when the engine reports an error
    for the commit. In every other case it returns the member event it has
    built (type m.room.member, the user as state_key and sender, the content,
    the room id and the generated event id) with the database in which the
    batch of that event is applied. room::join and room::leave are
    room::membership of the content in which membership is set to join and
    to leave, so that they never throw for a missing membership. *)
Theorem membership_outcome (buf : nat) (d : Room.database) (room user : string)
        (content : Room.iov) (t : Room.clock) (error : option exception) :
  let id := Id.generate Id.EVENT buf (Room.host room) (Room.rnd t)
                        (Room.utime t) in
  let e := {| Event.auth_events := []; Event.content := content;
              event_id := Some id; room_id := Some room;
              sender := Some user; state_key := Some user;
              type := Some "m.room.member" |} in
  let i' := Room.membership_iov room user content id (Room.now t) in
  Room.membership buf d room user content t error
  = match Json.get content "membership" with
    | None => (d, Throw (not_found "membership"))
    | Some v =>
        if Room.is_member d room user (Room.text v)
        then (d, Throw (ALREADY_MEMBER ("Member '" +:+ user +:+ "' is already '"
                                        +:+ Room.text v +:+ "'.")))
        else if String.eqb user ""
        then (d, Throw (BAD_JSON "Required event field: 'sender'"))
        else match error with
             | Some ex => (d, Throw ex)
             | None => (foldl Room.apply d
                              (Room.txn_batch (Room.insert_txn e i')),
                        Ok e)
             end
    end /\
  (Room.join buf d room user content t error
   = Room.membership buf d room user
                     (Room.set content ("membership", Json.String_ "join"))
                     t error /\
   Json.get (Room.set content ("membership", Json.String_ "join")) "membership"
   = Some (Json.String_ "join")) /\
  (Room.leave buf d room user content t error
   = Room.membership buf d room user
                     (Room.set content ("membership", Json.String_ "leave"))
                     t error /\
   Json.get (Room.set content ("membership", Json.String_ "leave")) "membership"
   = Some (Json.String_ "leave")).
Proof.
  cbv zeta. split; [|split; (split; [reflexivity|apply get_set])].
  unfold Room.membership.
  destruct (Json.get content "membership") as [v|]; [|reflexivity].
  destruct (Room.is_member d room user (Room.text v)); [reflexivity|].
  unfold Room.send, Room.push. cbn [app].
  change (Room.add [("type", Json.String_ "m.room.member");
                    ("state_key", Json.String_ user);
                    ("sender", Json.String_ user);
                    ("content", Json.Object content)]
                   ("room_id", Json.String_ room))
    with (Ok [("type", Json.String_ "m.room.member");
              ("state_key", Json.String_ user);
              ("sender", Json.String_ user);
              ("content", Json.Object content);
              ("room_id", Json.String_ room)]).
  cbv beta iota.
  set (id := Id.generate Id.EVENT buf (Room.host room) (Room.rnd t) (Room.utime t)).
  change (Room.add [("type", Json.String_ "m.room.member");
                    ("state_key", Json.String_ user);
                    ("sender", Json.String_ user);
                    ("content", Json.Object content);
                    ("room_id", Json.String_ room)]
                   ("event_id", Json.String_ id))
    with (Ok [("type", Json.String_ "m.room.member");
              ("state_key", Json.String_ user);
              ("sender", Json.String_ user);
              ("content", Json.Object content);
              ("room_id", Json.String_ room);
              ("event_id", Json.String_ id)]).
  cbv beta iota.
  unfold Room.insert, Room.insert_event.
  change (Room.has [("type", Json.String_ "m.room.member");
                    ("state_key", Json.String_ user);
                    ("sender", Json.String_ user);
                    ("content", Json.Object content);
                    ("room_id", Json.String_ room);
                    ("event_id", Json.String_ id)] "event_id")
    with true.
  cbn [negb Room.add_if mbind result_bind].
  change (Room.set [("type", Json.String_ "m.room.member");
                    ("state_key", Json.String_ user);
                    ("sender", Json.String_ user);
                    ("content", Json.Object content);
                    ("room_id", Json.String_ room);
                    ("event_id", Json.String_ id)]
                   ("origin_server_ts", Json.Number (Room.now t)))
    with (Room.membership_iov room user content id (Room.now t)).
  change (Room.event_of_iov (Room.membership_iov room user content id (Room.now t)))
    with {| Event.auth_events := []; Event.content := content;
            event_id := Some id; room_id := Some room;
            sender := Some user; state_key := Some user;
            type := Some "m.room.member" |}.
  cbn [type sender]. change (Sv.empty (Some "m.room.member")) with false.
  cbv iota. change (Sv.empty (Some user)) with (String.eqb user "").
  destruct (String.eqb user ""); [reflexivity|].
  unfold Room.txn_commit, Db.Write. destruct error; reflexivity.
Qed.

Lemma query_loop_first (where_ : event -> bool) (membership : string)
      (evs : list event) :
  snd (Room.query_loop where_
         (fun e (_ : bool) =>
            (true, String.eqb membership (Sv.str (Event.membership e))))
         evs false)
  = match Room.first_match where_ evs with
    | Some e => String.eqb membership (Sv.str (Event.membership e))
    | None => false
    end.
Proof.
  unfold Room.first_match.
  induction evs as [|e evs IH]; cbn [Room.query_loop List.find]; [reflexivity|].
  destruct (where_ e); [reflexivity|exact IH].
Qed.

(** X25. room::is_member is decided by the first member event of the user
    that the cursor over the room meets: it holds exactly when there is such
    an event and the membership asked for is the one in its content; later
    member events of the user are not looked at. *)
Theorem is_member_first_event (d : Room.database) (room user membership : string) :
  Room.is_member d room user membership
  = match Room.first_match
            (Room.where_equal [("type", "m.room.member"); ("state_key", user)])
            (Room.room_events d room) with
    | Some e => String.eqb membership (Sv.str (Event.membership e))
    | None => false
    end.
Proof.
  unfold Room.is_member, Room.query. apply query_loop_first.
Qed.

(** ** The first membership of a user *)

Lemma membership_sends (buf : nat) (d d' : Room.database) (room user : string)
      (content : Room.iov) (t : Room.clock) (e : event) :
  Room.membership buf d room user content t None = (d', Ok e) ->
  let id := Id.generate Id.EVENT buf (Room.host room) (Room.rnd t) (Room.utime t) in
  let i' := [("type", Json.String_ "m.room.member");
             ("state_key", Json.String_ user);
             ("sender", Json.String_ user);
             ("content", Json.Object content);
             ("room_id", Json.String_ room);
             ("event_id", Json.String_ id);
             ("origin_server_ts", Json.Number (Room.now t))] in
  e = Room.event_of_iov i' /\
  d' = foldl Room.apply d
         ((fun d => Db.Put (fst (fst d)) (snd (fst d)) (snd d))
          <$> Room.insert_txn e i').
Proof.
  unfold Room.membership.
  destruct (Json.get content "membership") as [v|]; [|discriminate].
  destruct (Room.is_member d room user (Room.text v)); [discriminate|].
  unfold Room.send, Room.push. cbn [app].
  change (Room.add [("type", Json.String_ "m.room.member");
                    ("state_key", Json.String_ user);
                    ("sender", Json.String_ user);
                    ("content", Json.Object content)]
                   ("room_id", Json.String_ room))
    with (Ok [("type", Json.String_ "m.room.member");
              ("state_key", Json.String_ user);
              ("sender", Json.String_ user);
              ("content", Json.Object content);
              ("room_id", Json.String_ room)]).
  cbv beta iota.
  set (id := Id.generate Id.EVENT buf (Room.host room) (Room.rnd t) (Room.utime t)).
  change (Room.add [("type", Json.String_ "m.room.member");
                    ("state_key", Json.String_ user);
                    ("sender", Json.String_ user);
                    ("content", Json.Object content);
                    ("room_id", Json.String_ room)]
                   ("event_id", Json.String_ id))
    with (Ok [("type", Json.String_ "m.room.member");
              ("state_key", Json.String_ user);
              ("sender", Json.String_ user);
              ("content", Json.Object content);
              ("room_id", Json.String_ room);
              ("event_id", Json.String_ id)]).
  cbv beta iota.
  intros Hins. apply insert_committed in Hins as (i' & Hev & ->).
  unfold Room.insert_event in Hev.
  change (Room.has [("type", Json.String_ "m.room.member");
                    ("state_key", Json.String_ user);
                    ("sender", Json.String_ user);
                    ("content", Json.Object content);
                    ("room_id", Json.String_ room);
                    ("event_id", Json.String_ id)] "event_id")
    with true in Hev.
  cbn [negb Room.add_if mbind result_bind] in Hev.
  change (Room.set [("type", Json.String_ "m.room.member");
                    ("state_key", Json.String_ user);
                    ("sender", Json.String_ user);
                    ("content", Json.Object content);
                    ("room_id", Json.String_ room);
                    ("event_id", Json.String_ id)]
                   ("origin_server_ts", Json.Number (Room.now t)))
    with [("type", Json.String_ "m.room.member");
          ("state_key", Json.String_ user);
          ("sender", Json.String_ user);
          ("content", Json.Object content);
          ("room_id", Json.String_ room);
          ("event_id", Json.String_ id);
          ("origin_server_ts", Json.Number (Room.now t))] in Hev.
  destruct (Sv.empty (type _)); [discriminate Hev|].
  destruct (Sv.empty (sender _)); [discriminate Hev|].
  injection Hev as <- <-. split; reflexivity.
Qed.

Lemma foldl_puts_lookup_ne (d : Room.database) (txn : list Room.delta)
      (c k : string) :
  (forall v, (c, k, v) ∉ txn) ->
  foldl Room.apply d ((fun d => Db.Put (fst (fst d)) (snd (fst d)) (snd d)) <$> txn)
  !! (c, k) = d !! (c, k).
Proof.
  induction txn as [|[[c' k'] v'] txn IH] using rev_ind; intros Hnot; [reflexivity|].
  rewrite fmap_app, foldl_app. cbn [fmap list_fmap foldl Room.apply fst snd].
  rewrite lookup_insert_ne.
  - apply IH. intros v Hv. apply (Hnot v). apply elem_of_app. left. exact Hv.
  - intros [= -> ->]. apply (Hnot v'). apply elem_of_app. right. left.
Qed.

Lemma foldl_puts_is_Some (d : Room.database) (txn : list Room.delta)
      (c k : string) (v : Json.value) :
  (c, k, v) ∈ txn ->
  is_Some (foldl Room.apply d
             ((fun d => Db.Put (fst (fst d)) (snd (fst d)) (snd d)) <$> txn)
           !! (c, k)).
Proof.
  induction txn as [|[[c' k'] v'] txn IH] using rev_ind; intros Hin;
    [inversion Hin|].
  rewrite fmap_app, foldl_app. cbn [fmap list_fmap foldl Room.apply fst snd].
  destruct (decide ((c', k') = (c, k))) as [Heq|Hne].
  - rewrite Heq, lookup_insert_eq. eauto.
  - rewrite lookup_insert_ne by exact Hne. apply IH.
    apply elem_of_app in Hin as [Hin|Hin]; [exact Hin|].
    apply list_elem_of_singleton in Hin. congruence.
Qed.

Lemma column_keys_elem (d : Room.database) (c k : string) :
  k ∈ Room.column_keys d c <-> is_Some (d !! (c, k)).
Proof.
  unfold Room.column_keys. rewrite merge_sort_Permutation.
  rewrite list_elem_of_fmap. split.
  - intros ([c' k'] & -> & Hin). apply list_elem_of_filter in Hin as [Hc Hin].
    cbn in Hc. apply String.eqb_eq in Hc. subst c'.
    apply list_elem_of_fmap in Hin as ([ck v] & Heq & Hin). cbn in Heq. subst ck.
    apply elem_of_map_to_list in Hin. cbn. eauto.
  - intros [v Hv]. exists (c, k). split; [reflexivity|].
    apply list_elem_of_filter. split; [cbn; apply String.eqb_refl|].
    apply list_elem_of_fmap. exists ((c, k), v). split; [reflexivity|].
    apply elem_of_map_to_list. exact Hv.
Qed.

Lemma prefix_append (a b : string) : String.prefix a (a +:+ b) = true.
Proof.
  induction a as [|c a IH]; [destruct b; reflexivity|].
  change (String c a +:+ b) with (String c (a +:+ b)). cbn.
  destruct (ascii_dec c c); [exact IH|contradiction].
Qed.

Lemma substring_all (b : string) : String.substring 0 (String.length b) b = b.
Proof. induction b as [|c b IH]; cbn; [reflexivity|]. rewrite IH. reflexivity. Qed.

Lemma substring_append (a b : string) :
  String.substring (String.length a) (String.length (a +:+ b) - String.length a)
                   (a +:+ b) = b.
Proof.
  rewrite string_length_append.
  replace (String.length a + String.length b - String.length a)
    with (String.length b) by lia.
  induction a as [|c a IH]; [apply substring_all|].
  change (String c a +:+ b) with (String c (a +:+ b)). cbn. exact IH.
Qed.

Lemma prefix_split (a k : string) :
  String.prefix a k = true ->
  k = a +:+ String.substring (String.length a)
                             (String.length k - String.length a) k.
Proof.
  revert k. induction a as [|c a IH]; intros k H.
  - cbn. rewrite Nat.sub_0_r, substring_all. reflexivity.
  - destruct k as [|c' k]; [discriminate H|]. cbn in H.
    destruct (ascii_dec c c') as [<-|]; [|discriminate H].
    change (String c a +:+ ?x) with (String c (a +:+ x)). cbn.
    f_equal. apply IH. exact H.
Qed.

(* the events of a room: one for each key of the index that starts with
   the room id *)
Lemma room_events_elem (d : Room.database) (room : string) (x : event) :
  x ∈ Room.room_events d room <->
  exists suffix,
    is_Some (d !! ("event_id in room_id", room +:+ suffix)) /\
    x = Room.fetch d suffix.
Proof.
  unfold Room.room_events. rewrite list_elem_of_fmap. split.
  - intros (k & -> & Hk). apply list_elem_of_filter in Hk as [Hpre Hk].
    apply column_keys_elem in Hk. pose proof (prefix_split room k Hpre) as Heq.
    eexists. split; [|reflexivity]. rewrite <- Heq. exact Hk.
  - intros (suffix & Hk & ->). exists (room +:+ suffix). split.
    + rewrite substring_append. reflexivity.
    + apply list_elem_of_filter. split; [apply prefix_append|].
      apply column_keys_elem. exact Hk.
Qed.

Lemma string_append_inj (a b c : string) : a +:+ b = a +:+ c -> b = c.
Proof.
  induction a as [|x a IH]; [auto|].
  change (String x a +:+ ?y) with (String x (a +:+ y)).
  intros [= H]. auto.
Qed.

Lemma first_match_only (where_ : event -> bool) (evs : list event) (x : event) :
  x ∈ evs -> where_ x = true ->
  (forall y, y ∈ evs -> where_ y = true -> Event.membership y = Event.membership x) ->
  exists y, Room.first_match where_ evs = Some y /\
            Event.membership y = Event.membership x.
Proof.
  intros Hin Hx Hall. unfold Room.first_match.
  destruct (List.find where_ evs) as [y|] eqn:Hfind.
  - apply find_some in Hfind as [Hy Hwy]. exists y. split; [reflexivity|].
    apply Hall; [apply list_elem_of_In; exact Hy|exact Hwy].
  - pose proof (find_none _ _ Hfind x) as Hn.
    rewrite Hn in Hx; [discriminate Hx|]. apply list_elem_of_In. exact Hin.
Qed.

Lemma index_row_name (ix : Room.indexer) (e : event) :
  fst (fst (Room.index_row ix e)) = Room.name ix.
Proof. destruct ix; reflexivity. Qed.

(* the columns the index rows of an insertion go to *)
Lemma index_rows_column (e : event) (c k : string) (v : Json.value) :
  (c, k, v) ∈ ((fun ix => Room.index_row ix e) <$> Room.indexers) ->
  (c = "event_id in sender" \/
   c = "event_id for room_id in type" \/
   c = "event_id for type,state_key in room_id") \/
  (c = "event_id in room_id" /\
   k = Room.strlcat (Room.strlcat "" (Sv.str (room_id e)) 1024)
                    (Sv.str (event_id e)) 1024).
Proof.
  intros Hin. apply list_elem_of_fmap in Hin as (ix & Heq & Hix).
  apply list_elem_of_In in Hix. cbn in Hix.
  destruct Hix as [<-|[<-|[<-|[<-|Hix]]]]; [| | | |destruct Hix];
    cbn in Heq; injection Heq as -> -> ->; auto.
Qed.

(** X26. The first membership event of a user in a room is on record: when
    room::membership returns for a user of whom the room holds no member
    event, and the key of the new event fits the index buffer, is_member
    holds afterwards of the membership that was sent (join for room::join,
    leave for room::leave). *)
Theorem first_membership_recorded (buf : nat) (d d' : Room.database)
        (room user membership : string) (content : Room.iov) (t : Room.clock)
        (e : event) :
  Room.membership buf d room user content t None = (d', Ok e) ->
  Json.get content "membership" = Some (Json.String_ membership) ->
  Room.first_match
    (Room.where_equal [("type", "m.room.member"); ("state_key", user)])
    (Room.room_events d room) = None ->
  String.length room + String.length (Sv.str (event_id e)) < 1024 ->
  Room.is_member d' room user membership = true.
Proof.
  intros Hm Hcontent Hnone Hfits.
  destruct (membership_sends buf d d' room user content t e Hm) as [He ->].
  set (id := Id.generate Id.EVENT buf (Room.host room) (Room.rnd t)
                         (Room.utime t)) in *.
  set (i' := [("type", Json.String_ "m.room.member");
              ("state_key", Json.String_ user);
              ("sender", Json.String_ user);
              ("content", Json.Object content);
              ("room_id", Json.String_ room);
              ("event_id", Json.String_ id);
              ("origin_server_ts", Json.Number (Room.now t))]) in *.
  assert (Hid : Sv.str (event_id e) = id) by (rewrite He; reflexivity).
  assert (Hroom : Sv.str (room_id e) = room) by (rewrite He; reflexivity).
  set (where_ := Room.where_equal [("type", "m.room.member"); ("state_key", user)]).
  set (txn := Room.insert_txn e i').
  set (d1 := foldl Room.apply d
               ((fun d => Db.Put (fst (fst d)) (snd (fst d)) (snd d)) <$> txn)).
  assert (Htxn : txn = ((fun m => (fst m, id, snd m)) <$> i')
                       ++ ((fun ix => Room.index_row ix e) <$> Room.indexers)).
  { subst txn. rewrite insert_txn_rows, Hid. reflexivity. }
  assert (Hkey : Room.strlcat (Room.strlcat "" (Sv.str (room_id e)) 1024)
                              (Sv.str (event_id e)) 1024 = room +:+ id).
  { rewrite Hid in Hfits |- *. rewrite Hroom.
    assert (H1 : Room.strlcat "" room 1024 = room)
      by (rewrite strlcat_fits; [reflexivity|cbn [String.length]; lia]).
    rewrite H1. apply strlcat_fits. exact Hfits. }
  (* the entries of the batch in a field column, and in the room index *)
  assert (Hfield : forall f k v, (f, k, v) ∈ txn ->
            f = "auth_events" \/ f = "content" \/ f = "event_id" \/
            f = "room_id" \/ f = "sender" \/ f = "state_key" \/ f = "type" ->
            k = id /\ (f, v) ∈ i').
  { intros f k v Hin Hf. rewrite Htxn in Hin.
    apply elem_of_app in Hin as [Hin|Hin].
    - apply list_elem_of_fmap in Hin as ([n v0] & Heq & Hin).
      cbn in Heq. injection Heq as -> -> ->. auto.
    - exfalso. apply index_rows_column in Hin as [[Hc|[Hc|Hc]]|[Hc _]];
        subst f; repeat destruct Hf as [Hf|Hf]; discriminate Hf. }
  assert (Hindex : forall k v, ("event_id in room_id", k, v) ∈ txn ->
                               k = room +:+ id).
  { intros k v Hin. rewrite Htxn in Hin.
    apply elem_of_app in Hin as [Hin|Hin].
    - apply list_elem_of_fmap in Hin as ([n v0] & Heq & Hin).
      cbn in Heq. injection Heq as <- -> ->.
      apply list_elem_of_In in Hin. cbn in Hin.
      repeat destruct Hin as [Hin|Hin]; try discriminate Hin. destruct Hin.
    - apply index_rows_column in Hin as [[Hc|[Hc|Hc]]|[_ Hk]];
        try discriminate Hc. rewrite Hk. exact Hkey. }
  assert (Hnew : is_Some (d1 !! ("event_id in room_id", room +:+ id))).
  { apply (foldl_puts_is_Some d txn _ _ (Json.String_ "")).
    rewrite Htxn. apply elem_of_app. right.
    apply list_elem_of_fmap. exists (Room.concat "event_id" "room_id").
    split; [|right; left].
    unfold Room.index_row.
    change (Room.member e "room_id") with (room_id e).
    change (Room.member e "event_id") with (event_id e).
    rewrite Hkey. reflexivity. }
  (* a member of the event is what its field column holds under the id *)
  assert (Hcell : forall f v,
            f = "auth_events" \/ f = "content" \/ f = "event_id" \/
            f = "room_id" \/ f = "sender" \/ f = "state_key" \/ f = "type" ->
            (f, v) ∈ i' -> (forall v', (f, v') ∈ i' -> v' = v) ->
            d1 !! (f, id) = Some v).
  { intros f v Hf Hin Huniq. apply foldl_puts_lookup.
    - rewrite Htxn. apply elem_of_app. left. apply list_elem_of_fmap.
      exists (f, v). auto.
    - intros v' Hv'. apply Huniq. apply (Hfield f id v' Hv' Hf). }
  assert (Htype : d1 !! ("type", id) = Some (Json.String_ "m.room.member")).
  { apply Hcell; [auto 10|left|].
    intros v' Hv'. apply list_elem_of_In in Hv'. cbn in Hv'.
    repeat destruct Hv' as [Hv'|Hv']; try discriminate Hv'; try congruence.
    destruct Hv'. }
  assert (Hsk : d1 !! ("state_key", id) = Some (Json.String_ user)).
  { apply Hcell; [auto 10|right; left|].
    intros v' Hv'. apply list_elem_of_In in Hv'. cbn in Hv'.
    repeat destruct Hv' as [Hv'|Hv']; try discriminate Hv'; try congruence.
    destruct Hv'. }
  assert (Hct : d1 !! ("content", id) = Some (Json.Object content)).
  { apply Hcell; [auto 10|do 3 right; left|].
    intros v' Hv'. apply list_elem_of_In in Hv'. cbn in Hv'.
    repeat destruct Hv' as [Hv'|Hv']; try discriminate Hv'; try congruence.
    destruct Hv'. }
  (* the new event matches, and holds the membership that was sent *)
  assert (Hwhere : where_ (Room.fetch d1 id) = true).
  { subst where_. unfold Room.where_equal. cbn [forallb fst snd].
    change (Room.member (Room.fetch d1 id) "type") with (Room.cell d1 "type" id).
    change (Room.member (Room.fetch d1 id) "state_key")
      with (Room.cell d1 "state_key" id).
    unfold Room.cell. rewrite Htype, Hsk. unfold Sv.is_lit. cbn [Sv.str default].
    rewrite !String.eqb_refl. reflexivity. }
  assert (Hmem : Event.membership (Room.fetch d1 id) = Some membership).
  { unfold Event.membership, Room.fetch. cbn [Event.content]. rewrite Hct.
    cbn [Room.content_of]. unfold Json.get_string. rewrite Hcontent. reflexivity. }
  (* every other event of the room is as it was *)
  assert (Hold : forall suffix, suffix <> id ->
                 Room.fetch d1 suffix = Room.fetch d suffix).
  { intros suffix Hne.
    assert (Hsame : forall f,
              f = "auth_events" \/ f = "content" \/ f = "event_id" \/
              f = "room_id" \/ f = "sender" \/ f = "state_key" \/ f = "type" ->
              d1 !! (f, suffix) = d !! (f, suffix)).
    { intros f Hf. apply foldl_puts_lookup_ne. intros v Hin.
      destruct (Hfield f suffix v Hin Hf) as [Heq _]. contradiction. }
    unfold Room.fetch, Room.cell.
    rewrite !Hsame by auto 10. reflexivity. }
  unfold Room.is_member, Room.query. rewrite query_loop_first.
  destruct (first_match_only where_ (Room.room_events d1 room)
              (Room.fetch d1 id)) as (y & Hy & Hym).
  - apply room_events_elem. exists id. auto.
  - exact Hwhere.
  - intros y Hy Hwy. apply room_events_elem in Hy as (suffix & Hk & ->).
    destruct (decide (suffix = id)) as [->|Hne]; [reflexivity|].
    exfalso. rewrite (Hold suffix Hne) in Hwy.
    assert (Hin : Room.fetch d suffix ∈ Room.room_events d room).
    { apply room_events_elem. exists suffix. split; [|reflexivity].
      subst d1. rewrite foldl_puts_lookup_ne in Hk; [exact Hk|].
      intros v Hv. apply Hindex in Hv. apply string_append_inj in Hv.
      contradiction. }
    unfold Room.first_match in Hnone. apply list_elem_of_In in Hin.
    pose proof (find_none _ _ Hnone (Room.fetch d suffix) Hin) as Hf.
    unfold where_ in Hwy. congruence.
  - fold where_. rewrite Hy, Hym, Hmem. cbn [Sv.str default].
    apply String.eqb_refl.
Qed.

Lemma first_membership_recorded_witness :
  Room.membership 256 ∅ Room.ircd_room Room.ircd_user
                  [("membership", Json.String_ "join")]
                  (Room.at_time 1500000000) None
  = (fst Room.first_join, Ok Room.first_join_event) /\
  Json.get [("membership", Json.String_ "join")] "membership"
  = Some (Json.String_ "join") /\
  Room.first_match
    (Room.where_equal [("type", "m.room.member"); ("state_key", Room.ircd_user)])
    (Room.room_events ∅ Room.ircd_room) = None /\
  String.length Room.ircd_room
  + String.length (Sv.str (event_id Room.first_join_event)) < 1024 /\
  Room.is_member (fst Room.first_join) Room.ircd_room Room.ircd_user "join"
  = true.
Proof.
  assert (H1 : Room.membership 256 ∅ Room.ircd_room Room.ircd_user
                 [("membership", Json.String_ "join")]
                 (Room.at_time 1500000000) None
               = (fst Room.first_join, Ok Room.first_join_event)).
  { assert (Hs : snd Room.first_join = Ok Room.first_join_event)
      by (vm_compute; reflexivity).
    unfold Room.first_join in *. rewrite <- Hs. apply surjective_pairing. }
  assert (H2 : Json.get [("membership", Json.String_ "join")] "membership"
               = Some (Json.String_ "join")) by reflexivity.
  assert (H3 : Room.first_match
                 (Room.where_equal [("type", "m.room.member");
                                    ("state_key", Room.ircd_user)])
                 (Room.room_events ∅ Room.ircd_room) = None)
    by (vm_compute; reflexivity).
  assert (H4 : String.length Room.ircd_room
               + String.length (Sv.str (event_id Room.first_join_event)) < 1024)
    by (vm_compute; lia).
  exact (conj H1 (conj H2 (conj H3 (conj H4
           (first_membership_recorded 256 ∅ _ Room.ircd_room Room.ircd_user
              "join" _ (Room.at_time 1500000000) _ H1 H2 H3 H4))))).
Defined.
